(** * AlternityDashboard: the asset-matching and review core of [src/App.tsx]

    A shallow embedding of the non-presentational logic of the dashboard:
    the prompt matcher with its regular expressions, the scene analyser,
    and the handlers that mutate the review ledger.

    Conventions of the embedding.
    - A JavaScript string is the sequence of its UTF-16 code units; the
      model covers strings whose code units are below 256, one [ascii] per
      code unit.  Case mapping and white space are those of ECMAScript on
      that range.
    - The React state of [App] is a record; a handler is a function from the
      state before the event to the state after it.  A handler that would
      dereference [images[qcIndex]] when it is [undefined] returns [None]
      (the [TypeError]); the buttons that own these handlers are rendered
      only when the current item exists.
    - [alert] calls are returned as a list of messages next to the state.
    - [handleRegenerate] awaits, and the events of a session come in
      between: sessions run on a page that keeps the item objects apart
      from the arrays holding them ([Page]), of which the state above is
      what a render shows. *)

From Stdlib Require Import Ascii String ZArith Lia Bool.
From stdpp Require Import base option list strings gmap.

Local Open Scope stdpp_scope.

(* ================================================================== *)
(** * Text primitives *)
(* ================================================================== *)

Module Text.

Definition code (c : ascii) : nat := nat_of_ascii c.

Definition between (lo hi n : nat) : bool := (lo <=? n) && (n <=? hi).

(** [String.prototype.toLowerCase] on one code unit below 256:
    [A-Z], and the Latin-1 capitals 0xC0..0xDE without the
    multiplication sign 0xD7. *)
Definition lowerChar (c : ascii) : ascii :=
  let n := code c in
  if between 65 90 n || (between 192 222 n && negb (n =? 215))
  then ascii_of_nat (n + 32) else c.

(** The [Canonicalize] operation of a regular expression with the [i]
    flag and without the [u] flag: simple upper-casing.  The two code
    units below 256 whose capital lies above 255 (0xB5 and 0xFF) are left
    in place: like their capitals they equal no character of a pattern
    of this program. *)
Definition canonicalize (c : ascii) : ascii :=
  let n := code c in
  if between 97 122 n || (between 224 254 n && negb (n =? 247))
  then ascii_of_nat (n - 32) else c.

(** [\d] *)
Definition isDigit (c : ascii) : bool := between 48 57 (code c).

(** [\s], which is also what [trim] removes: TAB, LF, VT, FF, CR, space
    and the no-break space. *)
Definition isSpace (c : ascii) : bool :=
  let n := code c in between 9 13 n || (n =? 32) || (n =? 160).

(** [[_\s]] *)
Definition isSep (c : ascii) : bool := (code c =? 95) || isSpace c.

Fixpoint toLowerCase (s : string) : string :=
  match s with
  | EmptyString => EmptyString
  | String c s' => String (lowerChar c) (toLowerCase s')
  end.

Fixpoint takeWhile (p : ascii -> bool) (s : string) : string :=
  match s with
  | EmptyString => EmptyString
  | String c s' => if p c then String c (takeWhile p s') else EmptyString
  end.

Fixpoint dropWhile (p : ascii -> bool) (s : string) : string :=
  match s with
  | EmptyString => EmptyString
  | String c s' => if p c then dropWhile p s' else s
  end.

Fixpoint allChars (p : ascii -> bool) (s : string) : bool :=
  match s with
  | EmptyString => true
  | String c s' => p c && allChars p s'
  end.

Definition isEmpty (s : string) : bool :=
  match s with EmptyString => true | _ => false end.

(** The first [n] code units of [s]. *)
Fixpoint take (n : nat) (s : string) : string :=
  match n, s with
  | S n', String c s' => String c (take n' s')
  | _, _ => EmptyString
  end.

(** [s.startsWith(w)] *)
Fixpoint startsWith (w s : string) : bool :=
  match w, s with
  | EmptyString, _ => true
  | String c w', String x s' => if ascii_dec c x then startsWith w' s' else false
  | String _ _, EmptyString => false
  end.

(** [s.includes(w)] *)
Fixpoint includes (s w : string) : bool :=
  startsWith w s ||
  match s with
  | EmptyString => false
  | String _ s' => includes s' w
  end.

(** [s.trim()] *)
Fixpoint trimEnd (s : string) : string :=
  match s with
  | EmptyString => EmptyString
  | String c s' =>
      let t := trimEnd s' in
      if isSpace c && isEmpty t then EmptyString else String c t
  end.

Definition trimStart (s : string) : string := dropWhile isSpace s.

Definition trim (s : string) : string := trimEnd (trimStart s).

(** [s.split(sep)] for a non-empty separator.  [skip] counts the code
    units of a separator occurrence that are still to be passed over. *)
Fixpoint splitFrom (sep : string) (skip : nat) (s : string) : list string :=
  match s with
  | EmptyString => [EmptyString]
  | String c s' =>
      match skip with
      | S n => splitFrom sep n s'
      | O =>
          if startsWith sep s
          then EmptyString :: splitFrom sep (String.length sep - 1) s'
          else match splitFrom sep 0 s' with
               | seg :: segs => String c seg :: segs
               | [] => [String c EmptyString]
               end
      end
  end.

Definition split (sep s : string) : list string := splitFrom sep 0 s.

(** [parts[i]] read as a string; an absent part is not reached by the
    program, which reads [parts[1]] only after [includes] succeeded. *)
Definition part (i : nat) (parts : list string) : string :=
  default EmptyString (parts !! i).

End Text.

(* ================================================================== *)
(** * Regular expressions: a backtracking matcher *)
(* ================================================================== *)

Module Regex.
Import Text.

Inductive regex : Type :=
| Str (w : string)               (** pattern characters in sequence *)
| Cls (p : ascii -> bool)        (** a character class *)
| Cat (r1 r2 : regex)
| Alt (r1 r2 : regex)
| Star (r : regex)               (** greedy [r*] *)
| Plus (r : regex)               (** greedy [r+] *)
| Grp (r : regex)                (** a capturing group *)
| Eos.                           (** [$] without the [m] flag *)

(** A match in progress: the captures closed so far and the input that
    is left. *)
Definition outcome : Type := option (list string * string).
Definition cont : Type := string -> list string -> outcome.

Definition accept : cont := fun rest caps => Some (caps, rest).

Definition chEq (ignoreCase : bool) (c x : ascii) : bool :=
  if ignoreCase
  then bool_decide (canonicalize c = canonicalize x)
  else bool_decide (c = x).

Fixpoint matchStr (ignoreCase : bool) (w s : string) : option string :=
  match w with
  | EmptyString => Some s
  | String c w' =>
      match s with
      | String x s' => if chEq ignoreCase c x then matchStr ignoreCase w' s' else None
      | EmptyString => None
      end
  end.

(** The text between the start [s] of a group and the input [rest] left
    when it closes. *)
Definition consumed (s rest : string) : string :=
  take (String.length s - String.length rest) s.

(** Greedy iteration of the matcher [m1]: one more round first, the
    continuation when that fails.  A round that consumes nothing is
    refused, as in ECMAScript; [n] bounds the rounds and is the length of
    the input. *)
Fixpoint starLoop (m1 : string -> list string -> cont -> outcome)
    (n : nat) (s : string) (caps : list string) (k : cont) : outcome :=
  match n with
  | O => k s caps
  | S n' =>
      match m1 s caps (fun s1 caps1 =>
              if String.length s1 <? String.length s
              then starLoop m1 n' s1 caps1 k else None) with
      | Some x => Some x
      | None => k s caps
      end
  end.

Fixpoint rmatch (ignoreCase : bool) (r : regex) (s : string)
    (caps : list string) (k : cont) {struct r} : outcome :=
  match r with
  | Str w =>
      match matchStr ignoreCase w s with
      | Some s1 => k s1 caps
      | None => None
      end
  | Cls p =>
      match s with
      | String x s1 => if p x then k s1 caps else None
      | EmptyString => None
      end
  | Cat r1 r2 =>
      rmatch ignoreCase r1 s caps (fun s1 caps1 => rmatch ignoreCase r2 s1 caps1 k)
  | Alt r1 r2 =>
      match rmatch ignoreCase r1 s caps k with
      | Some x => Some x
      | None => rmatch ignoreCase r2 s caps k
      end
  | Star r1 =>
      starLoop (rmatch ignoreCase r1) (String.length s) s caps k
  | Plus r1 =>
      rmatch ignoreCase r1 s caps (fun s1 caps1 =>
        starLoop (rmatch ignoreCase r1) (String.length s1) s1 caps1 k)
  | Grp r1 =>
      rmatch ignoreCase r1 s caps (fun s1 caps1 => k s1 (caps1 ++ [consumed s s1]))
  | Eos =>
      match s with
      | EmptyString => k s caps
      | String _ _ => None
      end
  end.

(** A match that starts at the head of [s]: the match array
    ([m[0]] the whole match, then the groups) and the input left. *)
Definition matchAt (ignoreCase : bool) (r : regex) (s : string)
    : option (list string * string) :=
  match rmatch ignoreCase r s [] accept with
  | Some (caps, rest) => Some (consumed s rest :: caps, rest)
  | None => None
  end.

(** [s.match(re)] for a regular expression without the [g] flag: the
    leftmost start position that matches. *)
Fixpoint exec (ignoreCase : bool) (r : regex) (s : string) : option (list string) :=
  match matchAt ignoreCase r s with
  | Some (m, _) => Some m
  | None =>
      match s with
      | EmptyString => None
      | String _ s' => exec ignoreCase r s'
      end
  end.

(** [s.replace(re, '')] without the [g] flag: the leftmost match is
    removed. *)
Fixpoint removeFirst (ignoreCase : bool) (r : regex) (s : string) : string :=
  match matchAt ignoreCase r s with
  | Some (_, rest) => rest
  | None =>
      match s with
      | EmptyString => EmptyString
      | String c s' => String c (removeFirst ignoreCase r s')
      end
  end.

(** [s.replace(re, '')] with the [g] flag, for a pattern that never
    matches the empty string: every match is removed, scanning from the
    left and resuming after each match.  [skip] counts the code units of
    the current match still to be dropped. *)
Fixpoint removeAllFrom (ignoreCase : bool) (r : regex) (skip : nat) (s : string) : string :=
  match s with
  | EmptyString => EmptyString
  | String c s' =>
      match skip with
      | S n => removeAllFrom ignoreCase r n s'
      | O =>
          match matchAt ignoreCase r s with
          | Some (_, rest) =>
              removeAllFrom ignoreCase r (String.length s - String.length rest - 1) s'
          | None => String c (removeAllFrom ignoreCase r 0 s')
          end
      end
  end.

Definition removeAll (ignoreCase : bool) (r : regex) (s : string) : string :=
  removeAllFrom ignoreCase r 0 s.

End Regex.

(* ================================================================== *)
(** * The declarations of [types.ts] *)
(* ================================================================== *)

Module Char.
Record t : Type := { name : string; outfit : string }.
End Char.
Abbreviation Character := Char.t.

(** What the program reads of a browser [File]. *)
Record File : Type := { fileName : string }.

Inductive Status : Type := pending | approved | rejected.

Module QC.
Record t : Type := {
  id : Z;
  file : option File;
  url : string;
  oldUrl : option string;
  name : string;
  prompt : string;
  originalPrompt : string;
  status : Status;
  setting : option string
}.
End QC.
Abbreviation QCImage := QC.t.

Record PromptEntry : Type := { outputAi : string }.

(* ================================================================== *)
(** * Utility functions *)
(* ================================================================== *)

Import Text Regex.

Definition detectSettingFromPrompt (prompt : string) : string :=
  if isEmpty prompt then "generic" else
  let p := toLowerCase prompt in
  if includes p "vip" then "hospital_vip"
  else if includes p "hospital" || includes p "rumah sakit" then "hospital_regular"
  else if includes p "living" || includes p "ruang tamu" then "apartment_living_room"
  else if includes p "bedroom" || includes p "kamar tidur" then "apartment_bedroom"
  else "generic".

(** The inner [detectOutfit] closure, over the lower-cased prompt [p]. *)
Definition detectOutfit (p : string) : string :=
  if includes p "baju pasien" || includes p "patient" then "patient"
  else if includes p "formal" then "formal"
  else if includes p "casual" then "casual"
  else if includes p "santai" then "santai"
  else "default".

(** [if (cond) characters.push(c)] *)
Definition pushIf (cond : bool) (c : Character) (characters : list Character)
    : list Character :=
  if cond then characters ++ [c] else characters.

Definition detectCharactersFromPrompt (prompt : string) : list Character :=
  if isEmpty prompt then [] else
  let p := toLowerCase prompt in
  let characters := [] in
  let characters :=
    pushIf (includes p "mc") {| Char.name := "MC"; Char.outfit := detectOutfit p |} characters in
  let characters :=
    pushIf (includes p "raka") {| Char.name := "Raka"; Char.outfit := detectOutfit p |} characters in
  let characters :=
    pushIf (includes p "alina") {| Char.name := "Alina"; Char.outfit := detectOutfit p |} characters in
  let characters :=
    pushIf (includes p "aruna") {| Char.name := "Aruna"; Char.outfit := "default" |} characters in
  characters.

(** The four names in the order in which the analyser tests them. *)
Definition roster : list string := ["MC"; "Raka"; "Alina"; "Aruna"].

Definition namesOf (cs : list Character) : list string := Char.name <$> cs.

(** [/_compressed/gi] *)
Definition compressedRe : regex := Str "_compressed".

(** [/\.(png|jpg|jpeg|webp)$/i] *)
Definition extensionRe : regex :=
  Cat (Str ".")
    (Cat (Grp (Alt (Str "png") (Alt (Str "jpg") (Alt (Str "jpeg") (Str "webp")))))
       Eos).

(** [/chap[_\s]*(\d+)_(\d+)/i] *)
Definition chapRe : regex :=
  Cat (Str "chap")
    (Cat (Star (Cls isSep))
       (Cat (Grp (Plus (Cls isDigit)))
          (Cat (Str "_")
             (Grp (Plus (Cls isDigit)))))).

Definition cleanImageName (imageName : string) : string :=
  toLowerCase (removeFirst true extensionRe (removeAll true compressedRe imageName)).

(** The template [`${m[1]}_${m[2]}`] over a match array. *)
Definition chapterKey (m : list string) : string :=
  part 1 m +:+ "_" +:+ part 2 m.

(** The [for ... of] loop of [matchPromptToImage]; [return] leaves it. *)
Fixpoint scanPrompts (imgChapter : string) (promptsArray : list PromptEntry)
    : option string :=
  match promptsArray with
  | [] => None
  | promptEntry :: later =>
      let outputAi := outputAi promptEntry in
      if includes outputAi "||" then
        let parts := split "||" outputAi in
        let promptText := trim (part 0 parts) in
        let filenameFromJSON := trim (part 1 parts) in
        match exec true chapRe filenameFromJSON with
        | Some jsonMatch =>
            let jsonChapter := chapterKey jsonMatch in
            if bool_decide (imgChapter = jsonChapter) then Some promptText
            else scanPrompts imgChapter later
        | None => scanPrompts imgChapter later
        end
      else scanPrompts imgChapter later
  end.

Definition matchPromptToImage (imageName : string) (promptsArray : list PromptEntry)
    : option string :=
  if bool_decide (length promptsArray = 0) then None else
  match exec true chapRe (cleanImageName imageName) with
  | Some imgMatch => scanPrompts (chapterKey imgMatch) promptsArray
  | None => None
  end.

(** [x || fallback] and the truth value of [x] for [x : string | null]:
    [null] and the empty string are falsy. *)
Definition truthy (x : option string) : option string :=
  match x with
  | Some s => if isEmpty s then None else Some s
  | None => None
  end.

Definition orElse (x : option string) (fallback : string) : string :=
  default fallback (truthy x).

(* ================================================================== *)
(** * The state of [App] and its handlers *)
(* ================================================================== *)

Inductive View : Type := dashboard | qc | extraction | retry.

Record AppState : Type := {
  currentView : View;
  backendUrl : string;
  images : list QCImage;
  promptData : list PromptEntry;
  qcIndex : nat;
  compareMode : bool;
  outfitOverride : gmap string string;
  isRegenerating : bool
}.

Definition setCurrentView (v : View) (st : AppState) : AppState :=
  {| currentView := v; backendUrl := backendUrl st; images := images st;
     promptData := promptData st; qcIndex := qcIndex st;
     compareMode := compareMode st; outfitOverride := outfitOverride st;
     isRegenerating := isRegenerating st |}.

Definition setImages (imgs : list QCImage) (st : AppState) : AppState :=
  {| currentView := currentView st; backendUrl := backendUrl st; images := imgs;
     promptData := promptData st; qcIndex := qcIndex st;
     compareMode := compareMode st; outfitOverride := outfitOverride st;
     isRegenerating := isRegenerating st |}.

Definition setPromptData (data : list PromptEntry) (st : AppState) : AppState :=
  {| currentView := currentView st; backendUrl := backendUrl st; images := images st;
     promptData := data; qcIndex := qcIndex st;
     compareMode := compareMode st; outfitOverride := outfitOverride st;
     isRegenerating := isRegenerating st |}.

Definition setQcIndex (i : nat) (st : AppState) : AppState :=
  {| currentView := currentView st; backendUrl := backendUrl st; images := images st;
     promptData := promptData st; qcIndex := i;
     compareMode := compareMode st; outfitOverride := outfitOverride st;
     isRegenerating := isRegenerating st |}.

Definition setCompareMode (b : bool) (st : AppState) : AppState :=
  {| currentView := currentView st; backendUrl := backendUrl st; images := images st;
     promptData := promptData st; qcIndex := qcIndex st;
     compareMode := b; outfitOverride := outfitOverride st;
     isRegenerating := isRegenerating st |}.

Definition setIsRegenerating (b : bool) (st : AppState) : AppState :=
  {| currentView := currentView st; backendUrl := backendUrl st; images := images st;
     promptData := promptData st; qcIndex := qcIndex st;
     compareMode := compareMode st; outfitOverride := outfitOverride st;
     isRegenerating := b |}.

(** Assignments to one field of an item. *)
Definition withStatus (s : Status) (img : QCImage) : QCImage :=
  {| QC.id := QC.id img; QC.file := QC.file img; QC.url := QC.url img;
     QC.oldUrl := QC.oldUrl img; QC.name := QC.name img;
     QC.prompt := QC.prompt img; QC.originalPrompt := QC.originalPrompt img;
     QC.status := s; QC.setting := QC.setting img |}.

Definition withPrompt (p : string) (img : QCImage) : QCImage :=
  {| QC.id := QC.id img; QC.file := QC.file img; QC.url := QC.url img;
     QC.oldUrl := QC.oldUrl img; QC.name := QC.name img;
     QC.prompt := p; QC.originalPrompt := QC.originalPrompt img;
     QC.status := QC.status img; QC.setting := QC.setting img |}.

(** The messages shown with [alert]:
    [InvalidJson] is 'Invalid JSON file.', [Loaded n] is
    'Successfully loaded n prompt entries.' and [RegenerationFailed] is
    'Regeneration failed (Check backend connection)'. *)
Inductive Alert : Type :=
| InvalidJson
| Loaded (n : nat)
| RegenerationFailed.

(** One entry of [e.target.files] with what the callback of
    [handleImageUpload] obtains from the browser for it: the locator
    returned by [URL.createObjectURL] and the value of [Date.now()]. *)
Record Picked : Type := {
  pickedFile : File;
  objectUrl : string;
  now : Z
}.

Definition placeholder : string := "Prompt will appear here once JSON is loaded...".

Definition newImage (promptData : list PromptEntry) (idx : nat) (f : Picked) : QCImage :=
  let prompt := orElse (matchPromptToImage (fileName (pickedFile f)) promptData) placeholder in
  {| QC.id := (now f + Z.of_nat idx)%Z;
     QC.file := Some (pickedFile f);
     QC.url := objectUrl f;
     QC.oldUrl := None;
     QC.name := fileName (pickedFile f);
     QC.prompt := prompt;
     QC.originalPrompt := prompt;
     QC.status := pending;
     QC.setting := None |}.

Definition handleImageUpload (files : option (list Picked)) (st : AppState) : AppState :=
  match files with
  | None => st
  | Some files =>
      let newImages := imap (newImage (promptData st)) files in
      setCurrentView qc (setImages (images st ++ newImages) st)
  end.

(** The callback given to [prev.map] in [handleJSONUpload]. *)
Definition rematch (data : list PromptEntry) (img : QCImage) : QCImage :=
  match truthy (matchPromptToImage (QC.name img) data) with
  | Some newPrompt =>
      {| QC.id := QC.id img; QC.file := QC.file img; QC.url := QC.url img;
         QC.oldUrl := QC.oldUrl img; QC.name := QC.name img;
         QC.prompt := newPrompt; QC.originalPrompt := newPrompt;
         QC.status := QC.status img; QC.setting := QC.setting img |}
  | None => img
  end.

Section Dataset.

(** [JSON.parse] on the text of a dataset file: [None] when it throws,
    the array of records otherwise.  The model covers texts that are
    malformed or hold an array of [{ outputAi: string }] records. *)
Variable JSON_parse : string -> option (list PromptEntry).

(** [handleJSONUpload]; the argument is the text of [e.target.files[0]]
    delivered to [reader.onload], or [None] when no file was chosen. *)
Definition handleJSONUpload (file : option string) (st : AppState)
    : AppState * list Alert :=
  match file with
  | None => (st, [])
  | Some text =>
      match JSON_parse text with
      | Some data =>
          (setImages (rematch data <$> images st) (setPromptData data st),
           [Loaded (length data)])
      | None => (st, [InvalidJson])
      end
  end.

End Dataset.

(** [outfitOverride[c.name] || c.outfit] *)
Definition charsWithOverride (overrides : gmap string string)
    (detectedChars : list Character) : list Character :=
  (fun c => {| Char.name := Char.name c;
               Char.outfit := orElse (overrides !! Char.name c) (Char.outfit c) |})
  <$> detectedChars.

(** The item written by a successful regeneration of [current]. *)
Definition regenerated (newUrl : string) (current : QCImage) : QCImage :=
  {| QC.id := QC.id current; QC.file := QC.file current;
     QC.url := newUrl;
     QC.oldUrl := Some (QC.url current);
     QC.name := QC.name current;
     QC.prompt := QC.prompt current; QC.originalPrompt := QC.originalPrompt current;
     QC.status := pending; QC.setting := QC.setting current |}.

(** How the awaited call of [handleRegenerate] ends.  The promise of the
    demonstration code always resolves; the [catch] branch is what runs
    when the call it stands for rejects. *)
Inductive Settled : Type := Resolved | Rejected.

(** [handleRegenerate], from the click to the end of its [finally] block,
    with no other event handled while the call is awaited.  The roster
    [charsWithOverride] is computed and not used by the demonstration
    code; the new locator is the current one. *)
Definition handleRegenerate (awaited : Settled) (st : AppState)
    : AppState * list Alert :=
  match images st !! qcIndex st with
  | None => (st, [])
  | Some current =>
      if isEmpty (backendUrl st) then (st, []) else
      match awaited with
      | Resolved =>
          let newUrl := QC.url current in
          let updated := <[qcIndex st := regenerated newUrl current]> (images st) in
          (setIsRegenerating false (setCompareMode true (setImages updated st)), [])
      | Rejected =>
          (setIsRegenerating false st, [RegenerationFailed])
      end
  end.

(** The buttons of the review screen ([renderQC]). *)

(** A thumbnail of the queue: [setQcIndex(idx); setCompareMode(false)]. *)
Definition selectImage (idx : nat) (st : AppState) : AppState :=
  setCompareMode false (setQcIndex idx st).

(** The Approve button. *)
Definition approve (st : AppState) : option AppState :=
  current ← images st !! qcIndex st;
  let updated := <[qcIndex st := withStatus approved current]> (images st) in
  let st1 := setImages updated st in
  Some (if qcIndex st <? length (images st) - 1
        then setQcIndex (qcIndex st + 1) st1 else st1).

(** The Reject button. *)
Definition reject (st : AppState) : option AppState :=
  current ← images st !! qcIndex st;
  let updated := <[qcIndex st := withStatus rejected current]> (images st) in
  let st1 := setImages updated st in
  Some (if qcIndex st <? length (images st) - 1
        then setQcIndex (qcIndex st + 1) st1 else st1).

(** The [onChange] of the prompt text area. *)
Definition editPrompt (value : string) (st : AppState) : option AppState :=
  current ← images st !! qcIndex st;
  Some (setImages (<[qcIndex st := withPrompt value current]> (images st)) st).

(** The Reset Prompt button. *)
Definition resetPrompt (st : AppState) : option AppState :=
  current ← images st !! qcIndex st;
  Some (setImages
          (<[qcIndex st := withPrompt (QC.originalPrompt current) current]> (images st)) st).

(** A run of [onChange] events, in order. *)
Fixpoint editPrompts (values : list string) (st : AppState) : option AppState :=
  match values with
  | [] => Some st
  | v :: later => st' ← editPrompt v st; editPrompts later st'
  end.

(** A run of image imports, in order. *)
Fixpoint importBatches (batches : list (list Picked)) (st : AppState) : AppState :=
  match batches with
  | [] => st
  | files :: later => importBatches later (handleImageUpload (Some files) st)
  end.

(** The state of the first render; [stored] is
    [localStorage.getItem('backend-url')]. *)
Definition initialState (stored : option string) : AppState :=
  {| currentView := dashboard; backendUrl := orElse stored "http://localhost:5000";
     images := []; promptData := []; qcIndex := 0; compareMode := false;
     outfitOverride := ∅; isRegenerating := false |}.

(* ================================================================== *)
(** * Sample data *)
(* ================================================================== *)

Definition sampleItem (i : Z) (nm : string) (p : string) (s : Status) : QCImage :=
  {| QC.id := i; QC.file := Some {| fileName := nm |}; QC.url := "blob:" +:+ nm;
     QC.oldUrl := None; QC.name := nm; QC.prompt := p; QC.originalPrompt := p;
     QC.status := s; QC.setting := None |}.

Definition samplePicked (nm : string) (t : Z) : Picked :=
  {| pickedFile := {| fileName := nm |}; objectUrl := "blob:" +:+ nm; now := t |}.

Definition sampleData : list PromptEntry :=
  [ {| outputAi := "A hides || Chap 1_2" |};
    {| outputAi := "B arrives || Chap_1_3" |} ].

(** Two items in review, the first one active. *)
Definition sampleState : AppState :=
  setImages [ sampleItem 1000 "scene_chap_1_2.png" "A hides" pending;
              sampleItem 1001 "unrelated.png" placeholder pending ]
    (setCurrentView qc (initialState None)).

(** The text of a dataset file with the two records of [sampleData];
    [dq] is the double quote. *)
Definition dq : string := String (ascii_of_nat 34) EmptyString.

Definition sampleText : string :=
  "[{" +:+ dq +:+ "outputAi" +:+ dq +:+ ":" +:+ dq +:+ "A hides || Chap 1_2" +:+ dq +:+ "},{"
       +:+ dq +:+ "outputAi" +:+ dq +:+ ":" +:+ dq +:+ "B arrives || Chap_1_3" +:+ dq +:+ "}]".

(** A stand-in for [JSON.parse] that reads the two well-formed texts
    above and refuses every other text; it agrees with [JSON.parse] on
    these two and on the cut-short text it is applied to below. *)
Definition sampleParse (text : string) : option (list PromptEntry) :=
  if bool_decide (text = "[]") then Some []
  else if bool_decide (text = sampleText) then Some sampleData
  else None.

(* ================================================================== *)
(** * Chapter identifiers *)
(* ================================================================== *)

(** Every code unit below 256. *)
Definition allAscii : list ascii := ascii_of_nat <$> seq 0 256.

(** A pattern character that the [i] flag compares through lower-casing:
    a lower-case ASCII letter, the underscore or the dot. *)
Definition plainChar (c : ascii) : bool :=
  between 97 122 (code c) || (code c =? 95) || (code c =? 46).

(** A lower-case ASCII letter; an ASCII letter of either case. *)
Definition lowerLetter (c : ascii) : bool := between 97 122 (code c).

Definition isLetter (x : ascii) : bool := lowerLetter (lowerChar x).

(** The image extensions of [extensionRe], with their dot. *)
Definition imageExtensions : list string := [".png"; ".jpg"; ".jpeg"; ".webp"].

Definition headIs (p : ascii → bool) (s : string) : bool :=
  match s with
  | String c _ => p c
  | EmptyString => false
  end.

(** A non-empty run of decimal digits. *)
Definition digits (s : string) : Prop :=
  allChars isDigit s = true ∧ s ≠ EmptyString.

(** The text [s] begins with an occurrence of the pattern of [chapRe]
    whose groups are [a] and [b]: the keyword in any case, a run of
    underscores and white space that may be empty, the digits [a], one
    underscore, and the digits [b] up to the first character that is not a
    digit. *)
Definition ChapAt (s a b : string) : Prop :=
  ∃ kw seps rest,
    s = kw +:+ seps +:+ a +:+ "_" +:+ b +:+ rest ∧
    toLowerCase kw = "chap" ∧
    allChars isSep seps = true ∧
    digits a ∧ digits b ∧
    headIs isDigit rest = false.

(** The pattern in the words of the specification: separators of any
    style (underscores and white space) also between the two integers. *)
Definition SpecChapAt (s a b : string) : Prop :=
  ∃ kw seps between rest,
    s = kw +:+ seps +:+ a +:+ between +:+ b +:+ rest ∧
    toLowerCase kw = "chap" ∧
    allChars isSep seps = true ∧
    allChars isSep between = true ∧ between ≠ EmptyString ∧
    digits a ∧ digits b ∧
    headIs isDigit rest = false.

(** The leftmost occurrence in [s] has the groups [a] and [b]. *)
Definition FirstChapAt (s a b : string) : Prop :=
  ∃ pre tail,
    s = pre +:+ tail ∧ ChapAt tail a b ∧
    ∀ pre' tail' a' b',
      s = pre' +:+ tail' → String.length pre' < String.length pre →
      ¬ ChapAt tail' a' b'.

(** No occurrence starts anywhere in [s]. *)
Definition NoChap (s : string) : Prop :=
  ∀ pre tail a b, s = pre +:+ tail → ¬ ChapAt tail a b.

(** The identifier that [matchPromptToImage] reads off a text: groups 1
    and 2 of the match of [chapRe]. *)
Definition chapterOf (s : string) : option (string * string) :=
  (λ m, (part 1 m, part 2 m)) <$> exec true chapRe s.

(** The identifier of an image, read off its cleaned name. *)
Definition imageChapter (imageName : string) : option (string * string) :=
  chapterOf (cleanImageName imageName).

(** The identifier and the prompt text of a record, as the loop obtains
    them: nothing without the delimiter, else from [parts[1]] and
    [parts[0]], trimmed. *)
Definition recordChapter (promptEntry : PromptEntry) : option (string * string) :=
  if includes (outputAi promptEntry) "||"
  then chapterOf (trim (part 1 (split "||" (outputAi promptEntry))))
  else None.

Definition recordPrompt (promptEntry : PromptEntry) : string :=
  trim (part 0 (split "||" (outputAi promptEntry))).

(** What the backtracking match of [chapRe] at the head of [s] amounts
    to: each repetition takes the longest run.  The result holds the two
    groups and the input left. *)
Definition chapHere (s : string) : option (string * string * string) :=
  s1 ← matchStr true "chap" s;
  let s2 := dropWhile isSep s1 in
  let a := takeWhile isDigit s2 in
  match dropWhile isDigit s2 with
  | String x s4 =>
      if bool_decide (x = "_"%char) then
        let b := takeWhile isDigit s4 in
        if isEmpty a || isEmpty b then None
        else Some (a, b, dropWhile isDigit s4)
      else None
  | EmptyString => None
  end.

(* ================================================================== *)
(** * The rest of the review screen *)
(* ================================================================== *)

Global Instance Status_eq_dec : EqDecision Status.
Proof. solve_decision. Defined.

Global Instance View_eq_dec : EqDecision View.
Proof. solve_decision. Defined.

(** The derived [stats] of [App]. *)
Module Stats.
Record t : Type := { total : nat; approved : nat; rejected : nat; pending : nat }.
End Stats.

(** [images.filter(i => i.status === s).length] *)
Definition countStatus (s : Status) (imgs : list QCImage) : nat :=
  length (filter (λ i, QC.status i = s) imgs).

Definition stats (st : AppState) : Stats.t :=
  {| Stats.total := length (images st);
     Stats.approved := countStatus approved (images st);
     Stats.rejected := countStatus rejected (images st);
     Stats.pending := countStatus pending (images st) |}.

(** The Download Approved button: 'Downloading n approved images...' or
    'No approved images to download.' *)
Inductive DownloadAlert : Type :=
| Downloading (n : nat)
| NoApprovedImages.

Definition downloadApproved (st : AppState) : DownloadAlert :=
  let approvedImages := filter (λ i, QC.status i = approved) (images st) in
  if bool_decide (length approvedImages = 0) then NoApprovedImages
  else Downloading (length approvedImages).

(** The item under review, [images[qcIndex]]. *)
Definition current (st : AppState) : option QCImage := images st !! qcIndex st.

(** The two arrows of the viewer:
    [setQcIndex(Math.max(0, qcIndex - 1))] and
    [setQcIndex(Math.min(images.length - 1, qcIndex + 1))].  They are on
    screen only when the current item exists, so that [images.length - 1]
    is not negative. *)
Definition previousImage (st : AppState) : option AppState :=
  _ ← current st;
  Some (setQcIndex (Nat.max 0 (qcIndex st - 1)) st).

Definition nextImage (st : AppState) : option AppState :=
  _ ← current st;
  Some (setQcIndex (Nat.min (length (images st) - 1) (qcIndex st + 1)) st).

(** The Approve button clicked [n] times in a row. *)
Fixpoint approveTimes (n : nat) (st : AppState) : option AppState :=
  match n with
  | O => Some st
  | S n' => st' ← approve st; approveTimes n' st'
  end.

(** The Compare button: [setCompareMode(!compareMode)]. *)
Definition toggleCompare (st : AppState) : AppState :=
  setCompareMode (negb (compareMode st)) st.

Definition setOutfitOverride (m : gmap string string) (st : AppState) : AppState :=
  {| currentView := currentView st; backendUrl := backendUrl st; images := images st;
     promptData := promptData st; qcIndex := qcIndex st;
     compareMode := compareMode st; outfitOverride := m;
     isRegenerating := isRegenerating st |}.

(** The [onChange] of an outfit select:
    [setOutfitOverride(p => ({...p, [char.name]: e.target.value}))]. *)
Definition chooseOutfit (name value : string) (st : AppState) : AppState :=
  setOutfitOverride (<[name := value]> (outfitOverride st)) st.

(** The values of the options of an outfit select. *)
Definition outfitOptions : list string :=
  ["default"; "patient"; "casual"; "formal"; "santai"].

(** The value an outfit select shows: [outfitOverride[char.name] || 'default']. *)
Definition shownOutfit (name : string) (st : AppState) : string :=
  orElse (outfitOverride st !! name) "default".

(** The roster that [handleRegenerate] builds for the request. *)
Definition regenerationRoster (st : AppState) (current : QCImage) : list Character :=
  charsWithOverride (outfitOverride st) (detectCharactersFromPrompt (QC.prompt current)).

Definition setBackendUrl (url : string) (st : AppState) : AppState :=
  {| currentView := currentView st; backendUrl := url; images := images st;
     promptData := promptData st; qcIndex := qcIndex st;
     compareMode := compareMode st; outfitOverride := outfitOverride st;
     isRegenerating := isRegenerating st |}.

(** The effect that follows every change of [backendUrl]:
    [localStorage.setItem('backend-url', backendUrl)]; the result is what
    [localStorage.getItem('backend-url')] returns from then on. *)
Definition storedBackendUrl (st : AppState) : option string := Some (backendUrl st).

(** The page loaded again: the first render reads the stored address. *)
Definition reload (st : AppState) : AppState := initialState (storedBackendUrl st).

(** The truth value of [current.oldUrl]. *)
Definition hasOldUrl (img : QCImage) : bool :=
  match truthy (QC.oldUrl img) with Some _ => true | None => false end.

(** Which controls are on screen.  [renderQC] shows the review screen when
    the current item exists and an empty screen with the two file inputs
    otherwise; the dashboard has the two file inputs as well. *)
Definition reviewShown (st : AppState) : bool :=
  bool_decide (currentView st = qc) && bool_decide (is_Some (current st)).

Definition importShown (st : AppState) : bool :=
  bool_decide (currentView st = dashboard)
  || (bool_decide (currentView st = qc) && negb (bool_decide (is_Some (current st)))).

(** What identifies the picture of an item: the fields that no handler
    assigns after the import. *)
Definition sameAsset (a b : QCImage) : Prop :=
  QC.id a = QC.id b ∧ QC.file a = QC.file b ∧ QC.name a = QC.name b ∧
  QC.url a = QC.url b ∧ QC.setting a = QC.setting b.

(** What the handlers keep true of every item of the ledger. *)
Definition itemKept (img : QCImage) : Prop :=
  (QC.oldUrl img = None ∨ QC.oldUrl img = Some (QC.url img)) ∧
  QC.originalPrompt img ≠ EmptyString ∧
  QC.setting img = None ∧
  QC.file img = Some {| fileName := QC.name img |}.

(* ================================================================== *)
(** * The page at run time: item objects and the awaited regeneration *)
(* ================================================================== *)

(** [handleRegenerate] awaits: other events are handled while it waits,
    and its continuation then works with the [images] array, the
    [qcIndex] and the [current] item of the render in which the button was
    clicked.  What that array holds by then depends on the item objects it
    shares with the arrays made since: the Approve and Reject buttons and
    the prompt area assign to a field of the object [updated[qcIndex]],
    which every array holding that object sees, while [handleJSONUpload]
    and the continuation itself put new objects in the array they make.
    The page below keeps the item objects apart from the arrays, which hold
    addresses; the address of an object is its rank among the objects
    created so far. *)

Module Closure.
(** The constants of [handleRegenerate] that its continuation reads. *)
Record t : Type := { images : list nat; qcIndex : nat; current : nat }.
End Closure.

Module Page.

Record t : Type := {
  objects : list QCImage;
  currentView : View;
  backendUrl : string;
  images : list nat;
  promptData : list PromptEntry;
  qcIndex : nat;
  compareMode : bool;
  outfitOverride : gmap string string;
  isRegenerating : bool;
  awaiting : option Closure.t
}.

Definition setObjects (objs : list QCImage) (p : t) : t :=
  {| objects := objs; currentView := currentView p; backendUrl := backendUrl p;
     images := images p; promptData := promptData p; qcIndex := qcIndex p;
     compareMode := compareMode p; outfitOverride := outfitOverride p;
     isRegenerating := isRegenerating p; awaiting := awaiting p |}.

Definition setCurrentView (v : View) (p : t) : t :=
  {| objects := objects p; currentView := v; backendUrl := backendUrl p;
     images := images p; promptData := promptData p; qcIndex := qcIndex p;
     compareMode := compareMode p; outfitOverride := outfitOverride p;
     isRegenerating := isRegenerating p; awaiting := awaiting p |}.

Definition setBackendUrl (url : string) (p : t) : t :=
  {| objects := objects p; currentView := currentView p; backendUrl := url;
     images := images p; promptData := promptData p; qcIndex := qcIndex p;
     compareMode := compareMode p; outfitOverride := outfitOverride p;
     isRegenerating := isRegenerating p; awaiting := awaiting p |}.

Definition setImages (imgs : list nat) (p : t) : t :=
  {| objects := objects p; currentView := currentView p; backendUrl := backendUrl p;
     images := imgs; promptData := promptData p; qcIndex := qcIndex p;
     compareMode := compareMode p; outfitOverride := outfitOverride p;
     isRegenerating := isRegenerating p; awaiting := awaiting p |}.

Definition setPromptData (data : list PromptEntry) (p : t) : t :=
  {| objects := objects p; currentView := currentView p; backendUrl := backendUrl p;
     images := images p; promptData := data; qcIndex := qcIndex p;
     compareMode := compareMode p; outfitOverride := outfitOverride p;
     isRegenerating := isRegenerating p; awaiting := awaiting p |}.

Definition setQcIndex (i : nat) (p : t) : t :=
  {| objects := objects p; currentView := currentView p; backendUrl := backendUrl p;
     images := images p; promptData := promptData p; qcIndex := i;
     compareMode := compareMode p; outfitOverride := outfitOverride p;
     isRegenerating := isRegenerating p; awaiting := awaiting p |}.

Definition setCompareMode (b : bool) (p : t) : t :=
  {| objects := objects p; currentView := currentView p; backendUrl := backendUrl p;
     images := images p; promptData := promptData p; qcIndex := qcIndex p;
     compareMode := b; outfitOverride := outfitOverride p;
     isRegenerating := isRegenerating p; awaiting := awaiting p |}.

Definition setOutfitOverride (m : gmap string string) (p : t) : t :=
  {| objects := objects p; currentView := currentView p; backendUrl := backendUrl p;
     images := images p; promptData := promptData p; qcIndex := qcIndex p;
     compareMode := compareMode p; outfitOverride := m;
     isRegenerating := isRegenerating p; awaiting := awaiting p |}.

Definition setIsRegenerating (b : bool) (p : t) : t :=
  {| objects := objects p; currentView := currentView p; backendUrl := backendUrl p;
     images := images p; promptData := promptData p; qcIndex := qcIndex p;
     compareMode := compareMode p; outfitOverride := outfitOverride p;
     isRegenerating := b; awaiting := awaiting p |}.

Definition setAwaiting (c : option Closure.t) (p : t) : t :=
  {| objects := objects p; currentView := currentView p; backendUrl := backendUrl p;
     images := images p; promptData := promptData p; qcIndex := qcIndex p;
     compareMode := compareMode p; outfitOverride := outfitOverride p;
     isRegenerating := isRegenerating p; awaiting := c |}.

(** The page of the first render; [stored] is
    [localStorage.getItem('backend-url')]. *)
Definition initial (stored : option string) : t :=
  {| objects := []; currentView := dashboard;
     backendUrl := orElse stored "http://localhost:5000";
     images := []; promptData := []; qcIndex := 0; compareMode := false;
     outfitOverride := ∅; isRegenerating := false; awaiting := None |}.

(** [images[qcIndex]]: the address of the item under review. *)
Definition current (p : t) : option nat := images p !! qcIndex p.

(** The item at a place of the ledger, read through its address. *)
Definition item (p : t) (i : nat) : option QCImage :=
  a ← images p !! i; objects p !! a.

(** [handleImageUpload]: one new object per file, appended to the array
    that [setImages] receives as [prev]. *)
Definition handleImageUpload (files : option (list Picked)) (p : t) : t :=
  match files with
  | None => p
  | Some files =>
      let newImages := imap (newImage (promptData p)) files in
      let added := seq (length (objects p)) (length newImages) in
      setCurrentView qc
        (setImages (images p ++ added) (setObjects (objects p ++ newImages) p))
  end.

(** [prev.map(img => newPrompt ? { ...img, ... } : img)]: an item with a
    match is copied into a new object, any other item stays the object it
    is.  The pair is the objects after the call and the array it
    returns. *)
Fixpoint rematchAll (data : list PromptEntry) (objs : list QCImage) (prev : list nat)
    : list QCImage * list nat :=
  match prev with
  | [] => (objs, [])
  | a :: later =>
      match objs !! a with
      | Some img =>
          match truthy (matchPromptToImage (QC.name img) data) with
          | Some _ =>
              let '(objs', mapped) := rematchAll data (objs ++ [rematch data img]) later in
              (objs', length objs :: mapped)
          | None =>
              let '(objs', mapped) := rematchAll data objs later in (objs', a :: mapped)
          end
      | None =>
          let '(objs', mapped) := rematchAll data objs later in (objs', a :: mapped)
      end
  end.

Section Dataset.

Variable JSON_parse : string → option (list PromptEntry).

(** The [reader.onload] of [handleJSONUpload] with the text of the file,
    or [None] when no file was chosen. *)
Definition handleJSONUpload (file : option string) (p : t) : t * list Alert :=
  match file with
  | None => (p, [])
  | Some text =>
      match JSON_parse text with
      | Some data =>
          let '(objs, mapped) := rematchAll data (objects p) (images p) in
          (setImages mapped (setObjects objs (setPromptData data p)),
           [Loaded (length data)])
      | None => (p, [InvalidJson])
      end
  end.

End Dataset.

(** [handleRegenerate] from the click to its [await]. *)
Definition handleRegenerate (p : t) : t :=
  match images p !! qcIndex p with
  | None => p
  | Some current =>
      if isEmpty (backendUrl p) then p
      else
        setAwaiting
          (Some {| Closure.images := images p; Closure.qcIndex := qcIndex p;
                   Closure.current := current |})
          (setIsRegenerating true p)
  end.

(** [handleRegenerate] from the [await] to the end of its [finally]
    block: [None] when no call awaits.  The spread [{ ...current, ... }]
    reads the object [current] as it is by then. *)
Definition resume (awaited : Settled) (p : t) : option (t * list Alert) :=
  c ← awaiting p;
  match awaited with
  | Resolved =>
      current ← objects p !! Closure.current c;
      let newUrl := QC.url current in
      let updated := <[Closure.qcIndex c := length (objects p)]> (Closure.images c) in
      Some (setAwaiting None
              (setIsRegenerating false
                 (setCompareMode true
                    (setImages updated
                       (setObjects (objects p ++ [regenerated newUrl current]) p)))),
            [])
  | Rejected =>
      Some (setAwaiting None (setIsRegenerating false p), [RegenerationFailed])
  end.

(** A thumbnail of the queue. *)
Definition selectImage (idx : nat) (p : t) : t :=
  setCompareMode false (setQcIndex idx p).

(** The Approve and Reject buttons: [updated[qcIndex].status = ...]
    assigns to the object, [setImages(updated)] gives a new array of the
    same objects. *)
Definition decideItem (s : Status) (p : t) : option t :=
  a ← images p !! qcIndex p;
  let p1 := setObjects (alter (withStatus s) a (objects p)) p in
  Some (if qcIndex p <? length (images p) - 1
        then setQcIndex (qcIndex p + 1) p1 else p1).

Definition approve (p : t) : option t := decideItem approved p.

Definition reject (p : t) : option t := decideItem rejected p.

(** The [onChange] of the prompt text area. *)
Definition editPrompt (value : string) (p : t) : option t :=
  a ← images p !! qcIndex p;
  Some (setObjects (alter (withPrompt value) a (objects p)) p).

(** The Reset Prompt button: [current] is the object [updated[qcIndex]]. *)
Definition resetPrompt (p : t) : option t :=
  a ← images p !! qcIndex p;
  Some (setObjects
          (alter (λ img, withPrompt (QC.originalPrompt img) img) a (objects p)) p).

(** The two arrows of the viewer. *)
Definition previousImage (p : t) : option t :=
  _ ← current p;
  Some (setQcIndex (Nat.max 0 (qcIndex p - 1)) p).

Definition nextImage (p : t) : option t :=
  _ ← current p;
  Some (setQcIndex (Nat.min (length (images p) - 1) (qcIndex p + 1)) p).

(** The Compare button and an outfit select. *)
Definition toggleCompare (p : t) : t := setCompareMode (negb (compareMode p)) p.

Definition chooseOutfit (name value : string) (p : t) : t :=
  setOutfitOverride (<[name := value]> (outfitOverride p)) p.

(** Which controls are on screen: [renderQC] shows the review screen when
    [images[qcIndex]] is an item and the empty screen with the two file
    inputs otherwise; the dashboard has the two file inputs as well. *)
Definition reviewShown (p : t) : bool :=
  bool_decide (currentView p = qc) && bool_decide (is_Some (current p)).

Definition importShown (p : t) : bool :=
  bool_decide (currentView p = dashboard)
  || (bool_decide (currentView p = qc) && negb (bool_decide (is_Some (current p)))).

End Page.

(** What a render shows of the page: the state of [App] with every item
    read through its address. *)
Definition rendered (p : Page.t) : AppState :=
  {| currentView := Page.currentView p; backendUrl := Page.backendUrl p;
     images := omap (λ a, Page.objects p !! a) (Page.images p);
     promptData := Page.promptData p; qcIndex := Page.qcIndex p;
     compareMode := Page.compareMode p; outfitOverride := Page.outfitOverride p;
     isRegenerating := Page.isRegenerating p |}.

(** The events of a session.  [JSONRead] is the [onload] of the reader
    that [handleJSONUpload] starts: it comes some time after the file was
    chosen, whatever is on screen by then (the first screen has the file
    input).  [RegenerateClick] is the click on the Regenerate button and
    [RegenerationSettles] the end of the wait of [handleRegenerate]; the
    call awaited by the demonstration code always resolves, and [Rejected]
    is the end of the call it stands for. *)
Inductive Event : Type :=
| ImageUpload (files : option (list Picked))
| JSONRead (text : string)
| RegenerateClick
| RegenerationSettles (awaited : Settled)
| SelectImage (idx : nat)
| Previous
| Next
| Approve
| Reject
| EditPrompt (value : string)
| ResetPrompt
| ToggleCompare
| ChooseOutfit (name value : string)
| DownloadApproved
| SetView (v : View)
| SetBackendUrl (url : string).

(** Whether an event is the end of a wait. *)
Definition settles (ev : Event) : bool :=
  match ev with RegenerationSettles _ => true | _ => false end.

Section Session.

Variable JSON_parse : string → option (list PromptEntry).

(** The page after an event; [None] when the control of the event is not
    on screen or is disabled, when no call awaits, or when the handler
    throws. *)
Definition step (ev : Event) (p : Page.t) : option Page.t :=
  match ev with
  | ImageUpload files =>
      if Page.importShown p then Some (Page.handleImageUpload files p) else None
  | JSONRead text => Some (Page.handleJSONUpload JSON_parse (Some text) p).1
  | RegenerateClick =>
      if Page.reviewShown p && negb (Page.isRegenerating p)
      then Some (Page.handleRegenerate p) else None
  | RegenerationSettles awaited => fst <$> Page.resume awaited p
  | SelectImage idx =>
      if Page.reviewShown p && bool_decide (idx < length (Page.images p))
      then Some (Page.selectImage idx p) else None
  | Previous =>
      if Page.reviewShown p && negb (bool_decide (Page.qcIndex p = 0))
      then Page.previousImage p else None
  | Next =>
      if Page.reviewShown p
         && negb (bool_decide (Page.qcIndex p = length (Page.images p) - 1))
      then Page.nextImage p else None
  | Approve => if Page.reviewShown p then Page.approve p else None
  | Reject => if Page.reviewShown p then Page.reject p else None
  | EditPrompt value => if Page.reviewShown p then Page.editPrompt value p else None
  | ResetPrompt => if Page.reviewShown p then Page.resetPrompt p else None
  | ToggleCompare =>
      img ← Page.item p (Page.qcIndex p);
      if Page.reviewShown p && hasOldUrl img then Some (Page.toggleCompare p) else None
  | ChooseOutfit name value =>
      img ← Page.item p (Page.qcIndex p);
      if Page.reviewShown p
         && bool_decide (name ∈ namesOf (detectCharactersFromPrompt (QC.prompt img)))
         && bool_decide (value ∈ outfitOptions)
      then Some (Page.chooseOutfit name value p) else None
  | DownloadApproved => if Page.reviewShown p then Some p else None
  | SetView v => Some (Page.setCurrentView v p)
  | SetBackendUrl url => Some (Page.setBackendUrl url p)
  end.

(** The pages of a session: the first render, for any content of the
    local storage, and what the events lead to from it. *)
Inductive Reachable : Page.t → Prop :=
| reach_init (stored : option string) : Reachable (Page.initial stored)
| reach_step (ev : Event) (p p' : Page.t) :
    Reachable p → step ev p = Some p' → Reachable p'.

(** A run of events from a page. *)
Fixpoint run (evs : list Event) (p : Page.t) : option Page.t :=
  match evs with
  | [] => Some p
  | ev :: later => p' ← step ev p; run later p'
  end.

End Session.

(** The active index is on an item, or is 0 on an empty ledger. *)
Definition onItem (p : Page.t) : Prop :=
  (Page.images p = [] ∧ Page.qcIndex p = 0) ∨ Page.qcIndex p < length (Page.images p).

(** What holds of the addresses of every page of a session. *)
Record Sound (p : Page.t) : Prop := {
  sound_images : ∀ a, a ∈ Page.images p → a < length (Page.objects p);
  sound_distinct : NoDup (Page.images p);
  sound_objects : Forall itemKept (Page.objects p);
  sound_awaiting : ∀ c, Page.awaiting p = Some c →
    Page.isRegenerating p = true ∧
    Closure.images c !! Closure.qcIndex c = Some (Closure.current c) ∧
    NoDup (Closure.images c) ∧
    ∀ a, a ∈ Closure.images c → a < length (Page.objects p)
}.

(** A session with two pictures imported from the dashboard. *)
Definition samplePage : Page.t :=
  Page.handleImageUpload
    (Some [samplePicked "scene_chap_1_2.png" 1000; samplePicked "unrelated.png" 1000])
    (Page.initial None).

(** Events during a wait: the dataset is read, the first item is approved
    and a third picture is imported from the dashboard. *)
Definition sampleWait : list Event :=
  [ JSONRead sampleText; Approve; SetView dashboard;
    ImageUpload (Some [samplePicked "late_chap_1_3.png" 2000]) ].

(* ================================================================== *)
(** * Scene analyser *)
(* ================================================================== *)

Section SceneAnalyser.

Lemma includes_empty (w : string) :
  w ≠ EmptyString → includes EmptyString w = false.
Proof. by destruct w. Qed.

(** C8.  A prompt whose lower-cased text contains both "vip" and
    "hospital" is given the VIP hospital setting, never the regular
    hospital one: the "vip" test comes first. *)
Theorem detectSetting_vip_precedes_hospital (prompt : string) :
  includes (toLowerCase prompt) "vip" = true →
  includes (toLowerCase prompt) "hospital" = true →
  detectSettingFromPrompt prompt = "hospital_vip" ∧
  detectSettingFromPrompt prompt ≠ "hospital_regular".
Proof.
  intros Hvip _. unfold detectSettingFromPrompt.
  destruct prompt as [|c prompt]; [discriminate Hvip|].
  cbn [isEmpty]. by rewrite Hvip.
Qed.

Lemma detectSetting_vip_precedes_hospital_witness :
  includes (toLowerCase "Hospital ward, VIP suite") "vip" = true ∧
  includes (toLowerCase "Hospital ward, VIP suite") "hospital" = true ∧
  detectSettingFromPrompt "Hospital ward, VIP suite" = "hospital_vip".
Proof.
  split; [reflexivity|]. split; [reflexivity|].
  apply (detectSetting_vip_precedes_hospital "Hospital ward, VIP suite");
    reflexivity.
Defined.

Local Ltac roster_cases p :=
  destruct (includes p "mc"), (includes p "raka"),
           (includes p "alina"), (includes p "aruna").

Lemma detectCharacters_sublist (prompt : string) :
  namesOf (detectCharactersFromPrompt prompt) `sublist_of` roster.
Proof.
  unfold detectCharactersFromPrompt, roster, namesOf.
  destruct (isEmpty prompt).
  - cbn. repeat constructor.
  - roster_cases (toLowerCase prompt); cbn;
      repeat first [apply sublist_nil | apply sublist_skip | apply sublist_cons].
Qed.

Lemma roster_NoDup : NoDup roster.
Proof. unfold roster. compute_done. Qed.

Lemma detectCharacters_present (prompt : string) :
  ("MC" ∈ namesOf (detectCharactersFromPrompt prompt)
     ↔ includes (toLowerCase prompt) "mc" = true) ∧
  ("Raka" ∈ namesOf (detectCharactersFromPrompt prompt)
     ↔ includes (toLowerCase prompt) "raka" = true) ∧
  ("Alina" ∈ namesOf (detectCharactersFromPrompt prompt)
     ↔ includes (toLowerCase prompt) "alina" = true) ∧
  ("Aruna" ∈ namesOf (detectCharactersFromPrompt prompt)
     ↔ includes (toLowerCase prompt) "aruna" = true).
Proof.
  unfold detectCharactersFromPrompt, namesOf.
  destruct prompt as [|c prompt].
  - cbn. repeat split; first [by intros ?%elem_of_nil | discriminate].
  - cbn [isEmpty]. roster_cases (toLowerCase (String c prompt)); cbn;
      repeat split; intros H; try done; try compute_done;
      exfalso; revert H; compute_done.
Qed.

Lemma detectCharacters_outfits (prompt : string) (c : Character) :
  c ∈ detectCharactersFromPrompt prompt →
  (Char.name c = "Aruna" ∧ Char.outfit c = "default") ∨
  (Char.name c ≠ "Aruna" ∧ Char.outfit c = detectOutfit (toLowerCase prompt)).
Proof.
  unfold detectCharactersFromPrompt.
  destruct (isEmpty prompt); [by intros ?%elem_of_nil|].
  roster_cases (toLowerCase prompt); cbn;
    rewrite ?elem_of_cons, ?elem_of_nil; intros H;
    repeat (destruct H as [-> | H]); try done; cbn; auto.
Qed.

(** C7.  The characters found in a prompt come in the fixed order MC,
    Raka, Alina, Aruna, each at most once, whatever the order and the
    number of occurrences of the names in the text; a name is listed
    exactly when its lower-case form occurs in the lower-cased text;
    Aruna always has outfit "default" and the others the detected
    outfit; a text with none of the names gives the empty list. *)
Theorem detectCharacters_fixed_order (prompt : string) :
  namesOf (detectCharactersFromPrompt prompt) `sublist_of` roster ∧
  NoDup (namesOf (detectCharactersFromPrompt prompt)) ∧
  (("MC" ∈ namesOf (detectCharactersFromPrompt prompt)
      ↔ includes (toLowerCase prompt) "mc" = true) ∧
   ("Raka" ∈ namesOf (detectCharactersFromPrompt prompt)
      ↔ includes (toLowerCase prompt) "raka" = true) ∧
   ("Alina" ∈ namesOf (detectCharactersFromPrompt prompt)
      ↔ includes (toLowerCase prompt) "alina" = true) ∧
   ("Aruna" ∈ namesOf (detectCharactersFromPrompt prompt)
      ↔ includes (toLowerCase prompt) "aruna" = true)) ∧
  (∀ c, c ∈ detectCharactersFromPrompt prompt →
     (Char.name c = "Aruna" ∧ Char.outfit c = "default") ∨
     (Char.name c ≠ "Aruna" ∧
      Char.outfit c = detectOutfit (toLowerCase prompt))) ∧
  (includes (toLowerCase prompt) "mc" = false →
   includes (toLowerCase prompt) "raka" = false →
   includes (toLowerCase prompt) "alina" = false →
   includes (toLowerCase prompt) "aruna" = false →
   detectCharactersFromPrompt prompt = []) ∧
  detectCharactersFromPrompt "MC and Raka in formal" =
    [ {| Char.name := "MC"; Char.outfit := "formal" |};
      {| Char.name := "Raka"; Char.outfit := "formal" |} ] ∧
  detectCharactersFromPrompt "Raka, then MC and Raka again, in formal" =
    detectCharactersFromPrompt "MC and Raka in formal".
Proof.
  split; [apply detectCharacters_sublist|].
  split.
  { eapply sublist_NoDup; [apply roster_NoDup | apply detectCharacters_sublist]. }
  split; [apply detectCharacters_present|].
  split; [apply detectCharacters_outfits|].
  split; [|split; reflexivity].
  intros H1 H2 H3 H4. unfold detectCharactersFromPrompt.
  rewrite H1, H2, H3, H4. by destruct (isEmpty prompt).
Qed.

Lemma detectCharacters_fixed_order_witness :
  detectCharactersFromPrompt "a quiet street at dusk" = [] ∧
  Char.outfit <$> detectCharactersFromPrompt "Aruna (formal) visits Alina" =
    ["formal"; "default"].
Proof.
  split.
  - apply (detectCharacters_fixed_order "a quiet street at dusk"); reflexivity.
  - reflexivity.
Defined.

End SceneAnalyser.

(* ================================================================== *)
(** * Review ledger *)
(* ================================================================== *)

Section Ledger.

Implicit Types (st : AppState) (img current : QCImage).

Lemma current_in_range st current :
  images st !! qcIndex st = Some current → qcIndex st < length (images st).
Proof. apply lookup_lt_Some. Qed.

Lemma setImages_same st imgs : setImages imgs (setImages imgs st) = setImages imgs st.
Proof. reflexivity. Qed.

Lemma withPrompt_current img : withPrompt (QC.prompt img) img = img.
Proof. by destruct img. Qed.

Lemma setImages_id st : setImages (images st) st = st.
Proof. by destruct st. Qed.

Lemma approve_images st current :
  images st !! qcIndex st = Some current →
  ∃ st1, approve st = Some st1 ∧
    images st1 = <[qcIndex st := withStatus approved current]> (images st) ∧
    qcIndex st1 = (if qcIndex st <? length (images st) - 1
                   then qcIndex st + 1 else qcIndex st).
Proof.
  intros Hcur. unfold approve. rewrite Hcur. cbn -[Nat.ltb Nat.sub].
  eexists. split; [reflexivity|].
  by destruct (qcIndex st <? length (images st) - 1).
Qed.

(** C3 (as amended).  Approving the item that was just approved, after
    selecting it again, leaves the ledger as the first approval left it,
    with the item approved; the rule that moves the active index is the
    same for both calls: each moves it to the next item when there is
    one, whatever the status of the item was.  When the item is the last
    one neither call moves the index and the second call changes
    nothing at all. *)
Theorem approve_twice_same_item st current :
  images st !! qcIndex st = Some current →
  ∃ st1 st2,
    approve st = Some st1 ∧
    approve (selectImage (qcIndex st) st1) = Some st2 ∧
    images st1 = <[qcIndex st := withStatus approved current]> (images st) ∧
    images st2 = images st1 ∧
    QC.status <$> (images st2 !! qcIndex st) = Some approved ∧
    qcIndex st1 = (if qcIndex st <? length (images st) - 1
                   then qcIndex st + 1 else qcIndex st) ∧
    qcIndex st2 = qcIndex st1 ∧
    (qcIndex st = length (images st) - 1 → approve st1 = Some st1).
Proof.
  intros Hcur. pose proof (current_in_range _ _ Hcur) as Hlt.
  destruct (approve_images st current Hcur) as (st1 & Hst1 & Himg1 & Hidx1).
  assert (images st1 !! qcIndex st = Some (withStatus approved current)) as Hcur1.
  { rewrite Himg1. by apply list_lookup_insert_eq. }
  assert (images (selectImage (qcIndex st) st1) !! qcIndex (selectImage (qcIndex st) st1)
          = Some (withStatus approved current)) as Hsel by done.
  destruct (approve_images _ _ Hsel) as (st2 & Hst2 & Himg2 & Hidx2).
  cbn in Himg2, Hidx2.
  assert (images st2 = images st1) as Hsame.
  { rewrite Himg2, Himg1. by rewrite list_insert_insert_eq. }
  exists st1, st2. repeat split; try done.
  - rewrite Hsame, Hcur1. done.
  - rewrite Hidx2, Hidx1, Himg1, length_insert. done.
  - intros Hlast.
    assert ((qcIndex st <? length (images st) - 1) = false) as Hno
      by (apply Nat.ltb_ge; lia).
    revert Hst1. unfold approve. rewrite Hcur. cbn -[Nat.ltb Nat.sub].
    rewrite Hno. intros [= <-]. cbn -[Nat.ltb Nat.sub].
    rewrite list_lookup_insert_eq by done. cbn -[Nat.ltb Nat.sub].
    by rewrite length_insert, list_insert_insert_eq, Hno.
Qed.

Lemma approve_twice_same_item_witness :
  ∃ st1 st2,
    approve sampleState = Some st1 ∧
    approve (selectImage 0 st1) = Some st2 ∧
    images st2 = images st1.
Proof.
  destruct (approve_twice_same_item sampleState
              (sampleItem 1000 "scene_chap_1_2.png" "A hides" pending)
              eq_refl)
    as (st1 & st2 & H1 & H2 & _ & H4 & _).
  by exists st1, st2.
Defined.

(** C3, the claim as stated fails: with two items in review, the first
    approval of item 0 moves the active index to 1, and so does a second
    approval of item 0 after it has been selected again. *)
Lemma approve_second_call_advances_too :
  ∃ st1 st2,
    approve sampleState = Some st1 ∧ qcIndex sampleState = 0 ∧ qcIndex st1 = 1 ∧
    approve (selectImage 0 st1) = Some st2 ∧
    QC.status <$> (images (selectImage 0 st1) !! 0) = Some approved ∧
    qcIndex (selectImage 0 st1) = 0 ∧ qcIndex st2 = 1.
Proof. eexists _, _. repeat split; reflexivity. Qed.

Lemma editPrompt_images st current v :
  images st !! qcIndex st = Some current →
  editPrompt v st = Some (setImages (<[qcIndex st := withPrompt v current]> (images st)) st).
Proof. intros Hcur. unfold editPrompt. by rewrite Hcur. Qed.

(** The prompt left by a run of edits: the last value typed, or the
    prompt before the run when nothing was typed. *)
Lemma editPrompts_images values st current :
  images st !! qcIndex st = Some current →
  editPrompts values st =
    Some (setImages
            (<[qcIndex st := withPrompt (default (QC.prompt current) (last values)) current]>
               (images st)) st).
Proof.
  revert st current. induction values as [|v values IH]; intros st current Hcur.
  - cbn. by rewrite withPrompt_current, list_insert_id, setImages_id.
  - pose proof (current_in_range _ _ Hcur) as Hlt.
    cbn [editPrompts]. rewrite (editPrompt_images _ current) by done. cbn [mbind option_bind].
    rewrite (IH _ (withPrompt v current)) by (by apply list_lookup_insert_eq).
    cbn [images qcIndex setImages]. rewrite list_insert_insert_eq.
    destruct values as [|v' values]; [done|].
    rewrite last_cons_cons.
    destruct (last (v' :: values)) as [x|] eqn:Hlast; [done|].
    by apply last_None in Hlast.
Qed.

(** C6.  After any run of edits of the prompt of the current item, the
    Reset Prompt button puts back exactly the [originalPrompt] the item
    had before the run, and leaves every other field of the item and
    every other item as they were; an edit changes the [prompt] field
    only, so neither [status] nor [originalPrompt]. *)
Theorem resetPrompt_after_edits st current values :
  images st !! qcIndex st = Some current →
  ∃ st' edited,
    editPrompts values st = Some st' ∧
    qcIndex st' = qcIndex st ∧
    images st' !! qcIndex st = Some edited ∧
    QC.status edited = QC.status current ∧
    QC.originalPrompt edited = QC.originalPrompt current ∧
    (∀ j, j ≠ qcIndex st → images st' !! j = images st !! j) ∧
    resetPrompt st' =
      Some (setImages
              (<[qcIndex st := withPrompt (QC.originalPrompt current) current]> (images st))
              st) ∧
    QC.prompt (withPrompt (QC.originalPrompt current) current) = QC.originalPrompt current.
Proof.
  intros Hcur. pose proof (current_in_range _ _ Hcur) as Hlt.
  eexists _, _. split; [by apply editPrompts_images|].
  cbn [images qcIndex setImages].
  split; [done|]. split; [by apply list_lookup_insert_eq|].
  split; [done|]. split; [done|].
  split; [by intros j Hj; apply list_lookup_insert_ne|].
  split; [|done].
  unfold resetPrompt. cbn [images qcIndex setImages].
  rewrite list_lookup_insert_eq by done. cbn [mbind option_bind].
  by rewrite list_insert_insert_eq.
Qed.

Lemma resetPrompt_after_edits_witness :
  ∃ st', editPrompts ["A hid"; "A hides behind"; ""] sampleState = Some st' ∧
    QC.prompt <$> (images st' !! 0) = Some "" ∧
    (st'' ← resetPrompt st'; QC.prompt <$> (images st'' !! 0)) = Some "A hides".
Proof.
  destruct (resetPrompt_after_edits sampleState
              (sampleItem 1000 "scene_chap_1_2.png" "A hides" pending)
              ["A hid"; "A hides behind"; ""] eq_refl)
    as (st' & edited & Hrun & _ & _ & _ & _ & _ & Hreset & _).
  exists st'. split; [exact Hrun|].
  rewrite Hreset. change (editPrompts ["A hid"; "A hides behind"; ""] sampleState)
    with (Some (setImages
                  (<[0 := withPrompt "" (sampleItem 1000 "scene_chap_1_2.png" "A hides" pending)]>
                     (images sampleState)) sampleState)) in Hrun.
  injection Hrun as <-. split; reflexivity.
Defined.

Lemma handleRegenerate_resolved st current :
  images st !! qcIndex st = Some current → backendUrl st ≠ EmptyString →
  handleRegenerate Resolved st =
    (setIsRegenerating false
       (setCompareMode true
          (setImages (<[qcIndex st := regenerated (QC.url current) current]> (images st)) st)),
     []).
Proof.
  intros Hcur Hurl. unfold handleRegenerate. rewrite Hcur.
  by destruct (backendUrl st).
Qed.

Lemma handleRegenerate_rejected st current :
  images st !! qcIndex st = Some current → backendUrl st ≠ EmptyString →
  handleRegenerate Rejected st = (setIsRegenerating false st, [RegenerationFailed]).
Proof.
  intros Hcur Hurl. unfold handleRegenerate. rewrite Hcur.
  by destruct (backendUrl st).
Qed.

(** C4.  A regeneration that succeeds writes, in place of the current
    item (whatever its status), an item whose [oldUrl] is the [url] it
    had, whose [url] is the new locator (in this code the locator it
    already had), whose status is [pending], and that is otherwise the
    same; the other items are untouched.  A regeneration that fails
    reports the failure and leaves every item as it was, also when it
    follows a successful one. *)
Theorem regenerate_success_then_failure st current :
  images st !! qcIndex st = Some current → backendUrl st ≠ EmptyString →
  ∃ st1,
    handleRegenerate Resolved st = (st1, []) ∧
    qcIndex st1 = qcIndex st ∧
    images st1 !! qcIndex st = Some (regenerated (QC.url current) current) ∧
    (∀ j, j ≠ qcIndex st → images st1 !! j = images st !! j) ∧
    (∀ newUrl,
       QC.oldUrl (regenerated newUrl current) = Some (QC.url current) ∧
       QC.url (regenerated newUrl current) = newUrl ∧
       QC.status (regenerated newUrl current) = pending ∧
       QC.id (regenerated newUrl current) = QC.id current ∧
       QC.file (regenerated newUrl current) = QC.file current ∧
       QC.name (regenerated newUrl current) = QC.name current ∧
       QC.prompt (regenerated newUrl current) = QC.prompt current ∧
       QC.originalPrompt (regenerated newUrl current) = QC.originalPrompt current ∧
       QC.setting (regenerated newUrl current) = QC.setting current) ∧
    handleRegenerate Rejected st = (setIsRegenerating false st, [RegenerationFailed]) ∧
    images (handleRegenerate Rejected st).1 = images st ∧
    handleRegenerate Rejected st1 = (st1, [RegenerationFailed]).
Proof.
  intros Hcur Hurl. pose proof (current_in_range _ _ Hcur) as Hlt.
  eexists. split; [by apply handleRegenerate_resolved|].
  cbn [images qcIndex setImages setCompareMode setIsRegenerating].
  split; [done|].
  split; [by apply list_lookup_insert_eq|].
  split; [by intros j Hj; apply list_lookup_insert_ne|].
  split; [done|].
  rewrite (handleRegenerate_rejected st current) by done.
  split; [done|]. split; [done|].
  erewrite handleRegenerate_rejected; [done| |done].
  by apply list_lookup_insert_eq.
Qed.

Lemma regenerate_success_then_failure_witness :
  ∃ st1,
    handleRegenerate Resolved (setImages [sampleItem 7 "chap_1_2.png" "A hides" approved]
                                 (initialState None)) = (st1, []) ∧
    QC.status <$> (images st1 !! 0) = Some pending ∧
    QC.oldUrl <$> (images st1 !! 0) = Some (Some "blob:chap_1_2.png") ∧
    handleRegenerate Rejected st1 = (st1, [RegenerationFailed]).
Proof.
  destruct (regenerate_success_then_failure
              (setImages [sampleItem 7 "chap_1_2.png" "A hides" approved] (initialState None))
              (sampleItem 7 "chap_1_2.png" "A hides" approved) eq_refl)
    as (st1 & Hok & _ & Hitem & _ & _ & _ & _ & Hfail); [done|].
  exists st1. split; [exact Hok|].
  change (qcIndex (setImages [sampleItem 7 "chap_1_2.png" "A hides" approved]
                     (initialState None))) with 0 in Hitem.
  rewrite Hitem. done.
Defined.

(** The window in which ids collide: a batch whose files are all read at
    clock [t1] takes the ids [t1 .. t1 + n - 1]; a later import whose
    first file is read at a clock in that range repeats one of them. *)
Lemma import_ids_collide_in_window st files1 f2 files2 (t1 : Z) :
  (∀ f, f ∈ files1 → now f = t1) →
  (t1 ≤ now f2 < t1 + Z.of_nat (length files1))%Z →
  ¬ NoDup (QC.id <$> images (handleImageUpload (Some (f2 :: files2))
                               (handleImageUpload (Some files1) st))).
Proof.
  intros Hclock Hwindow Hnodup.
  cbn [handleImageUpload images promptData setImages setCurrentView] in Hnodup.
  set (k := Z.to_nat (now f2 - t1)).
  assert (k < length files1) as Hk by lia.
  destruct (lookup_lt_is_Some_2 files1 k Hk) as [f Hf].
  set (ids := QC.id <$> _) in Hnodup.
  assert (ids !! (length (images st) + k) = Some (now f2)) as H1.
  { unfold ids. rewrite list_lookup_fmap, <- (assoc_L (++)), lookup_app_r by lia.
    replace (length (images st) + k - length (images st)) with k by lia.
    rewrite lookup_app_l by (rewrite length_imap; lia).
    rewrite list_lookup_imap, Hf. cbn.
    rewrite (Hclock f) by (by eapply list_elem_of_lookup_2). f_equal. lia. }
  assert (ids !! (length (images st) + length files1) = Some (now f2)) as H2.
  { unfold ids. rewrite list_lookup_fmap, lookup_app_r
      by (rewrite length_app, length_imap; lia).
    rewrite length_app, length_imap, Nat.sub_diag. cbn. f_equal. lia. }
  pose proof (NoDup_lookup _ _ _ _ Hnodup H1 H2). lia.
Qed.

(** C9, a run that breaks the property: two files imported together
    when the clock reads 1000 get the ids 1000 and 1001; a third file
    imported when the clock reads 1001 gets the id 1001 again. *)
Theorem import_ids_collide :
  QC.id <$> images (importBatches
                      [ [samplePicked "scene_chap_1_2.png" 1000;
                         samplePicked "scene_chap_1_3.png" 1000];
                        [samplePicked "unrelated.png" 1001] ]
                      (initialState None))
    = [1000; 1001; 1001]%Z ∧
  ¬ NoDup (QC.id <$> images (importBatches
                      [ [samplePicked "scene_chap_1_2.png" 1000;
                         samplePicked "scene_chap_1_3.png" 1000];
                        [samplePicked "unrelated.png" 1001] ]
                      (initialState None))).
Proof.
  split; [reflexivity|].
  change (¬ NoDup [1000; 1001; 1001]%Z).
  rewrite !NoDup_cons. intros (_ & Hdup & _). apply Hdup. left.
Qed.

End Ledger.

(* ================================================================== *)
(** * Loading a prompt dataset *)
(* ================================================================== *)

Section DatasetLoad.

Variable JSON_parse : string → option (list PromptEntry).

(** C5.  When the text of the chosen file is not JSON, the load is
    refused with the message 'Invalid JSON file.' and the state after
    the event is the state before it: the prompt dataset and every item
    are what they were. *)
Theorem malformed_dataset_rejected (text : string) (st : AppState) :
  JSON_parse text = None →
  handleJSONUpload JSON_parse (Some text) st = (st, [InvalidJson]).
Proof. intros Hbad. unfold handleJSONUpload. by rewrite Hbad. Qed.

(** C10.  In the pass that follows the load of a dataset, an item
    whose file name has no match in the new dataset keeps its place and
    all its fields: prompt (edited or not), originalPrompt, status and
    locators. *)
Theorem rematch_miss_keeps_item (text : string) (data : list PromptEntry)
    (st : AppState) (i : nat) (img : QCImage) :
  JSON_parse text = Some data →
  images st !! i = Some img →
  matchPromptToImage (QC.name img) data = None →
  images (handleJSONUpload JSON_parse (Some text) st).1 !! i = Some img ∧
  length (images (handleJSONUpload JSON_parse (Some text) st).1) = length (images st).
Proof.
  intros Hok Himg Hmiss. unfold handleJSONUpload. rewrite Hok.
  cbn [fst images setImages setPromptData].
  rewrite list_lookup_fmap, Himg, length_fmap. cbn.
  unfold rematch. by rewrite Hmiss.
Qed.

End DatasetLoad.

Lemma malformed_dataset_rejected_witness :
  sampleParse "{ outputAi: " = None ∧
  handleJSONUpload sampleParse (Some "{ outputAi: ") sampleState
    = (sampleState, [InvalidJson]).
Proof.
  split; [reflexivity|].
  by apply (malformed_dataset_rejected sampleParse "{ outputAi: " sampleState).
Defined.

Lemma rematch_miss_keeps_item_witness :
  images (handleJSONUpload sampleParse (Some sampleText) sampleState).1 !! 1
    = Some (sampleItem 1001 "unrelated.png" placeholder pending) ∧
  QC.prompt <$> (images (handleJSONUpload sampleParse (Some sampleText) sampleState).1 !! 0)
    = Some "A hides".
Proof.
  split; [|reflexivity].
  apply (rematch_miss_keeps_item sampleParse sampleText sampleData sampleState 1);
    reflexivity.
Defined.

(* ================================================================== *)
(** * Facts about texts *)
(* ================================================================== *)

Section TextFacts.

Implicit Types (s t w : string) (p : ascii → bool).

Lemma sapp_cons c s t : String c s +:+ t = String c (s +:+ t).
Proof. reflexivity. Qed.

Lemma sapp_nil_l t : EmptyString +:+ t = t.
Proof. reflexivity. Qed.

Lemma sapp_assoc s t w : (s +:+ t) +:+ w = s +:+ t +:+ w.
Proof. induction s as [|c s IH]; [done|]. by rewrite !sapp_cons, IH. Qed.

Lemma sapp_nil_r s : s +:+ EmptyString = s.
Proof. induction s as [|c s IH]; [done|]. by rewrite sapp_cons, IH. Qed.

Lemma length_sapp s t : String.length (s +:+ t) = String.length s + String.length t.
Proof. induction s as [|c s IH]; [done|]. rewrite sapp_cons. cbn. by rewrite IH. Qed.

Lemma isEmpty_true s : isEmpty s = true ↔ s = EmptyString.
Proof. by destruct s. Qed.

Lemma isEmpty_false s : isEmpty s = false ↔ s ≠ EmptyString.
Proof. by destruct s. Qed.

Lemma takeWhile_dropWhile p s : takeWhile p s +:+ dropWhile p s = s.
Proof.
  induction s as [|c s IH]; [done|]. cbn.
  destruct (p c); [|done]. by rewrite sapp_cons, IH.
Qed.

Lemma allChars_takeWhile p s : allChars p (takeWhile p s) = true.
Proof.
  induction s as [|c s IH]; [done|]. cbn.
  destruct (p c) eqn:Hc; [|done]. cbn. by rewrite Hc.
Qed.

Lemma headIs_dropWhile p s : headIs p (dropWhile p s) = false.
Proof.
  induction s as [|c s IH]; [done|]. cbn.
  destruct (p c) eqn:Hc; [done|]. by cbn.
Qed.

Lemma dropWhile_headIs p s : headIs p s = false → dropWhile p s = s.
Proof. destruct s as [|c s]; [done|]. cbn. by intros ->. Qed.

Lemma takeWhile_headIs p s : headIs p s = false → takeWhile p s = EmptyString.
Proof. destruct s as [|c s]; [done|]. cbn. by intros ->. Qed.

(** A run of [p]-characters followed by a text that does not go on with
    one is split exactly there. *)
Lemma takeWhile_run p s t :
  allChars p s = true → headIs p t = false → takeWhile p (s +:+ t) = s.
Proof.
  intros Hs Ht. induction s as [|c s IH].
  - by apply takeWhile_headIs.
  - cbn in Hs. apply andb_true_iff in Hs as [Hc Hs].
    rewrite sapp_cons. cbn. by rewrite Hc, IH.
Qed.

Lemma dropWhile_run p s t :
  allChars p s = true → headIs p t = false → dropWhile p (s +:+ t) = t.
Proof.
  intros Hs Ht. induction s as [|c s IH].
  - by apply dropWhile_headIs.
  - cbn in Hs. apply andb_true_iff in Hs as [Hc Hs].
    rewrite sapp_cons. cbn. by rewrite Hc, IH.
Qed.

Lemma length_dropWhile p s : String.length (dropWhile p s) ≤ String.length s.
Proof.
  induction s as [|c s IH]; [done|]. cbn.
  destruct (p c); cbn; lia.
Qed.

Lemma consumed_dropWhile p s : consumed s (dropWhile p s) = takeWhile p s.
Proof.
  unfold consumed. induction s as [|c s IH]; [done|].
  cbn [dropWhile takeWhile]. destruct (p c).
  - pose proof (length_dropWhile p s).
    replace (String.length (String c s) - String.length (dropWhile p s))
      with (S (String.length s - String.length (dropWhile p s))) by (cbn; lia).
    cbn. by rewrite IH.
  - by rewrite Nat.sub_diag.
Qed.

Lemma startsWith_sapp w s t :
  String.length w ≤ String.length s → startsWith w (s +:+ t) = startsWith w s.
Proof.
  revert s. induction w as [|c w IH]; intros s Hlen; [done|].
  destruct s as [|x s]; [cbn in Hlen; lia|].
  rewrite sapp_cons. cbn. destruct (ascii_dec c x); [|done].
  apply IH. cbn in Hlen. lia.
Qed.

Lemma startsWith_self w t : startsWith w (w +:+ t) = true.
Proof.
  induction w as [|c w IH]; [done|]. rewrite sapp_cons. cbn.
  by destruct (ascii_dec c c).
Qed.

Lemma includes_nil s w : includes s w = false → w ≠ EmptyString.
Proof. destruct s, w; cbn; congruence. Qed.

Lemma allChars_sapp p s t :
  allChars p (s +:+ t) = allChars p s && allChars p t.
Proof.
  induction s as [|c s IH]; [done|]. rewrite sapp_cons. cbn.
  by rewrite IH, andb_assoc.
Qed.

End TextFacts.

(* ================================================================== *)
(** * The regular expression of chapter identifiers *)
(* ================================================================== *)

Section ChapterPattern.

Implicit Types (s t : string) (p : ascii → bool) (k : cont).

Local Ltac each_char c := destruct c as [[] [] [] [] [] [] [] []].

(** A property of characters that holds on [allAscii] holds of all. *)
Lemma all_ascii (P : ascii → bool) : forallb P allAscii = true → ∀ x, P x = true.
Proof.
  intros Hall x. apply Is_true_true, forallb_True in Hall.
  rewrite Forall_forall in Hall. apply Is_true_true, Hall.
  apply list_elem_of_fmap. exists (nat_of_ascii x).
  split; [by rewrite ascii_nat_embedding|].
  apply elem_of_seq. pose proof (nat_ascii_bounded x). lia.
Qed.

(** Under the [i] flag a plain pattern character matches the characters
    that lower-case to it. *)
Lemma chEq_lower c x :
  plainChar c = true → chEq true c x = bool_decide (lowerChar x = c).
Proof.
  intros Hc.
  assert (forallb
     (λ c, forallb (λ x, implb (plainChar c)
                      (bool_decide (chEq true c x = bool_decide (lowerChar x = c))))
             allAscii) allAscii = true) as Hall by (vm_compute; reflexivity).
  pose proof (all_ascii _ (all_ascii _ Hall c) x) as Hx. cbv beta in Hx.
  rewrite Hc in Hx. by apply bool_decide_eq_true in Hx.
Qed.

(** Lower-casing does not change what the patterns of this program see
    of a character. *)
Lemma canonicalize_lower x : canonicalize (lowerChar x) = canonicalize x.
Proof.
  assert (forallb (λ x, bool_decide (canonicalize (lowerChar x) = canonicalize x)) allAscii = true)
    as Hall by (vm_compute; reflexivity).
  pose proof (all_ascii _ Hall x) as Hx.
  by apply bool_decide_eq_true in Hx.
Qed.

Lemma isSep_lower x : isSep (lowerChar x) = isSep x.
Proof.
  assert (forallb (λ x, bool_decide (isSep (lowerChar x) = isSep x)) allAscii = true)
    as Hall by (vm_compute; reflexivity).
  pose proof (all_ascii _ Hall x) as Hx.
  by apply bool_decide_eq_true in Hx.
Qed.

Lemma isDigit_lower x : isDigit (lowerChar x) = isDigit x.
Proof.
  assert (forallb (λ x, bool_decide (isDigit (lowerChar x) = isDigit x)) allAscii = true)
    as Hall by (vm_compute; reflexivity).
  pose proof (all_ascii _ Hall x) as Hx.
  by apply bool_decide_eq_true in Hx.
Qed.

Lemma lowerChar_digit x : isDigit x = true → lowerChar x = x.
Proof.
  assert (forallb (λ x, implb (isDigit x) (bool_decide (lowerChar x = x))) allAscii = true)
    as Hall by (vm_compute; reflexivity).
  pose proof (all_ascii _ Hall x) as Hx.
  cbv beta in Hx. intros Hd. rewrite Hd in Hx. by apply bool_decide_eq_true in Hx.
Qed.

Lemma lowerChar_underscore x : lowerChar x = "_"%char ↔ x = "_"%char.
Proof.
  assert (forallb
     (λ x, bool_decide (bool_decide (lowerChar x = "_"%char) = bool_decide (x = "_"%char)))
     allAscii = true) as Hall by (vm_compute; reflexivity).
  pose proof (all_ascii _ Hall x) as Hx.
  cbv beta in Hx. apply bool_decide_eq_true in Hx.
  split; intros H.
  - rewrite bool_decide_eq_true_2 in Hx by done.
    symmetry in Hx. by apply bool_decide_eq_true in Hx.
  - rewrite (bool_decide_eq_true_2 (x = "_"%char)) in Hx by done.
    by apply bool_decide_eq_true in Hx.
Qed.

Lemma sep_not_digit c : isSep c = true → isDigit c = false.
Proof. each_char c; vm_compute; congruence. Qed.

Lemma chEq_underscore x : chEq true "_" x = bool_decide (x = "_"%char).
Proof. each_char x; vm_compute; reflexivity. Qed.

Lemma digit_not_underscore c : isDigit c = true → c ≠ "_"%char.
Proof. each_char c; vm_compute; congruence. Qed.

Lemma chEq_letter_c x : chEq true "c" x = bool_decide (lowerChar x = "c"%char).
Proof. each_char x; vm_compute; reflexivity. Qed.

Lemma chEq_letter_h x : chEq true "h" x = bool_decide (lowerChar x = "h"%char).
Proof. each_char x; vm_compute; reflexivity. Qed.

Lemma chEq_letter_a x : chEq true "a" x = bool_decide (lowerChar x = "a"%char).
Proof. each_char x; vm_compute; reflexivity. Qed.

Lemma chEq_letter_p x : chEq true "p" x = bool_decide (lowerChar x = "p"%char).
Proof. each_char x; vm_compute; reflexivity. Qed.

(** Greedy iteration of a character class.  When the continuation
    cannot succeed after a shorter run once it has failed after the
    longest, the iteration is the continuation after the longest run. *)
Lemma starLoop_cls ic p k :
  (∀ c s caps, p c = true →
     k (dropWhile p s) caps = None → k (String c s) caps = None) →
  ∀ n s caps, String.length s ≤ n →
    starLoop (rmatch ic (Cls p)) n s caps k = k (dropWhile p s) caps.
Proof.
  intros Hk. induction n as [|n IH]; intros s caps Hlen.
  - destruct s; [done|]. cbn in Hlen. lia.
  - destruct s as [|c s]; [done|].
    cbn [starLoop rmatch dropWhile]. destruct (p c) eqn:Hc; [|done].
    assert ((String.length s <? String.length (String c s)) = true) as ->
      by (apply Nat.ltb_lt; cbn; lia).
    rewrite IH by (cbn in Hlen; lia).
    destruct (k (dropWhile p s) caps) eqn:Hrest; [done|].
    by apply Hk.
Qed.

(** The defining equations of the matcher. *)
Lemma rmatch_Cat ic r1 r2 s caps k :
  rmatch ic (Cat r1 r2) s caps k =
    rmatch ic r1 s caps (λ s1 caps1, rmatch ic r2 s1 caps1 k).
Proof. reflexivity. Qed.

Lemma rmatch_Str ic w s caps k :
  rmatch ic (Str w) s caps k =
    match matchStr ic w s with Some s1 => k s1 caps | None => None end.
Proof. reflexivity. Qed.

Lemma rmatch_Grp ic r s caps k :
  rmatch ic (Grp r) s caps k =
    rmatch ic r s caps (λ s1 caps1, k s1 (caps1 ++ [consumed s s1])).
Proof. reflexivity. Qed.

Lemma rmatch_Star_cls ic p k s caps :
  (∀ c t caps', p c = true →
     k (dropWhile p t) caps' = None → k (String c t) caps' = None) →
  rmatch ic (Star (Cls p)) s caps k = k (dropWhile p s) caps.
Proof.
  intros Hk.
  change (rmatch ic (Star (Cls p)) s caps k)
    with (starLoop (rmatch ic (Cls p)) (String.length s) s caps k).
  by apply starLoop_cls.
Qed.

Lemma rmatch_Plus_cls ic p k s caps :
  (∀ c t caps', p c = true →
     k (dropWhile p t) caps' = None → k (String c t) caps' = None) →
  rmatch ic (Plus (Cls p)) s caps k =
    if headIs p s then k (dropWhile p s) caps else None.
Proof.
  intros Hk. destruct s as [|c s]; [done|].
  change (rmatch ic (Plus (Cls p)) (String c s) caps k)
    with (if p c then starLoop (rmatch ic (Cls p)) (String.length s) s caps k
          else None).
  cbn [headIs dropWhile]. destruct (p c); [|done].
  by apply starLoop_cls.
Qed.

(** A group of digits that ends the pattern. *)
Lemma rmatch_last_digits s caps :
  rmatch true (Grp (Plus (Cls isDigit))) s caps accept =
    if headIs isDigit s
    then Some (caps ++ [takeWhile isDigit s], dropWhile isDigit s)
    else None.
Proof.
  rewrite rmatch_Grp, rmatch_Plus_cls.
  - unfold accept. by rewrite consumed_dropWhile.
  - intros c t caps' _. unfold accept. discriminate.
Qed.

(** The underscore and the second group. *)
Lemma rmatch_underscore_digits s caps :
  rmatch true (Cat (Str "_") (Grp (Plus (Cls isDigit)))) s caps accept =
    match s with
    | String x s4 =>
        if bool_decide (x = "_"%char)
        then rmatch true (Grp (Plus (Cls isDigit))) s4 caps accept
        else None
    | EmptyString => None
    end.
Proof.
  rewrite rmatch_Cat, rmatch_Str. destruct s as [|x s4]; [done|].
  cbn [matchStr]. rewrite chEq_underscore.
  by destruct (bool_decide (x = "_"%char)).
Qed.

(** The two groups with the underscore between them. *)
Lemma rmatch_groups s caps :
  rmatch true
    (Cat (Grp (Plus (Cls isDigit))) (Cat (Str "_") (Grp (Plus (Cls isDigit)))))
    s caps accept =
    if headIs isDigit s
    then rmatch true (Cat (Str "_") (Grp (Plus (Cls isDigit))))
           (dropWhile isDigit s) (caps ++ [takeWhile isDigit s]) accept
    else None.
Proof.
  rewrite rmatch_Cat, rmatch_Grp, rmatch_Plus_cls.
  - by rewrite consumed_dropWhile.
  - intros c t caps' Hc _. rewrite rmatch_underscore_digits.
    rewrite bool_decide_eq_false_2; [done|]. by apply digit_not_underscore.
Qed.

Lemma headIs_takeWhile p s : headIs p s = negb (isEmpty (takeWhile p s)).
Proof. destruct s as [|c s]; [done|]. cbn. by destruct (p c). Qed.

(** The match of [chapRe] at the head of a text. *)
Lemma rmatch_chapRe s :
  rmatch true chapRe s [] accept =
    (λ '(a, b, rest), ([a; b], rest)) <$> chapHere s.
Proof.
  unfold chapRe, chapHere. rewrite rmatch_Cat, rmatch_Str.
  destruct (matchStr true "chap" s) as [s1|]; [|done].
  cbn [mbind option_bind].
  rewrite rmatch_Cat, rmatch_Star_cls.
  2:{ intros c t caps Hc _. rewrite rmatch_groups. cbn [headIs].
      by rewrite (sep_not_digit c). }
  rewrite rmatch_groups, rmatch_underscore_digits.
  rewrite (headIs_takeWhile isDigit (dropWhile isSep s1)).
  destruct (dropWhile isDigit (dropWhile isSep s1)) as [|x s4].
  { by destruct (isEmpty _). }
  destruct (bool_decide (x = "_"%char)); [|by destruct (isEmpty _)].
  rewrite rmatch_last_digits, (headIs_takeWhile isDigit s4).
  destruct (isEmpty (takeWhile isDigit (dropWhile isSep s1))); [done|].
  by destruct (isEmpty (takeWhile isDigit s4)).
Qed.

(** The keyword: four characters that are "chap" once lower-cased. *)
Lemma matchStr_chap s s1 :
  matchStr true "chap" s = Some s1 ↔
  ∃ kw, s = kw +:+ s1 ∧ toLowerCase kw = "chap".
Proof.
  split.
  - destruct s as [|x1 [|x2 [|x3 [|x4 t]]]]; cbn [matchStr];
      rewrite ?chEq_letter_c, ?chEq_letter_h, ?chEq_letter_a, ?chEq_letter_p;
      repeat case_bool_decide; try discriminate.
    intros [= <-].
    exists (String x1 (String x2 (String x3 (String x4 EmptyString)))).
    split; [done|]. cbn. congruence.
  - intros (kw & -> & Hkw).
    destruct kw as [|x1 [|x2 [|x3 [|x4 [|x5 kw]]]]]; try discriminate Hkw.
    cbn in Hkw. injection Hkw as H1 H2 H3 H4.
    rewrite !sapp_cons, sapp_nil_l. cbn [matchStr].
    rewrite chEq_letter_c, chEq_letter_h, chEq_letter_a, chEq_letter_p.
    by rewrite !bool_decide_eq_true_2.
Qed.

Lemma digits_headIs a t : digits a → headIs isDigit (a +:+ t) = true.
Proof.
  intros [Hall Hne]. destruct a as [|c a]; [done|].
  cbn in Hall. apply andb_true_iff in Hall as [Hc _].
  by rewrite sapp_cons.
Qed.

Lemma digits_not_sep a t : digits a → headIs isSep (a +:+ t) = false.
Proof.
  intros [Hall Hne]. destruct a as [|c a]; [done|].
  cbn in Hall. apply andb_true_iff in Hall as [Hc _].
  rewrite sapp_cons. cbn. destruct (isSep c) eqn:Hsep; [|done].
  apply sep_not_digit in Hsep. congruence.
Qed.

Lemma chapHere_sound s a b rest :
  chapHere s = Some (a, b, rest) → ChapAt s a b.
Proof.
  unfold chapHere. destruct (matchStr true "chap" s) as [s1|] eqn:Hkw; [|done].
  apply matchStr_chap in Hkw as (kw & -> & Hkw). cbn [mbind option_bind].
  destruct (dropWhile isDigit (dropWhile isSep s1)) as [|x s4] eqn:Hmid; [done|].
  case_bool_decide as Hx; [subst x|done].
  destruct (isEmpty (takeWhile isDigit (dropWhile isSep s1))) eqn:Ha; [done|].
  destruct (isEmpty (takeWhile isDigit s4)) eqn:Hb; [done|].
  intros [= <- <- <-].
  exists kw, (takeWhile isSep s1), (dropWhile isDigit s4).
  split.
  { f_equal. change (String "_" EmptyString +:+ ?t) with (String "_" t).
    rewrite (takeWhile_dropWhile isDigit s4), <- Hmid.
    by rewrite !takeWhile_dropWhile. }
  split; [done|]. split; [apply allChars_takeWhile|].
  split; [split; [apply allChars_takeWhile | by apply isEmpty_false]|].
  split; [split; [apply allChars_takeWhile | by apply isEmpty_false]|].
  apply headIs_dropWhile.
Qed.

Lemma chapHere_complete s a b :
  ChapAt s a b → ∃ rest, chapHere s = Some (a, b, rest).
Proof.
  intros (kw & seps & rest & -> & Hkw & Hseps & Ha & Hb & Hrest).
  exists rest. unfold chapHere.
  assert (matchStr true "chap" (kw +:+ seps +:+ a +:+ "_" +:+ b +:+ rest)
          = Some (seps +:+ a +:+ "_" +:+ b +:+ rest)) as ->
    by (apply matchStr_chap; eauto).
  cbn [mbind option_bind].
  rewrite (dropWhile_run isSep) by (by try apply digits_not_sep).
  rewrite (takeWhile_run isDigit), (dropWhile_run isDigit) by (by try apply Ha).
  change (String "_" EmptyString +:+ ?t) with (String "_" t). cbv iota beta.
  rewrite bool_decide_eq_true_2 by done.
  rewrite (takeWhile_run isDigit), (dropWhile_run isDigit) by (by try apply Hb).
  destruct Ha as [_ Ha], Hb as [_ Hb].
  apply isEmpty_false in Ha, Hb. by rewrite Ha, Hb.
Qed.

(** The groups found at the head of a text are determined by it. *)
Lemma ChapAt_unique s a b a' b' : ChapAt s a b → ChapAt s a' b' → a = a' ∧ b = b'.
Proof.
  intros (r & Hr)%chapHere_complete (r' & Hr')%chapHere_complete.
  rewrite Hr in Hr'. by injection Hr' as -> -> _.
Qed.

Lemma matchAt_chapRe s :
  matchAt true chapRe s =
    (λ '(a, b, rest), ([consumed s rest; a; b], rest)) <$> chapHere s.
Proof.
  unfold matchAt. rewrite rmatch_chapRe.
  by destruct (chapHere s) as [[[a b] rest]|].
Qed.

(** One step of the search for the leftmost occurrence. *)
Lemma chapterOf_step s :
  chapterOf s =
    match chapHere s with
    | Some (a, b, _) => Some (a, b)
    | None =>
        match s with
        | EmptyString => None
        | String _ s' => chapterOf s'
        end
    end.
Proof.
  unfold chapterOf. destruct s as [|c s]; cbn [exec];
    rewrite matchAt_chapRe; by destruct (chapHere _) as [[[a b] rest]|].
Qed.

Lemma exec_chapRe s :
  exec true chapRe s = None ∧ chapterOf s = None ∨
  ∃ whole a b, exec true chapRe s = Some [whole; a; b] ∧ chapterOf s = Some (a, b).
Proof.
  induction s as [|c s IH]; unfold chapterOf; cbn [exec];
    rewrite matchAt_chapRe; destruct (chapHere _) as [[[a b] rest]|];
    cbn [fmap option_fmap option_map].
  - right. by eexists _, _, _.
  - by left.
  - right. by eexists _, _, _.
  - exact IH.
Qed.

End ChapterPattern.

(* ================================================================== *)
(** * Identifier extraction *)
(* ================================================================== *)

Section Extraction.

Implicit Types (s t a b : string).

Lemma chapterOf_first s a b : FirstChapAt s a b → chapterOf s = Some (a, b).
Proof.
  intros (pre & tail & -> & Hat & Hfirst).
  induction pre as [|c pre IH]; rewrite chapterOf_step.
  - destruct (chapHere_complete _ _ _ Hat) as [rest Hrest].
    by rewrite sapp_nil_l, Hrest.
  - destruct (chapHere (String c pre +:+ tail)) as [[[a' b'] r]|] eqn:Hhere.
    + exfalso. apply chapHere_sound in Hhere.
      apply (Hfirst EmptyString (String c pre +:+ tail) a' b'); [done|cbn; lia|done].
    + rewrite sapp_cons. apply IH.
      intros pre' tail' a' b' Heq Hlen.
      apply (Hfirst (String c pre') tail' a' b'); [|cbn; lia].
      rewrite !sapp_cons. by f_equal.
Qed.

Lemma chapterOf_none s : NoChap s → chapterOf s = None.
Proof.
  induction s as [|c s IH]; intros Hno; rewrite chapterOf_step.
  - destruct (chapHere EmptyString) as [[[a b] r]|] eqn:Hhere; [|done].
    exfalso. apply chapHere_sound in Hhere. by apply (Hno EmptyString EmptyString a b).
  - destruct (chapHere (String c s)) as [[[a b] r]|] eqn:Hhere.
    + exfalso. apply chapHere_sound in Hhere.
      by apply (Hno EmptyString (String c s) a b).
    + apply IH. intros pre tail a b Heq.
      apply (Hno (String c pre) tail a b). rewrite sapp_cons. by f_equal.
Qed.

Lemma chapterOf_Some_inv s a b : chapterOf s = Some (a, b) → FirstChapAt s a b.
Proof.
  induction s as [|c s IH]; rewrite chapterOf_step.
  - destruct (chapHere EmptyString) as [[[a' b'] r]|] eqn:Hhere; [|done].
    intros [= <- <-]. exists EmptyString, EmptyString.
    split; [done|]. split; [by eapply chapHere_sound|].
    intros ???? _ Hlen. cbn in Hlen. lia.
  - destruct (chapHere (String c s)) as [[[a' b'] r]|] eqn:Hhere.
    + intros [= <- <-]. exists EmptyString, (String c s).
      split; [done|]. split; [by eapply chapHere_sound|].
      intros ???? _ Hlen. cbn in Hlen. lia.
    + intros (pre & tail & -> & Hat & Hfirst)%IH.
      exists (String c pre), tail. split; [done|]. split; [done|].
      intros pre' tail' a' b' Heq Hlen Hat'.
      destruct pre' as [|x pre'].
      * rewrite sapp_nil_l in Heq. subst tail'.
        destruct (chapHere_complete _ _ _ Hat') as [r Hr]. congruence.
      * rewrite !sapp_cons in Heq. injection Heq as <- Heq.
        apply (Hfirst pre' tail' a' b'); [done| |done]. cbn in Hlen. lia.
Qed.

Lemma chapterOf_digits s a b : chapterOf s = Some (a, b) → digits a ∧ digits b.
Proof.
  intros (pre & tail & _ & Hat & _)%chapterOf_Some_inv.
  by destruct Hat as (kw & seps & rest & _ & _ & _ & Ha & Hb & _).
Qed.

End Extraction.

(* ================================================================== *)
(** * Prompt matcher *)
(* ================================================================== *)

Section Matcher.

Implicit Types (s a b : string) (r : PromptEntry) (ps : list PromptEntry).

(** The key built from two digit runs determines them. *)
Lemma key_inj a b a' b' :
  allChars isDigit a = true → allChars isDigit a' = true →
  a +:+ "_" +:+ b = a' +:+ "_" +:+ b' → a = a' ∧ b = b'.
Proof.
  revert a'. induction a as [|c a IH]; intros [|c' a'] Ha Ha' Heq;
    rewrite ?sapp_cons, ?sapp_nil_l in Heq.
  - by injection Heq as ->.
  - injection Heq as <- _. cbn in Ha'. by apply andb_true_iff in Ha' as [? _].
  - injection Heq as -> _. cbn in Ha. by apply andb_true_iff in Ha as [? _].
  - injection Heq as -> Heq.
    cbn in Ha, Ha'. apply andb_true_iff in Ha as [_ Ha], Ha' as [_ Ha'].
    by destruct (IH a' Ha Ha' Heq) as [-> ->].
Qed.

Lemma chapterKey_groups whole a b : chapterKey [whole; a; b] = a +:+ "_" +:+ b.
Proof. reflexivity. Qed.

(** One round of the loop, in terms of the identifier of the record. *)
Lemma scanPrompts_cons a b r ps :
  digits a → digits b →
  scanPrompts (a +:+ "_" +:+ b) (r :: ps) =
    if bool_decide (recordChapter r = Some (a, b))
    then Some (recordPrompt r)
    else scanPrompts (a +:+ "_" +:+ b) ps.
Proof.
  intros [Ha _] _. cbn [scanPrompts]. unfold recordChapter, recordPrompt.
  destruct (includes (outputAi r) "||"); [|by rewrite bool_decide_eq_false_2].
  destruct (exec_chapRe (trim (part 1 (split "||" (outputAi r)))))
    as [[-> ->] | (whole & a' & b' & -> & Hid)].
  - by rewrite bool_decide_eq_false_2.
  - rewrite Hid, chapterKey_groups.
    destruct (chapterOf_digits _ _ _ Hid) as [[Ha' _] _].
    case_bool_decide as Hkey.
    + apply key_inj in Hkey as [-> ->]; [|done..].
      by rewrite bool_decide_eq_true_2.
    + rewrite bool_decide_eq_false_2; [done|]. intros [= -> ->]. by apply Hkey.
Qed.

Lemma scanPrompts_nil k : scanPrompts k [] = None.
Proof. reflexivity. Qed.

(** [matchPromptToImage] is the loop run with the identifier of the
    image. *)
Lemma matchPromptToImage_chapter imageName ps :
  matchPromptToImage imageName ps =
    match imageChapter imageName with
    | Some (a, b) => scanPrompts (a +:+ "_" +:+ b) ps
    | None => None
    end.
Proof.
  unfold matchPromptToImage, imageChapter.
  destruct (exec_chapRe (cleanImageName imageName))
    as [[-> ->] | (whole & a & b & -> & ->)].
  - by case_bool_decide.
  - rewrite chapterKey_groups. case_bool_decide as Hlen; [|done].
    by destruct ps.
Qed.

(** The loop returns the prompt of the first record with the wanted
    identifier. *)
Lemma scanPrompts_first a b before r after :
  digits a → digits b →
  (∀ r', r' ∈ before → recordChapter r' ≠ Some (a, b)) →
  recordChapter r = Some (a, b) →
  scanPrompts (a +:+ "_" +:+ b) (before ++ r :: after) = Some (recordPrompt r).
Proof.
  intros Ha Hb Hbefore Hr. induction before as [|r0 before IH]; cbn [app].
  - rewrite scanPrompts_cons by done. by rewrite bool_decide_eq_true_2.
  - rewrite scanPrompts_cons by done.
    rewrite bool_decide_eq_false_2 by (apply Hbefore; left).
    apply IH. intros r' Hr'. apply Hbefore. by right.
Qed.

Lemma scanPrompts_miss a b ps :
  digits a → digits b →
  (∀ r, r ∈ ps → recordChapter r ≠ Some (a, b)) →
  scanPrompts (a +:+ "_" +:+ b) ps = None.
Proof.
  intros Ha Hb Hps. induction ps as [|r ps IH]; [done|].
  rewrite scanPrompts_cons by done.
  rewrite bool_decide_eq_false_2 by (apply Hps; left).
  apply IH. intros r' Hr'. apply Hps. by right.
Qed.

(** The parts of a label around its first delimiter. *)
Lemma split_first pre post :
  includes (pre +:+ "|") "||" = false →
  split "||" (pre +:+ "||" +:+ post) = pre :: split "||" post.
Proof.
  unfold split. induction pre as [|c pre IH]; intros Hfree.
  - rewrite sapp_nil_l. by destruct post.
  - rewrite sapp_cons in Hfree |- *. cbn [includes] in Hfree.
    apply orb_false_iff in Hfree as [Hhere Hfree].
    cbn [splitFrom].
    assert (startsWith "||" (String c (pre +:+ "||" +:+ post)) = false) as ->.
    { etrans; [|exact Hhere].
      replace (pre +:+ "||" +:+ post) with ((pre +:+ "|") +:+ "|" +:+ post)
        by (by rewrite sapp_assoc).
      rewrite <- (sapp_cons c (pre +:+ "|") ("|" +:+ post)).
      apply startsWith_sapp. cbn. rewrite length_sapp. cbn. lia. }
    by rewrite IH.
Qed.

Lemma split_whole s : includes s "||" = false → split "||" s = [s].
Proof.
  unfold split. induction s as [|c s IH]; intros Hfree; [done|].
  cbn [includes] in Hfree. apply orb_false_iff in Hfree as [Hhere Hfree].
  cbn [splitFrom]. by rewrite Hhere, IH.
Qed.

Lemma includes_delimiter pre post : includes (pre +:+ "||" +:+ post) "||" = true.
Proof.
  induction pre as [|c pre IH]; [by destruct post|].
  rewrite sapp_cons. cbn [includes]. rewrite IH. apply orb_true_r.
Qed.

(** C2.  The matcher is a function of the file name and the list of
    records.  A record without the delimiter, or whose part after the
    delimiter holds no identifier, has no identifier and is passed over;
    the first record in list order whose identifier is that of the file
    name gives the result, which is its part before the delimiter,
    trimmed; of two records with the same identifier the earlier one
    wins; with no such record, or no identifier in the file name, the
    result is nothing. *)
Theorem first_match_wins :
  (∀ imageName a b before r after,
     imageChapter imageName = Some (a, b) →
     (∀ r', r' ∈ before → recordChapter r' ≠ Some (a, b)) →
     recordChapter r = Some (a, b) →
     matchPromptToImage imageName (before ++ r :: after) = Some (recordPrompt r)) ∧
  (∀ imageName a b r1 r2 ps,
     imageChapter imageName = Some (a, b) →
     recordChapter r1 = Some (a, b) → recordChapter r2 = Some (a, b) →
     matchPromptToImage imageName (r1 :: r2 :: ps) = Some (recordPrompt r1)) ∧
  (∀ imageName ps,
     (∀ r, r ∈ ps → recordChapter r ≠ imageChapter imageName) →
     matchPromptToImage imageName ps = None) ∧
  (∀ imageName ps,
     imageChapter imageName = None → matchPromptToImage imageName ps = None) ∧
  (∀ r, includes (outputAi r) "||" = false → recordChapter r = None) ∧
  (∀ r, chapterOf (trim (part 1 (split "||" (outputAi r)))) = None →
        recordChapter r = None) ∧
  (∀ pre post,
     includes (pre +:+ "|") "||" = false →
     recordPrompt {| outputAi := pre +:+ "||" +:+ post |} = trim pre) ∧
  (∀ pre post,
     includes (pre +:+ "|") "||" = false → includes post "||" = false →
     recordChapter {| outputAi := pre +:+ "||" +:+ post |} = chapterOf (trim post)).
Proof.
  assert (∀ imageName a b before r after,
     imageChapter imageName = Some (a, b) →
     (∀ r', r' ∈ before → recordChapter r' ≠ Some (a, b)) →
     recordChapter r = Some (a, b) →
     matchPromptToImage imageName (before ++ r :: after) = Some (recordPrompt r))
    as Hfirst.
  { intros imageName a b before r after Himg Hbefore Hr.
    rewrite matchPromptToImage_chapter, Himg.
    destruct (chapterOf_digits _ _ _ Himg) as [Ha Hb].
    by apply scanPrompts_first. }
  split; [exact Hfirst|]. split.
  { intros imageName a b r1 r2 ps Himg H1 H2.
    apply (Hfirst imageName a b [] r1 (r2 :: ps)); [done| |done].
    by intros r' ?%elem_of_nil. }
  split.
  { intros imageName ps Hps. rewrite matchPromptToImage_chapter.
    destruct (imageChapter imageName) as [[a b]|] eqn:Himg; [|done].
    destruct (chapterOf_digits _ _ _ Himg) as [Ha Hb].
    by apply scanPrompts_miss. }
  split.
  { intros imageName ps Himg. by rewrite matchPromptToImage_chapter, Himg. }
  split.
  { intros r Hr. unfold recordChapter. by rewrite Hr. }
  split.
  { intros r Hr. unfold recordChapter. rewrite Hr. by destruct (includes _ _). }
  split.
  { intros pre post Hpre. unfold recordPrompt. cbn [outputAi].
    by rewrite split_first. }
  intros pre post Hpre Hpost. unfold recordChapter. cbn [outputAi].
  by rewrite includes_delimiter, split_first, split_whole.
Qed.

Lemma first_match_wins_witness :
  matchPromptToImage "scene_chap_1_3_compressed.png"
    ([ {| outputAi := "A hides || Chap 1_2" |};
       {| outputAi := "no delimiter, chap 1_3" |};
       {| outputAi := "no tag || scene thirteen" |} ]
     ++ {| outputAi := "  B arrives || Chap_1_3" |}
     :: [ {| outputAi := "C collides || chap 1_3" |} ])
  = Some "B arrives".
Proof.
  apply (proj1 first_match_wins "scene_chap_1_3_compressed.png" "1" "3"
           _ {| outputAi := "  B arrives || Chap_1_3" |}).
  - reflexivity.
  - intros r' Hin. rewrite !elem_of_cons, elem_of_nil in Hin.
    destruct Hin as [-> | [-> | [-> | []]]]; vm_compute; discriminate.
  - reflexivity.
Defined.

End Matcher.

(* ================================================================== *)
(** * Cleaning of file names *)
(* ================================================================== *)

Section Cleaning.

Implicit Types (s t w stem marker ext : string) (p : ascii → bool).

Lemma toLowerCase_sapp s t : toLowerCase (s +:+ t) = toLowerCase s +:+ toLowerCase t.
Proof.
  induction s as [|c s IH]; [done|]. rewrite sapp_cons. cbn [toLowerCase].
  by rewrite IH.
Qed.

Lemma isEmpty_lower s : isEmpty (toLowerCase s) = isEmpty s.
Proof. by destruct s. Qed.

Lemma matchStr_toLower w s :
  matchStr true w (toLowerCase s) = toLowerCase <$> matchStr true w s.
Proof.
  revert s. induction w as [|c w IH]; intros s; [done|].
  destruct s as [|x s]; [done|]. cbn [toLowerCase matchStr].
  unfold chEq. rewrite canonicalize_lower.
  by destruct (bool_decide (canonicalize c = canonicalize x)).
Qed.

Lemma dropWhile_lower p s :
  (∀ x, p (lowerChar x) = p x) →
  dropWhile p (toLowerCase s) = toLowerCase (dropWhile p s).
Proof.
  intros Hp. induction s as [|c s IH]; [done|]. cbn [toLowerCase dropWhile].
  rewrite Hp. by destruct (p c).
Qed.

Lemma takeWhile_lower p s :
  (∀ x, p (lowerChar x) = p x) →
  takeWhile p (toLowerCase s) = toLowerCase (takeWhile p s).
Proof.
  intros Hp. induction s as [|c s IH]; [done|]. cbn [toLowerCase takeWhile].
  rewrite Hp. destruct (p c); [|done]. cbn [toLowerCase]. by rewrite IH.
Qed.

Lemma toLowerCase_digits s : allChars isDigit s = true → toLowerCase s = s.
Proof.
  induction s as [|c s IH]; [done|]. cbn. intros [Hc Hs]%andb_true_iff.
  by rewrite lowerChar_digit, IH.
Qed.

Lemma takeWhile_digits_lower s :
  takeWhile isDigit (toLowerCase s) = takeWhile isDigit s.
Proof.
  rewrite takeWhile_lower by apply isDigit_lower.
  apply toLowerCase_digits, allChars_takeWhile.
Qed.

(** Lower-casing a text changes neither whether the pattern occurs at
    its head nor the groups. *)
Lemma chapHere_lower s :
  chapHere (toLowerCase s) =
    (λ '(a, b, rest), (a, b, toLowerCase rest)) <$> chapHere s.
Proof.
  unfold chapHere. rewrite matchStr_toLower.
  destruct (matchStr true "chap" s) as [s1|]; [|done].
  cbn [fmap option_fmap option_map mbind option_bind].
  rewrite (dropWhile_lower isSep) by apply isSep_lower.
  rewrite takeWhile_digits_lower.
  rewrite (dropWhile_lower isDigit) by apply isDigit_lower.
  destruct (dropWhile isDigit (dropWhile isSep s1)) as [|x s4]; [done|].
  cbn [toLowerCase].
  rewrite (bool_decide_ext _ _ (lowerChar_underscore x)).
  destruct (bool_decide (x = "_"%char)); [|done].
  rewrite takeWhile_digits_lower.
  rewrite (dropWhile_lower isDigit) by apply isDigit_lower.
  by destruct (isEmpty _ || isEmpty _).
Qed.

Lemma chapterOf_lower s : chapterOf (toLowerCase s) = chapterOf s.
Proof.
  induction s as [|c s IH].
  - done.
  - rewrite (chapterOf_step (String c s)), chapterOf_step, chapHere_lower.
    destruct (chapHere (String c s)) as [[[a b] rest]|]; [done|].
    cbn [toLowerCase fmap option_fmap option_map]. exact IH.
Qed.

Lemma length_toLowerCase s : String.length (toLowerCase s) = String.length s.
Proof. induction s as [|c s IH]; [done|]. cbn. by rewrite IH. Qed.

Lemma take_all s : take (String.length s) s = s.
Proof. induction s as [|c s IH]; [done|]. cbn. by rewrite IH. Qed.

Lemma consumed_all s : consumed s EmptyString = s.
Proof. unfold consumed. cbn. rewrite Nat.sub_0_r. apply take_all. Qed.

(** Under the [i] flag a word of plain characters matches the texts that
    begin with a word that lower-cases to it. *)
Lemma matchStr_lower w s s1 :
  allChars plainChar w = true →
  matchStr true w s = Some s1 ↔ ∃ kw, s = kw +:+ s1 ∧ toLowerCase kw = w.
Proof.
  revert s. induction w as [|c w IH]; intros s Hw.
  - cbn. split.
    + intros [= ->]. by exists EmptyString.
    + intros ([|??] & -> & Hkw); [done|discriminate Hkw].
  - cbn in Hw. apply andb_true_iff in Hw as [Hc Hw].
    destruct s as [|x s]; cbn [matchStr].
    + split; [done|]. intros ([|??] & Heq & Hkw); [discriminate Hkw|discriminate Heq].
    + rewrite chEq_lower by done. case_bool_decide as Hx.
      * rewrite IH by done. split.
        -- intros (kw & -> & Hkw). exists (String x kw). split; [done|].
           cbn. by rewrite Hx, Hkw.
        -- intros ([|y kw] & Heq & Hkw); [discriminate Hkw|].
           rewrite sapp_cons in Heq. injection Heq as -> ->.
           cbn in Hkw. injection Hkw as _ Hkw. by exists kw.
      * split; [done|]. intros ([|y kw] & Heq & Hkw); [discriminate Hkw|].
        rewrite sapp_cons in Heq. injection Heq as -> ->.
        cbn in Hkw. by injection Hkw as ? _.
Qed.

Lemma matchStr_whole w s :
  allChars plainChar w = true →
  matchStr true w s = Some EmptyString ↔ toLowerCase s = w.
Proof.
  intros Hw. rewrite matchStr_lower by done. split.
  - intros (kw & -> & Hkw). by rewrite sapp_nil_r.
  - intros Hs. exists s. by rewrite sapp_nil_r.
Qed.

Lemma matchStr_startsWith w s s1 :
  allChars plainChar w = true →
  matchStr true w s = Some s1 → startsWith w (toLowerCase s) = true.
Proof.
  intros Hw (kw & -> & <-)%matchStr_lower; [|done].
  rewrite toLowerCase_sapp. apply startsWith_self.
Qed.

Lemma includes_suffix pre s w : startsWith w s = true → includes (pre +:+ s) w = true.
Proof.
  intros Hs. induction pre as [|c pre IH].
  - rewrite sapp_nil_l. destruct s; cbn [includes]; by rewrite Hs.
  - rewrite sapp_cons. cbn [includes]. rewrite IH. apply orb_true_r.
Qed.

Lemma matchAt_Str w s :
  matchAt true (Str w) s = (λ rest, ([consumed s rest], rest)) <$> matchStr true w s.
Proof. unfold matchAt. rewrite rmatch_Str. by destruct (matchStr true w s). Qed.

(** A match of a word on [u +:+ t] lies within [u] or runs over its end. *)
Lemma matchStr_sapp_inv ic w u t r :
  matchStr ic w (u +:+ t) = Some r →
  (∃ r', matchStr ic w u = Some r') ∨
  (∃ w1 w2, w = w1 +:+ w2 ∧ w2 ≠ EmptyString ∧
            String.length w1 = String.length u ∧ matchStr ic w2 t = Some r).
Proof.
  revert u. induction w as [|c w IH]; intros u Hm.
  - left. by exists u.
  - destruct u as [|x u].
    + right. exists EmptyString, (String c w). by rewrite sapp_nil_l in Hm.
    + rewrite sapp_cons in Hm. cbn [matchStr] in Hm |- *.
      destruct (chEq ic c x); [|done].
      destruct (IH u Hm) as [Hin | (w1 & w2 & -> & Hw2 & Hlen & Hrest)]; [by left|].
      right. exists (String c w1), w2. repeat split; [done|cbn; by rewrite Hlen|done].
Qed.

Lemma lowerLetter_plain c : lowerLetter c = true → plainChar c = true.
Proof. unfold plainChar, lowerLetter. by intros ->. Qed.

Lemma matchStr_head_letter w t r :
  w ≠ EmptyString → allChars lowerLetter w = true →
  matchStr true w t = Some r → headIs isLetter t = true.
Proof.
  destruct w as [|c w]; [done|]. intros _ [Hc _]%andb_true_iff.
  destruct t as [|x t]; [done|]. cbn [matchStr headIs].
  rewrite chEq_lower by (by apply lowerLetter_plain).
  case_bool_decide as Hx; [|done]. intros _. unfold isLetter. by rewrite Hx.
Qed.

(** A word made of one character and then letters cannot begin in a
    non-empty [u] and end in a text [t] that does not begin with a
    letter. *)
Lemma matchStr_no_straddle c0 w u t r :
  allChars lowerLetter w = true → u ≠ EmptyString → headIs isLetter t = false →
  matchStr true (String c0 w) (u +:+ t) = Some r →
  ∃ r', matchStr true (String c0 w) u = Some r'.
Proof.
  intros Hw Hu Ht Hm.
  destruct (matchStr_sapp_inv _ _ _ _ _ Hm) as [Hin | (w1 & w2 & Heq & Hw2 & Hlen & Hrest)];
    [done|].
  exfalso. destruct w1 as [|c1 w1].
  - destruct u; [done|discriminate Hlen].
  - rewrite sapp_cons in Heq. injection Heq as _ ->.
    rewrite allChars_sapp in Hw. apply andb_true_iff in Hw as [_ Hw].
    pose proof (matchStr_head_letter _ _ _ Hw2 Hw Hrest). congruence.
Qed.

Lemma removeAllFrom_skip ic r u t :
  removeAllFrom ic r (String.length u) (u +:+ t) = removeAllFrom ic r 0 t.
Proof. induction u as [|c u IH]; [done|]. rewrite sapp_cons. cbn. exact IH. Qed.

Lemma includes_cons_false c s w :
  includes (String c s) w = false → startsWith w (String c s) = false ∧ includes s w = false.
Proof. cbn [includes]. by intros ?%orb_false_iff. Qed.

(** The part of a name before the marker is kept as it is. *)
Lemma removeAll_stem stem t :
  includes (toLowerCase stem) "_compressed" = false → headIs isLetter t = false →
  removeAll true compressedRe (stem +:+ t) = stem +:+ removeAll true compressedRe t.
Proof.
  unfold removeAll. intros Hstem Ht. induction stem as [|c stem IH]; [done|].
  cbn [toLowerCase] in Hstem. apply includes_cons_false in Hstem as [Hhere Hstem].
  rewrite !sapp_cons. cbn [removeAllFrom]. unfold compressedRe at 1. rewrite matchAt_Str.
  destruct (matchStr true "_compressed" (String c (stem +:+ t))) as [r|] eqn:Hm.
  - exfalso. rewrite <- sapp_cons in Hm.
    apply matchStr_no_straddle in Hm as [r' Hr']; [|done..].
    apply matchStr_startsWith in Hr'; [|done]. cbn [toLowerCase] in Hr'. congruence.
  - cbn [fmap option_fmap option_map]. by rewrite IH.
Qed.

(** The marker is removed. *)
Lemma removeAll_marker marker t :
  toLowerCase marker = "_compressed" →
  removeAll true compressedRe (marker +:+ t) = removeAll true compressedRe t.
Proof.
  intros Hmarker. unfold removeAll.
  assert (matchStr true "_compressed" (marker +:+ t) = Some t) as Hm
    by (apply matchStr_lower; [done|by exists marker]).
  destruct marker as [|c marker]; [discriminate Hmarker|].
  rewrite sapp_cons in Hm |- *. cbn [removeAllFrom]. unfold compressedRe at 1.
  rewrite matchAt_Str, Hm. cbn [fmap option_fmap option_map].
  replace (String.length (String c (marker +:+ t)) - String.length t - 1)
    with (String.length marker) by (cbn; rewrite length_sapp; lia).
  apply removeAllFrom_skip.
Qed.

(** A text without underscore is kept as it is. *)
Lemma removeAll_plain t :
  includes (toLowerCase t) "_" = false → removeAll true compressedRe t = t.
Proof.
  unfold removeAll. induction t as [|x t IH]; [done|]. intros Ht.
  cbn [toLowerCase] in Ht. apply includes_cons_false in Ht as [Hhere Ht].
  cbn [removeAllFrom]. unfold compressedRe at 1. rewrite matchAt_Str.
  cbn [matchStr]. rewrite chEq_lower by done.
  rewrite bool_decide_eq_false_2.
  - cbn [fmap option_fmap option_map]. by rewrite IH.
  - intros Hx. cbn [startsWith] in Hhere. rewrite Hx in Hhere.
    by destruct (ascii_dec "_" "_").
Qed.

Lemma rmatch_Alt ic r1 r2 s caps k :
  rmatch ic (Alt r1 r2) s caps k =
    match rmatch ic r1 s caps k with
    | Some x => Some x
    | None => rmatch ic r2 s caps k
    end.
Proof. reflexivity. Qed.

(** A word of plain characters that has to end the text. *)
Lemma rmatch_word_end w s caps :
  allChars plainChar w = true →
  rmatch true (Str w) s caps
    (λ s1 caps1, rmatch true Eos s1 (caps1 ++ [consumed s s1]) accept) =
    if bool_decide (toLowerCase s = w) then Some (caps ++ [s], EmptyString) else None.
Proof.
  intros Hw. rewrite rmatch_Str.
  destruct (matchStr true w s) as [s1|] eqn:Hm.
  - destruct s1 as [|y s1].
    + apply matchStr_whole in Hm; [|done].
      rewrite bool_decide_eq_true_2 by done. cbn [rmatch]. unfold accept.
      by rewrite consumed_all.
    + cbn [rmatch]. rewrite bool_decide_eq_false_2; [done|].
      intros Hs%matchStr_whole; [|done]. congruence.
  - rewrite bool_decide_eq_false_2; [done|].
    intros Hs%matchStr_whole; [|done]. congruence.
Qed.

(** [extensionRe] matches at the head of a text exactly when the whole
    text is a dot and one of the four extensions, in any case. *)
Lemma matchAt_extensionRe x e :
  matchAt true extensionRe (String x e) =
    if bool_decide (lowerChar x = "."%char)
       && bool_decide (toLowerCase e ∈ ["png"; "jpg"; "jpeg"; "webp"])
    then Some ([String x e; e], EmptyString) else None.
Proof.
  unfold matchAt, extensionRe. rewrite rmatch_Cat, rmatch_Str. cbn [matchStr].
  rewrite chEq_lower by done. case_bool_decide as Hx; [|done].
  rewrite rmatch_Cat, rmatch_Grp. cbv beta.
  rewrite !rmatch_Alt, !rmatch_word_end by done. cbn [andb app].
  pose proof (consumed_all (String x e)) as Hall.
  destruct (decide (toLowerCase e = "png")) as [Hpng|Hpng].
  { rewrite !bool_decide_eq_true_2; [by rewrite Hall|rewrite Hpng; compute_done|done]. }
  rewrite (bool_decide_eq_false_2 (toLowerCase e = "png")) by done.
  destruct (decide (toLowerCase e = "jpg")) as [Hjpg|Hjpg].
  { rewrite !bool_decide_eq_true_2; [by rewrite Hall|rewrite Hjpg; compute_done|done]. }
  rewrite (bool_decide_eq_false_2 (toLowerCase e = "jpg")) by done.
  destruct (decide (toLowerCase e = "jpeg")) as [Hjpeg|Hjpeg].
  { rewrite !bool_decide_eq_true_2; [by rewrite Hall|rewrite Hjpeg; compute_done|done]. }
  rewrite (bool_decide_eq_false_2 (toLowerCase e = "jpeg")) by done.
  destruct (decide (toLowerCase e = "webp")) as [Hwebp|Hwebp].
  { rewrite !bool_decide_eq_true_2; [by rewrite Hall|rewrite Hwebp; compute_done|done]. }
  rewrite !bool_decide_eq_false_2; [done| |done].
  rewrite !elem_of_cons, elem_of_nil. tauto.
Qed.

Lemma matchAt_extensionRe_nil : matchAt true extensionRe EmptyString = None.
Proof. reflexivity. Qed.

Lemma extension_head ext :
  toLowerCase ext ∈ imageExtensions →
  ∃ x e, ext = String x e ∧ lowerChar x = "."%char ∧
         toLowerCase e ∈ ["png"; "jpg"; "jpeg"; "webp"].
Proof.
  unfold imageExtensions. rewrite !elem_of_cons, !elem_of_nil.
  destruct ext as [|x e]; cbn [toLowerCase].
  - intros [H | [H | [H | [H | []]]]]; discriminate H.
  - intros Hext. exists x, e. split; [done|].
    destruct Hext as [H | [H | [H | [H | []]]]]; injection H as -> ->; split; try done;
      compute_done.
Qed.

(** The extension at the end is matched. *)
Lemma matchAt_extension ext :
  toLowerCase ext ∈ imageExtensions →
  ∃ m, matchAt true extensionRe ext = Some (m, EmptyString).
Proof.
  intros (x & e & -> & Hx & He)%extension_head.
  rewrite matchAt_extensionRe.
  rewrite !bool_decide_eq_true_2 by done. by eexists.
Qed.

(** No match begins before the extension. *)
Lemma matchAt_before_extension u ext :
  u ≠ EmptyString → toLowerCase ext ∈ imageExtensions →
  matchAt true extensionRe (u +:+ ext) = None.
Proof.
  intros Hu Hext. destruct u as [|x u]; [done|].
  rewrite sapp_cons, matchAt_extensionRe.
  destruct (bool_decide (lowerChar x = "."%char)); [|done]. cbn [andb].
  rewrite bool_decide_eq_false_2; [done|].
  rewrite toLowerCase_sapp. revert Hext. unfold imageExtensions.
  generalize (toLowerCase u) as z. intros z.
  rewrite !elem_of_cons, !elem_of_nil.
  intros [-> | [-> | [-> | [-> | []]]]] [Hz | [Hz | [Hz | [Hz | []]]]];
    (destruct z as [|? z];
     [ discriminate Hz
     | apply (f_equal String.length) in Hz;
       rewrite sapp_cons in Hz; cbn in Hz; rewrite length_sapp in Hz;
       cbn in Hz; lia ]).
Qed.

Lemma removeFirst_extension stem ext :
  toLowerCase ext ∈ imageExtensions →
  removeFirst true extensionRe (stem +:+ ext) = stem.
Proof.
  intros Hext. induction stem as [|c stem IH].
  - rewrite sapp_nil_l. destruct (matchAt_extension _ Hext) as [m Hm].
    destruct ext; cbn [removeFirst]; by rewrite Hm.
  - assert (matchAt true extensionRe (String c (stem +:+ ext)) = None) as Hnone
      by (rewrite <- sapp_cons; by apply matchAt_before_extension).
    rewrite sapp_cons. cbn [removeFirst]. by rewrite Hnone, IH.
Qed.

Lemma lowerChar_dot x : lowerChar x = "."%char → x = "."%char.
Proof.
  assert (forallb
     (λ x, implb (bool_decide (lowerChar x = "."%char)) (bool_decide (x = "."%char)))
     allAscii = true) as Hall by (vm_compute; reflexivity).
  pose proof (all_ascii _ Hall x) as Hx. cbv beta in Hx. intros H.
  rewrite bool_decide_eq_true_2 in Hx by done.
  by apply bool_decide_eq_true in Hx.
Qed.

Lemma removeFirst_no_dot stem :
  includes stem "." = false → removeFirst true extensionRe stem = stem.
Proof.
  induction stem as [|c stem IH]; [done|].
  intros [Hhere Hstem]%includes_cons_false.
  cbn [removeFirst]. rewrite matchAt_extensionRe.
  rewrite bool_decide_eq_false_2.
  - cbn [andb]. by rewrite IH.
  - intros ->%lowerChar_dot. cbn in Hhere. by destruct (ascii_dec "." ".").
Qed.

(** The cleaned name of a stem followed by an optional marker and an
    optional extension is the stem in lower case. *)
Lemma cleanImageName_stem stem marker ext :
  includes (toLowerCase stem) "_compressed" = false →
  (marker = EmptyString ∨ toLowerCase marker = "_compressed") →
  (ext = EmptyString ∧ includes stem "." = false ∨
   toLowerCase ext ∈ imageExtensions) →
  cleanImageName (stem +:+ marker +:+ ext) = toLowerCase stem.
Proof.
  intros Hstem Hmarker Hext. unfold cleanImageName. f_equal.
  assert (removeAll true compressedRe ext = ext) as Hplain.
  { apply removeAll_plain. destruct Hext as [[-> _] | Hext]; [done|].
    revert Hext. unfold imageExtensions. rewrite !elem_of_cons, elem_of_nil.
    by intros [-> | [-> | [-> | [-> | []]]]]. }
  assert (headIs isLetter (marker +:+ ext) = false) as Hhead.
  { destruct Hmarker as [-> | Hmarker].
    - rewrite sapp_nil_l. destruct Hext as [[-> _] | Hext]; [done|].
      apply extension_head in Hext as (x & e & -> & Hx & _).
      cbn. unfold isLetter. by rewrite Hx.
    - destruct marker as [|c marker]; [discriminate Hmarker|].
      cbn in Hmarker. injection Hmarker as Hc _.
      rewrite sapp_cons. cbn. unfold isLetter. by rewrite Hc. }
  rewrite removeAll_stem by done.
  assert (removeAll true compressedRe (marker +:+ ext) = ext) as ->.
  { destruct Hmarker as [-> | Hmarker]; [by rewrite sapp_nil_l|].
    by rewrite removeAll_marker. }
  destruct Hext as [[-> Hdot] | Hext].
  - rewrite sapp_nil_r. by apply removeFirst_no_dot.
  - by apply removeFirst_extension.
Qed.

End Cleaning.

(* ================================================================== *)
(** * Identifiers of file names *)
(* ================================================================== *)

Section FileNames.

Implicit Types (s a b stem marker ext imageName : string).

Lemma imageChapter_stem stem marker ext :
  includes (toLowerCase stem) "_compressed" = false →
  (marker = EmptyString ∨ toLowerCase marker = "_compressed") →
  (ext = EmptyString ∧ includes stem "." = false ∨
   toLowerCase ext ∈ imageExtensions) →
  imageChapter (stem +:+ marker +:+ ext) = chapterOf stem.
Proof.
  intros Hstem Hmarker Hext. unfold imageChapter.
  by rewrite cleanImageName_stem, chapterOf_lower.
Qed.

(** C1 (as amended).  The identifier read off a text is the pair of
    digit runs [(a, b)] of the leftmost place where the text reads: the
    keyword "chap" in any case, underscores and white space in any number
    (none included), the digits [a], exactly one underscore, the digits
    [b].  A text with no such place gives nothing.  For any file name the
    text is its cleaned name.  For the name of a file made of a stem, an
    optional "_compressed" marker and an optional image extension (both in
    any case), the text is the stem, provided that the stem itself holds no
    "_compressed" in any case and, when there is no extension, no dot. *)
Theorem chapter_extraction :
  (∀ s a b, FirstChapAt s a b → chapterOf s = Some (a, b)) ∧
  (∀ s, NoChap s → chapterOf s = None) ∧
  (∀ stem marker ext a b,
     includes (toLowerCase stem) "_compressed" = false →
     (marker = EmptyString ∨ toLowerCase marker = "_compressed") →
     (ext = EmptyString ∧ includes stem "." = false ∨
      toLowerCase ext ∈ imageExtensions) →
     FirstChapAt stem a b →
     imageChapter (stem +:+ marker +:+ ext) = Some (a, b)) ∧
  (∀ stem marker ext,
     includes (toLowerCase stem) "_compressed" = false →
     (marker = EmptyString ∨ toLowerCase marker = "_compressed") →
     (ext = EmptyString ∧ includes stem "." = false ∨
      toLowerCase ext ∈ imageExtensions) →
     NoChap stem →
     imageChapter (stem +:+ marker +:+ ext) = None) ∧
  (∀ imageName a b,
     FirstChapAt (cleanImageName imageName) a b →
     imageChapter imageName = Some (a, b)) ∧
  (∀ imageName,
     NoChap (cleanImageName imageName) → imageChapter imageName = None).
Proof.
  split; [apply chapterOf_first|]. split; [apply chapterOf_none|].
  split.
  { intros stem marker ext a b Hstem Hmarker Hext Hfirst.
    rewrite imageChapter_stem by done. by apply chapterOf_first. }
  split.
  { intros stem marker ext Hstem Hmarker Hext Hno.
    rewrite imageChapter_stem by done. by apply chapterOf_none. }
  split.
  - intros imageName a b. apply chapterOf_first.
  - intros imageName. apply chapterOf_none.
Qed.

Lemma chapter_extraction_witness :
  imageChapter ("Scene_CHAP 1_2" +:+ "_COMPRESSED" +:+ ".PNG") = Some ("1", "2") ∧
  imageChapter "cover.jpeg" = None.
Proof.
  split.
  - apply (proj1 (proj2 (proj2 chapter_extraction))).
    + reflexivity.
    + by right.
    + right. compute_done.
    + exists "Scene_", "CHAP 1_2". split; [reflexivity|]. split.
      * exists "CHAP", " ", EmptyString.
        repeat split; first [reflexivity | discriminate].
      * intros pre' tail' a' b' Heq Hlen Hat.
        apply chapHere_complete in Hat as [r Hr].
        destruct pre' as [|? [|? [|? [|? [|? [|? pre']]]]]];
          cbn in Hlen; try lia;
          vm_compute in Heq; simplify_eq;
          vm_compute in Hr; discriminate Hr.
  - apply (proj2 (proj2 (proj2 (proj2 (proj2 chapter_extraction))))).
    intros pre tail a b Heq Hat.
    apply chapHere_complete in Hat as [r Hr].
    destruct pre as [|? [|? [|? [|? [|? [|? pre]]]]]];
      vm_compute in Heq; try (destruct pre; discriminate Heq); simplify_eq;
      vm_compute in Hr; discriminate Hr.
Defined.

(** C1, the claim as stated fails: in "scene_chap_1 2.png" the keyword is
    followed by the integers 1 and 2, with an underscore before the first
    and white space between the two, and no identifier is extracted. *)
Lemma chapter_space_between_integers_missed :
  cleanImageName "scene_chap_1 2.png" = "scene_" +:+ "chap_1 2" ∧
  SpecChapAt "chap_1 2" "1" "2" ∧
  imageChapter "scene_chap_1 2.png" = None ∧
  matchPromptToImage "scene_chap_1 2.png" [ {| outputAi := "A hides || Chap 1_2" |} ] = None.
Proof.
  split; [reflexivity|]. split; [|split; reflexivity].
  exists "chap", "_", " ", EmptyString.
  repeat split; first [reflexivity | discriminate].
Qed.

End FileNames.

(* ================================================================== *)
(** * Statistics of the ledger *)
(* ================================================================== *)

Section Statistics.

Implicit Types (st : AppState) (img cur : QCImage) (imgs : list QCImage) (s : Status).

(** What an item adds to the count of status [s]. *)
Lemma countStatus_cons s img imgs :
  countStatus s (img :: imgs) =
    (if bool_decide (QC.status img = s) then 1 else 0) + countStatus s imgs.
Proof.
  unfold countStatus. rewrite filter_cons.
  case_bool_decide; by case_decide.
Qed.

Lemma countStatus_app s imgs1 imgs2 :
  countStatus s (imgs1 ++ imgs2) = countStatus s imgs1 + countStatus s imgs2.
Proof. unfold countStatus. by rewrite filter_app, length_app. Qed.

Lemma countStatus_partition imgs :
  length imgs =
    countStatus approved imgs + countStatus rejected imgs + countStatus pending imgs.
Proof.
  induction imgs as [|img imgs IH]; [done|].
  rewrite !countStatus_cons. cbn [length]. rewrite IH.
  destruct (QC.status img); repeat case_bool_decide; try done; lia.
Qed.

(** Replacing an item moves one unit from the count of its old status to
    the count of its new status. *)
Lemma countStatus_insert s imgs i img img' :
  imgs !! i = Some img →
  countStatus s (<[i := img']> imgs) + (if bool_decide (QC.status img = s) then 1 else 0) =
    countStatus s imgs + (if bool_decide (QC.status img' = s) then 1 else 0).
Proof.
  revert i. induction imgs as [|x imgs IH]; intros [|i] Hi; try done.
  - injection Hi as ->. change (<[0 := img']> (img :: imgs)) with (img' :: imgs).
    rewrite !countStatus_cons. repeat case_bool_decide; lia.
  - change (<[S i := img']> (x :: imgs)) with (x :: <[i := img']> imgs).
    rewrite !countStatus_cons.
    specialize (IH i Hi). revert IH. repeat case_bool_decide; lia.
Qed.

Lemma countStatus_all_pending imgs :
  (∀ img, img ∈ imgs → QC.status img = pending) →
  countStatus pending imgs = length imgs ∧
  countStatus approved imgs = 0 ∧ countStatus rejected imgs = 0.
Proof.
  induction imgs as [|img imgs IH]; intros Hall; [done|].
  rewrite !countStatus_cons. rewrite (Hall img) by left.
  destruct IH as (-> & -> & ->); [intros ??; apply Hall; by right|].
  by repeat case_bool_decide.
Qed.

(** X1.  The four counters of the dashboard always add up: every item is
    counted under exactly one of approved, rejected and pending. *)
Theorem stats_partition st :
  Stats.total (stats st) =
    Stats.approved (stats st) + Stats.rejected (stats st) + Stats.pending (stats st).
Proof. apply countStatus_partition. Qed.

Lemma newImage_fields pd idx f :
  QC.id (newImage pd idx f) = (now f + Z.of_nat idx)%Z ∧
  QC.name (newImage pd idx f) = fileName (pickedFile f) ∧
  QC.url (newImage pd idx f) = objectUrl f ∧
  QC.oldUrl (newImage pd idx f) = None ∧
  QC.status (newImage pd idx f) = pending ∧
  QC.prompt (newImage pd idx f) = QC.originalPrompt (newImage pd idx f).
Proof. done. Qed.

Lemma imap_newImage_pending pd files img :
  img ∈ imap (newImage pd) files → QC.status img = pending.
Proof.
  intros (k & Hk)%list_elem_of_lookup_1.
  rewrite list_lookup_imap in Hk.
  destruct (files !! k) as [f|]; [|done]. by injection Hk as <-.
Qed.

(** X2.  An import appends one item per file, in the order of the files
    and after the items already there, which it leaves as they are; each
    new item is pending, has no old locator, carries the name and locator
    of its file and the same text as prompt and original prompt; the
    active index is kept and the review screen is shown.  The pending
    count grows by the number of files and the other two counts stay. *)
Theorem import_appends_pending files st :
  (∀ i img, images st !! i = Some img →
     images (handleImageUpload (Some files) st) !! i = Some img) ∧
  length (images (handleImageUpload (Some files) st)) = length (images st) + length files ∧
  (∀ k f, files !! k = Some f →
     ∃ img, images (handleImageUpload (Some files) st) !! (length (images st) + k) = Some img ∧
       QC.id img = (now f + Z.of_nat k)%Z ∧
       QC.name img = fileName (pickedFile f) ∧
       QC.url img = objectUrl f ∧
       QC.oldUrl img = None ∧
       QC.status img = pending ∧
       QC.prompt img = QC.originalPrompt img) ∧
  qcIndex (handleImageUpload (Some files) st) = qcIndex st ∧
  currentView (handleImageUpload (Some files) st) = qc ∧
  promptData (handleImageUpload (Some files) st) = promptData st ∧
  Stats.pending (stats (handleImageUpload (Some files) st)) =
    Stats.pending (stats st) + length files ∧
  Stats.approved (stats (handleImageUpload (Some files) st)) = Stats.approved (stats st) ∧
  Stats.rejected (stats (handleImageUpload (Some files) st)) = Stats.rejected (stats st) ∧
  handleImageUpload None st = st.
Proof.
  cbn [handleImageUpload images qcIndex currentView promptData setImages setCurrentView
       stats Stats.pending Stats.approved Stats.rejected].
  split.
  { intros i img Hi. rewrite lookup_app_l; [done|]. by eapply lookup_lt_Some. }
  split; [by rewrite length_app, length_imap|].
  split.
  { intros k f Hf. exists (newImage (promptData st) k f). split; [|done].
    rewrite lookup_app_r by lia.
    replace (length (images st) + k - length (images st)) with k by lia.
    by rewrite list_lookup_imap, Hf. }
  rewrite !countStatus_app.
  destruct (countStatus_all_pending (imap (newImage (promptData st)) files))
    as (-> & -> & ->); [apply imap_newImage_pending|].
  rewrite length_imap. repeat split; lia.
Qed.

Lemma import_appends_pending_witness :
  ∃ img,
    images (handleImageUpload (Some [samplePicked "cover.png" 5; samplePicked "scene_chap_1_3.png" 5])
              sampleState) !! (2 + 1) = Some img ∧
    QC.id img = 6%Z ∧ QC.status img = pending.
Proof.
  destruct (proj1 (proj2 (proj2 (import_appends_pending
              [samplePicked "cover.png" 5; samplePicked "scene_chap_1_3.png" 5] sampleState)))
              1 (samplePicked "scene_chap_1_3.png" 5) eq_refl)
    as (img & Himg & Hid & _ & _ & _ & Hst & _).
  exists img. split; [exact Himg|]. split; [exact Hid|exact Hst].
Defined.

End Statistics.

(* ================================================================== *)
(** * Decisions, navigation and regeneration on the review screen *)
(* ================================================================== *)

Section ReviewScreen.

Implicit Types (st : AppState) (img cur : QCImage) (s : Status).

Lemma reject_images st cur :
  current st = Some cur →
  ∃ st1, reject st = Some st1 ∧
    images st1 = <[qcIndex st := withStatus rejected cur]> (images st) ∧
    qcIndex st1 = (if qcIndex st <? length (images st) - 1
                   then qcIndex st + 1 else qcIndex st).
Proof.
  unfold current. intros Hcur. unfold reject. rewrite Hcur. cbn -[Nat.ltb Nat.sub].
  eexists. split; [reflexivity|].
  by destruct (qcIndex st <? length (images st) - 1).
Qed.

(** X3.  A decision leaves the total as it is and moves one unit between
    the counters: approving a pending item adds one to approved and takes
    one from pending, rejecting it adds one to rejected and takes one from
    pending; approving an approved item, or rejecting a rejected one,
    changes no counter. *)
Theorem decision_moves_one_count st cur :
  current st = Some cur →
  ∃ st1 st2,
    approve st = Some st1 ∧ reject st = Some st2 ∧
    Stats.total (stats st1) = Stats.total (stats st) ∧
    Stats.total (stats st2) = Stats.total (stats st) ∧
    (QC.status cur = pending →
       Stats.approved (stats st1) = Stats.approved (stats st) + 1 ∧
       Stats.pending (stats st1) + 1 = Stats.pending (stats st) ∧
       Stats.rejected (stats st1) = Stats.rejected (stats st) ∧
       Stats.rejected (stats st2) = Stats.rejected (stats st) + 1 ∧
       Stats.pending (stats st2) + 1 = Stats.pending (stats st) ∧
       Stats.approved (stats st2) = Stats.approved (stats st)) ∧
    (QC.status cur = approved → stats st1 = stats st) ∧
    (QC.status cur = rejected → stats st2 = stats st).
Proof.
  intros Hcur.
  destruct (approve_images st cur Hcur) as (st1 & Hst1 & Himg1 & _).
  destruct (reject_images st cur Hcur) as (st2 & Hst2 & Himg2 & _).
  exists st1, st2. split; [done|]. split; [done|].
  unfold stats. cbn [Stats.total Stats.approved Stats.rejected Stats.pending].
  rewrite Himg1, Himg2, !length_insert.
  pose proof (λ s, countStatus_insert s _ _ _ (withStatus approved cur) Hcur) as Ha.
  pose proof (λ s, countStatus_insert s _ _ _ (withStatus rejected cur) Hcur) as Hr.
  pose proof (Ha approved) as Haa. pose proof (Ha rejected) as Har.
  pose proof (Ha pending) as Hap. pose proof (Hr approved) as Hra.
  pose proof (Hr rejected) as Hrr. pose proof (Hr pending) as Hrp.
  clear Ha Hr. cbn [withStatus QC.status] in *.
  split; [done|]. split; [done|].
  split; [|split]; intros Hs; rewrite Hs in *;
    repeat match goal with
    | H : context [bool_decide (?a = ?b)] |- _ =>
        let v := eval vm_compute in (bool_decide (a = b)) in
        change (bool_decide (a = b)) with v in H; cbv iota in H
    end;
    [repeat split; lia | f_equal; lia | f_equal; lia].
Qed.

Lemma decision_moves_one_count_witness :
  ∃ st1, approve sampleState = Some st1 ∧
    Stats.approved (stats st1) = 1 ∧ Stats.pending (stats st1) + 1 = 2.
Proof.
  destruct (decision_moves_one_count sampleState
              (sampleItem 1000 "scene_chap_1_2.png" "A hides" pending) eq_refl)
    as (st1 & st2 & H1 & _ & _ & _ & Hpending & _).
  exists st1. split; [exact H1|].
  destruct (Hpending eq_refl) as (Ha & Hp & _). split; [exact Ha|exact Hp].
Defined.

(** X4.  The last decision wins: rejecting an item that was approved
    (selected again in between) leaves the ledger and the active index as
    a single rejection does, and the other way round; a decision changes
    the status of the current item and nothing else in the ledger. *)
Theorem last_decision_wins st cur :
  current st = Some cur →
  ∃ sta str sta' str',
    approve st = Some sta ∧ reject st = Some str ∧
    reject (selectImage (qcIndex st) sta) = Some str' ∧
    approve (selectImage (qcIndex st) str) = Some sta' ∧
    images str' = images str ∧ qcIndex str' = qcIndex str ∧
    images sta' = images sta ∧ qcIndex sta' = qcIndex sta ∧
    images sta = <[qcIndex st := withStatus approved cur]> (images st) ∧
    images str = <[qcIndex st := withStatus rejected cur]> (images st) ∧
    (∀ j, j ≠ qcIndex st →
       images sta !! j = images st !! j ∧ images str !! j = images st !! j).
Proof.
  intros Hcur. pose proof (lookup_lt_Some _ _ _ Hcur) as Hlt.
  destruct (approve_images st cur Hcur) as (sta & Hsta & Hia & Hqa).
  destruct (reject_images st cur Hcur) as (str & Hstr & Hir & Hqr).
  assert (current (selectImage (qcIndex st) sta) = Some (withStatus approved cur)) as Hca.
  { unfold current. cbn. rewrite Hia. by apply list_lookup_insert_eq. }
  assert (current (selectImage (qcIndex st) str) = Some (withStatus rejected cur)) as Hcr.
  { unfold current. cbn. rewrite Hir. by apply list_lookup_insert_eq. }
  destruct (reject_images _ _ Hca) as (str' & Hstr' & Hir' & Hqr').
  destruct (approve_images _ _ Hcr) as (sta' & Hsta' & Hia' & Hqa').
  cbn [selectImage images qcIndex setCompareMode setQcIndex] in Hir', Hqr', Hia', Hqa'.
  exists sta, str, sta', str'. repeat split; try done.
  - by rewrite Hir', Hia, Hir, list_insert_insert_eq.
  - by rewrite Hqr', Hqr, Hia, length_insert.
  - by rewrite Hia', Hir, Hia, list_insert_insert_eq.
  - by rewrite Hqa', Hqa, Hir, length_insert.
  - rewrite Hia. by apply list_lookup_insert_ne.
  - rewrite Hir. by apply list_lookup_insert_ne.
Qed.

Lemma last_decision_wins_witness :
  ∃ sta str',
    approve sampleState = Some sta ∧
    reject (selectImage 0 sta) = Some str' ∧
    QC.status <$> (images str' !! 0) = Some rejected.
Proof.
  destruct (last_decision_wins sampleState
              (sampleItem 1000 "scene_chap_1_2.png" "A hides" pending) eq_refl)
    as (sta & str & sta' & str' & Ha & _ & Hr' & _ & Himg & _ & _ & _ & _ & Hstr & _).
  exists sta, str'. split; [exact Ha|]. split; [exact Hr'|].
  rewrite Himg, Hstr. reflexivity.
Defined.

End ReviewScreen.

Section Navigation.

Implicit Types (st : AppState) (img cur : QCImage).

(** X5.  The two arrows keep the active index on an item and change
    nothing else; away from the ends each undoes the other; at the first
    item the left arrow, and at the last item the right arrow, leave the
    state as it is. *)
Theorem arrows_stay_in_range st cur :
  current st = Some cur →
  ∃ stp stn,
    previousImage st = Some stp ∧ nextImage st = Some stn ∧
    stp = setQcIndex (qcIndex stp) st ∧ stn = setQcIndex (qcIndex stn) st ∧
    qcIndex stp < length (images st) ∧ qcIndex stn < length (images st) ∧
    (0 < qcIndex st → qcIndex stp = qcIndex st - 1 ∧ nextImage stp = Some st) ∧
    (qcIndex st + 1 < length (images st) →
       qcIndex stn = qcIndex st + 1 ∧ previousImage stn = Some st) ∧
    (qcIndex st = 0 → stp = st) ∧
    (qcIndex st = length (images st) - 1 → stn = st).
Proof.
  unfold current. intros Hcur. pose proof (lookup_lt_Some _ _ _ Hcur) as Hlt.
  unfold previousImage, nextImage, current. rewrite Hcur. cbn [mbind option_bind].
  eexists _, _. split; [reflexivity|]. split; [reflexivity|].
  cbn [qcIndex images setQcIndex].
  split; [done|]. split; [done|]. split; [lia|]. split; [lia|].
  split; [|split; [|split]].
  - intros Hpos. split; [lia|].
    destruct (lookup_lt_is_Some_2 (images st) (qcIndex st - 1)) as [x Hx]; [lia|].
    rewrite Nat.max_0_l, Hx. cbn [mbind option_bind].
    replace (Nat.min (length (images st) - 1) (qcIndex st - 1 + 1)) with (qcIndex st) by lia.
    by destruct st.
  - intros Hnext. split; [lia|].
    replace (Nat.min (length (images st) - 1) (qcIndex st + 1)) with (qcIndex st + 1) by lia.
    destruct (lookup_lt_is_Some_2 (images st) (qcIndex st + 1)) as [x Hx]; [lia|].
    rewrite Hx. cbn [mbind option_bind].
    replace (Nat.max 0 (qcIndex st + 1 - 1)) with (qcIndex st) by lia.
    by destruct st.
  - intros Hfirst. rewrite Hfirst, Nat.max_0_l. cbn [Nat.sub].
    rewrite <- Hfirst. by destruct st.
  - intros Hlast.
    replace (Nat.min (length (images st) - 1) (qcIndex st + 1)) with (qcIndex st) by lia.
    by destruct st.
Qed.

Lemma arrows_stay_in_range_witness :
  ∃ stn, nextImage sampleState = Some stn ∧ qcIndex stn = 1 ∧
         previousImage stn = Some sampleState.
Proof.
  destruct (arrows_stay_in_range sampleState
              (sampleItem 1000 "scene_chap_1_2.png" "A hides" pending) eq_refl)
    as (stp & stn & _ & Hn & _ & _ & _ & _ & _ & Hfwd & _).
  exists stn. split; [exact Hn|]. apply Hfwd. cbn. lia.
Defined.




(** X7.  Without a backend address, or without a current item, the
    Regenerate button does nothing at all: no item changes, no message is
    shown; the address left empty is also not restored by a reload, which
    falls back to the default address, while any other address survives
    the reload.  A reload keeps nothing else of the session. *)
Theorem regenerate_needs_backend awaited url st :
  handleRegenerate awaited (setBackendUrl EmptyString st) = (setBackendUrl EmptyString st, []) ∧
  (current st = None → handleRegenerate awaited st = (st, [])) ∧
  backendUrl (reload (setBackendUrl url st)) =
    (if isEmpty url then "http://localhost:5000" else url) ∧
  images (reload (setBackendUrl url st)) = [] ∧
  promptData (reload (setBackendUrl url st)) = [] ∧
  outfitOverride (reload (setBackendUrl url st)) = ∅.
Proof.
  split.
  { unfold handleRegenerate. cbn [images qcIndex backendUrl setBackendUrl].
    by destruct (images st !! qcIndex st). }
  split.
  { unfold current, handleRegenerate. by intros ->. }
  split; [|done].
  by destruct url.
Qed.

Lemma regenerate_needs_backend_witness :
  handleRegenerate Resolved (setImages [] sampleState) = (setImages [] sampleState, []).
Proof.
  by apply (proj1 (proj2 (regenerate_needs_backend Resolved "x" (setImages [] sampleState)))).
Defined.

Lemma filter_length_zero (imgs : list QCImage) s :
  countStatus s imgs = 0 ↔ ∀ img, img ∈ imgs → QC.status img ≠ s.
Proof.
  induction imgs as [|x imgs IH].
  - split; [by intros _ ? ?%elem_of_nil|done].
  - rewrite countStatus_cons. split.
    + intros Hz img [->|Hin]%elem_of_cons.
      * case_bool_decide; [lia|done].
      * apply IH; [lia|done].
    + intros Hall. rewrite bool_decide_eq_false_2 by (apply Hall; left).
      apply IH. intros img Hin. apply Hall. by right.
Qed.

(** X8.  The Download Approved button announces the approved count of the
    dashboard, and reports that there is nothing to download exactly when
    no item is approved. *)
Theorem download_counts_approved st :
  (downloadApproved st = NoApprovedImages ↔
     ∀ img, img ∈ images st → QC.status img ≠ approved) ∧
  (∀ n, downloadApproved st = Downloading n →
        n = Stats.approved (stats st) ∧ 0 < n) ∧
  (0 < Stats.approved (stats st) →
     downloadApproved st = Downloading (Stats.approved (stats st))).
Proof.
  unfold downloadApproved, stats. cbn [Stats.approved].
  fold (countStatus approved (images st)).
  split; [|split].
  - rewrite <- filter_length_zero. by case_bool_decide.
  - intros n. case_bool_decide; [done|]. intros [= <-]. split; [done|lia].
  - intros Hpos. case_bool_decide; [lia|done].
Qed.

Lemma download_counts_approved_witness :
  downloadApproved sampleState = NoApprovedImages.
Proof.
  apply (proj1 (download_counts_approved sampleState)).
  intros img Hin. cbn in Hin. rewrite !elem_of_cons, elem_of_nil in Hin.
  destruct Hin as [-> | [-> | []]]; discriminate.
Defined.

End Navigation.

(* ================================================================== *)
(** * Items *)
(* ================================================================== *)

Section Items.

Implicit Types (st : AppState) (img cur : QCImage).

Lemma sameAsset_refl img : sameAsset img img.
Proof. done. Qed.

Lemma sameAsset_trans a b c : sameAsset a b → sameAsset b c → sameAsset a c.
Proof. unfold sameAsset. intros (?&?&?&?&?) (?&?&?&?&?). repeat split; congruence. Qed.

Lemma rematch_sameAsset data img : sameAsset (rematch data img) img.
Proof. unfold rematch. by destruct (truthy _). Qed.

Lemma truthy_not_empty x p : truthy x = Some p → p ≠ EmptyString.
Proof.
  destruct x as [q|]; [|done]. cbn. destruct q; [done|]. by intros [= <-].
Qed.

Lemma newImage_kept pd k f : itemKept (newImage pd k f).
Proof.
  split; [by left|]. split; [|split; [done|]].
  - cbn. unfold orElse.
    destruct (truthy _) as [p|] eqn:Hp; [by eapply truthy_not_empty|done].
  - cbn. by destruct (pickedFile f).
Qed.

Lemma rematch_kept data img : itemKept img → itemKept (rematch data img).
Proof.
  intros (Hold & Horig & Hset & Hfile). unfold rematch.
  destruct (truthy _) as [p|] eqn:Hp; [|done].
  split; [done|]. split; [by eapply truthy_not_empty|done].
Qed.

End Items.

(* ================================================================== *)
(** * Sessions *)
(* ================================================================== *)

Section Sessions.

Variable JSON_parse : string → option (list PromptEntry).

Implicit Types (p : Page.t) (img cur : QCImage) (ev : Event) (a b : nat).

Lemma withStatus_kept s img : itemKept img → itemKept (withStatus s img).
Proof. done. Qed.

Lemma withPrompt_kept v img : itemKept img → itemKept (withPrompt v img).
Proof. done. Qed.

Lemma regenerated_kept img : itemKept img → itemKept (regenerated (QC.url img) img).
Proof. intros (Hold & Horig & Hset & Hfile). split; [by right|done]. Qed.

(** The objects and the array that [prev.map] gives: the objects there
    were are kept, with new ones after them, and every address of the array
    is the one at the same place of [prev] or the address of a new
    object. *)
Lemma rematchAll_spec data prev : ∀ objs objs' mapped,
  Page.rematchAll data objs prev = (objs', mapped) →
  (∃ extra, objs' = objs ++ extra ∧
     (Forall itemKept objs → Forall itemKept extra)) ∧
  length mapped = length prev ∧
  (∀ b, b ∈ mapped → b ∈ prev ∨ length objs ≤ b < length objs').
Proof.
  induction prev as [|a later IH]; intros objs objs' mapped Hrun; cbn [Page.rematchAll] in Hrun.
  - injection Hrun as <- <-. split; [exists []; by rewrite app_nil_r|].
    split; [done|]. by intros b Hb%elem_of_nil.
  - destruct (objs !! a) as [img|] eqn:Ha;
      [destruct (truthy (matchPromptToImage (QC.name img) data)) as [newPrompt|] eqn:Hm|].
    + destruct (Page.rematchAll data (objs ++ [rematch data img]) later)
        as [objs1 mapped1] eqn:Hlater.
      injection Hrun as <- <-.
      destruct (IH _ _ _ Hlater) as ((extra & -> & Hkept) & Hlen & Hin).
      split; [|split].
      * exists (rematch data img :: extra). split; [by rewrite <- (assoc_L (++))|].
        intros Hall. apply Forall_cons. 
        assert (itemKept (rematch data img)) as Hnew.
        { apply rematch_kept. rewrite Forall_forall in Hall. apply Hall.
          by eapply list_elem_of_lookup_2. }
        split; [done|]. apply Hkept, Forall_app. split; [done|]. by apply Forall_singleton.
      * cbn. by rewrite Hlen.
      * intros b [->|Hb]%elem_of_cons.
        -- right. rewrite !length_app. simpl length. lia.
        -- destruct (Hin b Hb) as [Hold|Hnew]; [left; by right|].
           right. repeat rewrite length_app in Hnew. rewrite !length_app.
           simpl length in Hnew |- *. lia.
    + destruct (Page.rematchAll data objs later) as [objs1 mapped1] eqn:Hlater.
      injection Hrun as <- <-.
      destruct (IH _ _ _ Hlater) as ((extra & -> & Hkept) & Hlen & Hin).
      split; [by exists extra|]. split; [cbn; by rewrite Hlen|].
      intros b [->|Hb]%elem_of_cons; [left; by left|].
      destruct (Hin b Hb) as [Hold|Hnew]; [left; by right|by right].
    + destruct (Page.rematchAll data objs later) as [objs1 mapped1] eqn:Hlater.
      injection Hrun as <- <-.
      destruct (IH _ _ _ Hlater) as ((extra & -> & Hkept) & Hlen & Hin).
      split; [by exists extra|]. split; [cbn; by rewrite Hlen|].
      intros b [->|Hb]%elem_of_cons; [left; by left|].
      destruct (Hin b Hb) as [Hold|Hnew]; [left; by right|by right].
Qed.

Lemma rematchAll_NoDup data prev : ∀ objs objs' mapped,
  Page.rematchAll data objs prev = (objs', mapped) →
  (∀ a, a ∈ prev → a < length objs) → NoDup prev → NoDup mapped.
Proof.
  induction prev as [|a later IH]; intros objs objs' mapped Hrun Hvalid Hnodup;
    cbn [Page.rematchAll] in Hrun.
  - injection Hrun as <- <-. constructor.
  - apply NoDup_cons in Hnodup as [Hnotin Hnodup].
    assert (a < length objs) as Ha by (apply Hvalid; by left).
    assert (∀ b, b ∈ later → b < length objs) as Hvalid' by (intros b Hb; apply Hvalid; by right).
    destruct (objs !! a) as [img|] eqn:Hobj;
      [destruct (truthy (matchPromptToImage (QC.name img) data)) as [newPrompt|] eqn:Hm|].
    + destruct (Page.rematchAll data (objs ++ [rematch data img]) later)
        as [objs1 mapped1] eqn:Hlater.
      injection Hrun as <- <-.
      destruct (rematchAll_spec _ _ _ _ _ Hlater) as (_ & _ & Hin).
      apply NoDup_cons. split.
      * intros Hb. destruct (Hin _ Hb) as [Hold|Hnew].
        -- apply Hvalid' in Hold. lia.
        -- rewrite length_app in Hnew. simpl length in Hnew. lia.
      * eapply IH; [exact Hlater| |done].
        intros b Hb. rewrite length_app. apply Hvalid' in Hb. lia.
    + destruct (Page.rematchAll data objs later) as [objs1 mapped1] eqn:Hlater.
      injection Hrun as <- <-.
      destruct (rematchAll_spec _ _ _ _ _ Hlater) as (_ & _ & Hin).
      apply NoDup_cons. split; [|by eapply IH].
      intros Hb. destruct (Hin _ Hb) as [Hold|Hnew]; [done|lia].
    + apply lookup_ge_None in Hobj. lia.
Qed.

Lemma reviewShown_item p :
  Page.reviewShown p = true →
  Page.currentView p = qc ∧ ∃ a, Page.images p !! Page.qcIndex p = Some a.
Proof.
  unfold Page.reviewShown, Page.current. intros [Hv Hc]%andb_true_iff.
  apply bool_decide_eq_true in Hv, Hc. split; [done|]. by destruct Hc as [a Hc]; exists a.
Qed.

Local Ltac open_step H :=
  repeat match type of H with
  | (if ?b then _ else _) = Some _ =>
      let E := fresh "Hon" in destruct b eqn:E; [|discriminate H]
  end.

(** How an event other than the end of a wait changes the objects, the
    ledger and the active index: objects and addresses appended by an
    import; the array mapped by a load; a field of the current object
    assigned; nothing of these changed, but for the index; or a wait
    begun. *)
Lemma step_shape ev p p' :
  settles ev = false → step JSON_parse ev p = Some p' →
  (Page.awaiting p' = Page.awaiting p ∧ Page.isRegenerating p' = Page.isRegenerating p ∧
   ((∃ files,
       Page.objects p' = Page.objects p ++ imap (newImage (Page.promptData p)) files ∧
       Page.images p' = Page.images p ++ seq (length (Page.objects p)) (length files) ∧
       Page.qcIndex p' = Page.qcIndex p)
    ∨ (∃ data,
         Page.rematchAll data (Page.objects p) (Page.images p)
           = (Page.objects p', Page.images p') ∧
         Page.qcIndex p' = Page.qcIndex p)
    ∨ (∃ a f,
         Page.images p !! Page.qcIndex p = Some a ∧
         Page.objects p' = alter f a (Page.objects p) ∧
         (∀ img, sameAsset (f img) img ∧ (itemKept img → itemKept (f img))) ∧
         Page.images p' = Page.images p ∧
         Page.qcIndex p' < length (Page.images p))
    ∨ (Page.objects p' = Page.objects p ∧ Page.images p' = Page.images p ∧
       (Page.qcIndex p' = Page.qcIndex p ∨
        (is_Some (Page.current p) ∧ Page.qcIndex p' < length (Page.images p))))))
  ∨ (∃ a, Page.isRegenerating p = false ∧
          Page.images p !! Page.qcIndex p = Some a ∧
          p' = Page.setAwaiting
                 (Some {| Closure.images := Page.images p;
                          Closure.qcIndex := Page.qcIndex p;
                          Closure.current := a |})
                 (Page.setIsRegenerating true p)).
Proof.
  intros Hev Hstep. destruct ev; try discriminate Hev; cbn [step] in Hstep.
  - (* ImageUpload *)
    open_step Hstep. injection Hstep as <-. left. split; [by destruct files|].
    split; [by destruct files|].
    destruct files as [files|]; [left; exists files|do 3 right; by split; [|split; [|left]]].
    cbn. by rewrite length_imap.
  - (* JSONRead *)
    injection Hstep as <-. left. unfold Page.handleJSONUpload.
    destruct (JSON_parse text) as [data|];
      [|split; [done|split; [done|do 3 right; by split; [|split; [|left]]]]].
    destruct (Page.rematchAll data (Page.objects p) (Page.images p)) as [objs mapped] eqn:Hmap.
    split; [done|]. split; [done|]. right; left. by exists data.
  - (* RegenerateClick *)
    open_step Hstep. injection Hstep as <-.
    apply andb_true_iff in Hon as [(_ & a & Ha)%reviewShown_item Hreg].
    apply negb_true_iff in Hreg.
    unfold Page.handleRegenerate. rewrite Ha.
    destruct (isEmpty (Page.backendUrl p));
      [left; split; [done|split; [done|do 3 right; by split; [|split; [|left]]]]|].
    right. by exists a.
  - (* SelectImage *)
    open_step Hstep. injection Hstep as <-.
    apply andb_true_iff in Hon as [(_ & a & Ha)%reviewShown_item Hidx].
    apply bool_decide_eq_true in Hidx.
    left. split; [done|]. split; [done|]. do 3 right. split; [done|]. split; [done|].
    right. by split; [exists a|].
  - (* Previous *)
    open_step Hstep.
    apply andb_true_iff in Hon as [(_ & a & Ha)%reviewShown_item _].
    unfold Page.previousImage, Page.current in Hstep. rewrite Ha in Hstep.
    injection Hstep as <-. pose proof (lookup_lt_Some _ _ _ Ha).
    left. split; [done|]. split; [done|]. do 3 right. split; [done|]. split; [done|].
    right. split; [by exists a|]. cbn. lia.
  - (* Next *)
    open_step Hstep.
    apply andb_true_iff in Hon as [(_ & a & Ha)%reviewShown_item _].
    unfold Page.nextImage, Page.current in Hstep. rewrite Ha in Hstep.
    injection Hstep as <-. pose proof (lookup_lt_Some _ _ _ Ha).
    left. split; [done|]. split; [done|]. do 3 right. split; [done|]. split; [done|].
    right. split; [by exists a|]. cbn. lia.
  - (* Approve *)
    open_step Hstep. apply reviewShown_item in Hon as (_ & a & Ha).
    pose proof (lookup_lt_Some _ _ _ Ha) as Hlt.
    unfold Page.approve, Page.decideItem in Hstep. rewrite Ha in Hstep.
    cbn [mbind option_bind] in Hstep. injection Hstep as <-.
    left. split; [by destruct (_ <? _)|]. split; [by destruct (_ <? _)|].
    do 2 right; left. exists a, (withStatus approved).
    split; [done|]. split; [by destruct (_ <? _)|]. split; [done|].
    split; [by destruct (_ <? _)|].
    destruct (_ <? _) eqn:Hlast; [apply Nat.ltb_lt in Hlast; cbn; lia|done].
  - (* Reject *)
    open_step Hstep. apply reviewShown_item in Hon as (_ & a & Ha).
    pose proof (lookup_lt_Some _ _ _ Ha) as Hlt.
    unfold Page.reject, Page.decideItem in Hstep. rewrite Ha in Hstep.
    cbn [mbind option_bind] in Hstep. injection Hstep as <-.
    left. split; [by destruct (_ <? _)|]. split; [by destruct (_ <? _)|].
    do 2 right; left. exists a, (withStatus rejected).
    split; [done|]. split; [by destruct (_ <? _)|]. split; [done|].
    split; [by destruct (_ <? _)|].
    destruct (_ <? _) eqn:Hlast; [apply Nat.ltb_lt in Hlast; cbn; lia|done].
  - (* EditPrompt *)
    open_step Hstep. apply reviewShown_item in Hon as (_ & a & Ha).
    pose proof (lookup_lt_Some _ _ _ Ha) as Hlt.
    unfold Page.editPrompt in Hstep. rewrite Ha in Hstep. injection Hstep as <-.
    left. split; [done|]. split; [done|].
    do 2 right; left. by exists a, (withPrompt value).
  - (* ResetPrompt *)
    open_step Hstep. apply reviewShown_item in Hon as (_ & a & Ha).
    pose proof (lookup_lt_Some _ _ _ Ha) as Hlt.
    unfold Page.resetPrompt in Hstep. rewrite Ha in Hstep. injection Hstep as <-.
    left. split; [done|]. split; [done|].
    do 2 right; left. by exists a, (λ img, withPrompt (QC.originalPrompt img) img).
  - (* ToggleCompare *)
    destruct (Page.item p (Page.qcIndex p)) as [img|]; [|done].
    cbn [mbind option_bind] in Hstep.
    open_step Hstep. injection Hstep as <-.
    left. split; [done|]. split; [done|]. do 3 right. by split; [|split; [|left]].
  - (* ChooseOutfit *)
    destruct (Page.item p (Page.qcIndex p)) as [img|]; [|done].
    cbn [mbind option_bind] in Hstep.
    open_step Hstep. injection Hstep as <-.
    left. split; [done|]. split; [done|]. do 3 right. by split; [|split; [|left]].
  - (* DownloadApproved *)
    open_step Hstep. injection Hstep as <-.
    left. split; [done|]. split; [done|]. do 3 right. by split; [|split; [|left]].
  - (* SetView *)
    injection Hstep as <-.
    left. split; [done|]. split; [done|]. do 3 right. by split; [|split; [|left]].
  - (* SetBackendUrl *)
    injection Hstep as <-.
    left. split; [done|]. split; [done|]. do 3 right. by split; [|split; [|left]].
Qed.

Lemma insert_fresh_NoDup (l : list nat) i x :
  NoDup l → x ∉ l → NoDup (<[i := x]> l).
Proof.
  intros Hnodup Hfresh. apply NoDup_alt. intros j k y Hj Hk.
  apply list_lookup_insert_Some in Hj as [(<- & <- & Hlt) | (Hne & Hj)];
    apply list_lookup_insert_Some in Hk as [(Heq & Hx & Hlt') | (Hne' & Hk)].
  - done.
  - destruct Hfresh. by eapply list_elem_of_lookup_2.
  - subst. destruct Hfresh. by eapply list_elem_of_lookup_2.
  - by eapply NoDup_lookup.
Qed.

Lemma insert_elem (l : list nat) i x a :
  a ∈ <[i := x]> l → a = x ∨ a ∈ l.
Proof.
  intros (j & Hj)%list_elem_of_lookup_1.
  apply list_lookup_insert_Some in Hj as [(_ & -> & _) | (_ & Hj)]; [by left|].
  right. by eapply list_elem_of_lookup_2.
Qed.

Lemma initial_sound stored : Sound (Page.initial stored).
Proof.
  split; cbn.
  - by intros a Ha%elem_of_nil.
  - constructor.
  - constructor.
  - done.
Qed.

(** Every event keeps the addresses in order. *)
Lemma step_sound ev p p' :
  step JSON_parse ev p = Some p' → Sound p → Sound p'.
Proof.
  intros Hstep [Hvalid Hdistinct Hobjects Hawait].
  destruct (settles ev) eqn:Hev.
  - (* the end of a wait *)
    destruct ev; try discriminate Hev. cbn [step] in Hstep.
    unfold Page.resume in Hstep.
    destruct (Page.awaiting p) as [c|] eqn:Hc; [|done].
    destruct (Hawait c eq_refl) as (Hreg & Hcur & Hcdistinct & Hcvalid).
    cbn [mbind option_bind] in Hstep. destruct awaited.
    + destruct (Page.objects p !! Closure.current c) as [cur|] eqn:Hobj; [|done].
      cbn in Hstep. injection Hstep as <-. split; cbn.
      * intros a [-> | Ha]%insert_elem; rewrite length_app; simpl length; [lia|].
        apply Hcvalid in Ha. lia.
      * apply insert_fresh_NoDup; [done|]. intros Hin%Hcvalid. lia.
      * apply Forall_app. split; [done|]. apply Forall_singleton, regenerated_kept.
        rewrite Forall_forall in Hobjects. apply Hobjects.
        by eapply list_elem_of_lookup_2.
      * done.
    + cbn in Hstep. injection Hstep as <-. by split; cbn.
  - destruct (step_shape _ _ _ Hev Hstep)
      as [(Haw & Hreg & [(files & Hobjs & Himgs & Hq) | [(data & Hmap & Hq) |
           [(a & f & Ha & Hobjs & Hf & Himgs & Hq) | (Hobjs & Himgs & Hq)]]])
         | (a & Hreg & Ha & ->)].
    + (* import *)
      split.
      * rewrite Himgs, Hobjs. intros a [Ha | Ha]%elem_of_app;
          rewrite length_app, length_imap.
        -- apply Hvalid in Ha. lia.
        -- apply elem_of_seq in Ha. lia.
      * rewrite Himgs. apply NoDup_app. split; [done|]. split; [|apply NoDup_seq].
        intros a Ha Hseq. apply Hvalid in Ha. apply elem_of_seq in Hseq. lia.
      * rewrite Hobjs. apply Forall_app. split; [done|].
        apply Forall_forall. intros img (k & Hk)%list_elem_of_lookup_1.
        rewrite list_lookup_imap in Hk.
        destruct (files !! k) as [file|]; [|done]. injection Hk as <-. apply newImage_kept.
      * rewrite Haw, Hreg, Hobjs. intros c Hc.
        destruct (Hawait c Hc) as (? & ? & ? & Hcvalid).
        split; [done|]. split; [done|]. split; [done|].
        intros a Hin%Hcvalid. rewrite length_app. lia.
    + (* load *)
      destruct (rematchAll_spec _ _ _ _ _ Hmap) as ((extra & Hobjs & Hkept) & Hlen & Hin).
      split.
      * intros b Hb. destruct (Hin b Hb) as [Hold | Hnew]; [|lia].
        apply Hvalid in Hold. rewrite Hobjs, length_app. lia.
      * by eapply rematchAll_NoDup.
      * rewrite Hobjs. apply Forall_app. split; [done|]. by apply Hkept.
      * rewrite Haw, Hreg, Hobjs. intros c Hc.
        destruct (Hawait c Hc) as (? & ? & ? & Hcvalid).
        split; [done|]. split; [done|]. split; [done|].
        intros a Ha%Hcvalid. rewrite length_app. lia.
    + (* a field assigned *)
      split.
      * rewrite Himgs, Hobjs, length_alter. exact Hvalid.
      * by rewrite Himgs.
      * rewrite Hobjs. apply Forall_alter; [done|]. intros img _. apply Hf.
      * rewrite Haw, Hreg, Hobjs, length_alter. exact Hawait.
    + split.
      * rewrite Himgs, Hobjs. exact Hvalid.
      * by rewrite Himgs.
      * by rewrite Hobjs.
      * rewrite Haw, Hreg, Hobjs. exact Hawait.
    + (* a wait begun *)
      split; cbn; [done|done|done|].
      intros c [= <-]. cbn. done.
Qed.

Lemma reachable_sound p : Reachable JSON_parse p → Sound p.
Proof.
  induction 1 as [stored | ev p p' _ IH Hstep]; [apply initial_sound|].
  by eapply step_sound.
Qed.

Lemma run_reachable evs p p' :
  Reachable JSON_parse p → run JSON_parse evs p = Some p' → Reachable JSON_parse p'.
Proof.
  revert p. induction evs as [|ev evs IH]; intros p Hreach Hrun; cbn [run] in Hrun.
  - by injection Hrun as <-.
  - destruct (step JSON_parse ev p) as [p1|] eqn:Hstep; [|done].
    eapply IH; [|exact Hrun]. by eapply reach_step.
Qed.

(** X11.  In every page of a session, also while a regeneration is
    awaited and after it has ended: no object is twice in the ledger, and
    every place of the ledger holds an item whose old locator is absent or
    is the locator of the item itself (a comparison shows one picture
    twice), whose original prompt is not empty (it is the placeholder or a
    text found by the matcher, never a text typed in the prompt area), whose
    cached setting is not filled in and whose file has the name of the
    item. *)
Theorem session_items_kept p :
  Reachable JSON_parse p →
  NoDup (Page.images p) ∧
  ∀ i, i < length (Page.images p) →
    ∃ img, Page.item p i = Some img ∧
      (QC.oldUrl img = None ∨ QC.oldUrl img = Some (QC.url img)) ∧
      QC.originalPrompt img ≠ EmptyString ∧
      QC.setting img = None ∧
      QC.file img = Some {| fileName := QC.name img |}.
Proof.
  intros [Hvalid Hdistinct Hobjects _]%reachable_sound. split; [done|].
  intros i Hi. destruct (lookup_lt_is_Some_2 _ _ Hi) as [a Ha].
  assert (a < length (Page.objects p)) as Hlt
    by (apply Hvalid; by eapply list_elem_of_lookup_2).
  destruct (lookup_lt_is_Some_2 _ _ Hlt) as [img Himg].
  exists img. split; [unfold Page.item; by rewrite Ha|].
  rewrite Forall_forall in Hobjects. apply Hobjects. by eapply list_elem_of_lookup_2.
Qed.

Lemma step_onItem ev p p' :
  settles ev = false → onItem p → step JSON_parse ev p = Some p' → onItem p'.
Proof.
  intros Hev Hrange Hstep. unfold onItem in *.
  destruct (step_shape _ _ _ Hev Hstep)
    as [(_ & _ & [(files & _ & Himgs & Hq) | [(data & Hmap & Hq) |
         [(a & f & _ & _ & _ & Himgs & Hq) | (_ & Himgs & Hq)]]])
       | (a & _ & _ & ->)].
  - rewrite Himgs, Hq, length_app, length_seq.
    destruct Hrange as [[-> ->] | Hlt]; [|right; lia].
    destruct files; [by left|right; cbn; lia].
  - destruct (rematchAll_spec _ _ _ _ _ Hmap) as (_ & Hlen & _).
    rewrite Hq, Hlen. destruct Hrange as [[Hnil ->] | Hlt]; [left|by right].
    split; [|done]. rewrite Hnil in Hlen. by destruct (Page.images p').
  - right. by rewrite Himgs.
  - rewrite Himgs. destruct Hq as [-> | [_ Hq]]; [done|by right].
  - done.
Qed.

(** What a wait keeps fixed: the closure of the click, whatever the
    events handled meanwhile; the objects and the ledger do not get
    shorter, and an object keeps its picture. *)
Lemma step_waiting ev p p' c :
  settles ev = false → step JSON_parse ev p = Some p' →
  Page.awaiting p = Some c → Page.isRegenerating p = true →
  Page.awaiting p' = Some c ∧ Page.isRegenerating p' = true.
Proof.
  intros Hev Hstep Hc Hreg.
  destruct (step_shape _ _ _ Hev Hstep) as [(Haw & Hreg' & _) | (a & Hfalse & _)];
    [|congruence].
  by rewrite Haw, Hreg'.
Qed.

Lemma step_grows ev p p' :
  settles ev = false → step JSON_parse ev p = Some p' →
  length (Page.images p) ≤ length (Page.images p') ∧
  ∀ a img, Page.objects p !! a = Some img →
    ∃ img', Page.objects p' !! a = Some img' ∧ sameAsset img' img.
Proof.
  intros Hev Hstep.
  destruct (step_shape _ _ _ Hev Hstep)
    as [(_ & _ & [(files & Hobjs & Himgs & _) | [(data & Hmap & _) |
         [(a & f & _ & Hobjs & Hf & Himgs & _) | (Hobjs & Himgs & _)]]])
       | (a & _ & _ & ->)].
  - rewrite Himgs, Hobjs, length_app. split; [lia|].
    intros b img Hb. exists img. split; [|done].
    rewrite lookup_app_l; [done|]. by eapply lookup_lt_Some.
  - destruct (rematchAll_spec _ _ _ _ _ Hmap) as ((extra & -> & _) & -> & _).
    split; [done|]. intros b img Hb. exists img. split; [|done].
    rewrite lookup_app_l; [done|]. by eapply lookup_lt_Some.
  - rewrite Himgs, Hobjs. split; [done|]. intros b img Hb.
    destruct (decide (a = b)) as [->|Hne].
    + exists (f img). rewrite list_lookup_alter_eq, Hb. split; [done|]. apply Hf.
    + exists img. by rewrite list_lookup_alter_ne.
  - rewrite Himgs, Hobjs. split; [done|]. intros b img Hb. by exists img.
  - split; [done|]. intros b img Hb. by exists img.
Qed.

Lemma run_waiting evs : ∀ p p' c,
  (∀ ev, ev ∈ evs → settles ev = false) →
  run JSON_parse evs p = Some p' →
  Page.awaiting p = Some c → Page.isRegenerating p = true →
  Page.awaiting p' = Some c ∧
  length (Page.images p) ≤ length (Page.images p') ∧
  ∀ a img, Page.objects p !! a = Some img →
    ∃ img', Page.objects p' !! a = Some img' ∧ sameAsset img' img.
Proof.
  induction evs as [|ev evs IH]; intros p p' c Hevs Hrun Hc Hreg; cbn [run] in Hrun.
  - injection Hrun as <-. split; [done|]. split; [done|].
    intros a img Ha. by exists img.
  - destruct (step JSON_parse ev p) as [p1|] eqn:Hstep; [|done].
    cbn [mbind option_bind] in Hrun.
    assert (settles ev = false) as Hev by (apply Hevs; by left).
    destruct (step_waiting _ _ _ _ Hev Hstep Hc Hreg) as [Hc1 Hreg1].
    destruct (step_grows _ _ _ Hev Hstep) as [Hlen1 Hobj1].
    destruct (IH p1 p' c) as (Hc' & Hlen' & Hobj'); [|done|done|done|].
    { intros ev' Hin. apply Hevs. by right. }
    split; [done|]. split; [lia|].
    intros a img Ha. destruct (Hobj1 _ _ Ha) as (img1 & Ha1 & Hs1).
    destruct (Hobj' _ _ Ha1) as (img' & Ha' & Hs').
    exists img'. split; [done|]. by eapply sameAsset_trans.
Qed.

(** X10.  When the wait of a regeneration ends well, the ledger becomes
    the array of the render of the click with a new object at the place of
    the item then current, whatever was handled during the wait: the
    ledger, which only grew meanwhile, is as long again as at the click, so
    that the items imported during the wait are no longer in it, and every
    other place holds the object it held at the click.  The new object is
    the current object of the click as it is by then, with its locator as
    old locator and the pending status; it shows the picture it showed at
    the click.  The active index, the dataset and the view stay as the
    events left them. *)
Theorem wait_ends_on_the_ledger_of_the_click evs p p0 p1 :
  Reachable JSON_parse p →
  Page.backendUrl p ≠ EmptyString →
  step JSON_parse RegenerateClick p = Some p0 →
  (∀ ev, ev ∈ evs → settles ev = false) →
  run JSON_parse evs p0 = Some p1 →
  length (Page.images p) ≤ length (Page.images p1) ∧
  ∃ p2 a cur0 cur,
    step JSON_parse (RegenerationSettles Resolved) p1 = Some p2 ∧
    Page.images p !! Page.qcIndex p = Some a ∧
    Page.objects p !! a = Some cur0 ∧
    Page.objects p1 !! a = Some cur ∧ sameAsset cur cur0 ∧
    Page.objects p2 = Page.objects p1 ++ [regenerated (QC.url cur) cur] ∧
    Page.images p2 = <[Page.qcIndex p := length (Page.objects p1)]> (Page.images p) ∧
    length (Page.images p2) = length (Page.images p) ∧
    (∀ i, i ≠ Page.qcIndex p → Page.images p2 !! i = Page.images p !! i) ∧
    Page.item p2 (Page.qcIndex p) = Some (regenerated (QC.url cur) cur) ∧
    Page.qcIndex p2 = Page.qcIndex p1 ∧
    Page.promptData p2 = Page.promptData p1 ∧
    Page.currentView p2 = Page.currentView p1 ∧
    Page.compareMode p2 = true ∧
    Page.isRegenerating p2 = false ∧
    Page.awaiting p2 = None.
Proof.
  intros Hreach Hurl Hclick Hevs Hrun.
  destruct (reachable_sound p Hreach) as [Hvalid _ _ _].
  cbn [step] in Hclick.
  destruct (Page.reviewShown p && negb (Page.isRegenerating p)) eqn:Hon; [|done].
  apply andb_true_iff in Hon as [(_ & a & Ha)%reviewShown_item _].
  injection Hclick as <-. unfold Page.handleRegenerate in Hrun. rewrite Ha in Hrun.
  destruct (isEmpty (Page.backendUrl p)) eqn:Hempty;
    [by destruct (Page.backendUrl p)|].
  assert (a < length (Page.objects p)) as Hlt
    by (apply Hvalid; by eapply list_elem_of_lookup_2).
  destruct (lookup_lt_is_Some_2 _ _ Hlt) as [cur0 Hcur0].
  destruct (run_waiting _ _ _ _ Hevs Hrun eq_refl eq_refl) as (Hc & Hlen & Hobj).
  destruct (Hobj a cur0 Hcur0) as (cur & Hcur & Hsame).
  split; [exact Hlen|].
  pose proof (lookup_lt_Some _ _ _ Ha) as Hq.
  eexists _, a, cur0, cur. split.
  { cbn [step]. unfold Page.resume. rewrite Hc. cbn [mbind option_bind Closure.current].
    rewrite Hcur. reflexivity. }
  cbn. split; [done|]. split; [done|]. split; [done|]. split; [done|].
  split; [done|]. split; [done|]. split; [by rewrite length_insert|].
  split; [by intros i Hi; rewrite list_lookup_insert_ne|].
  split; [|done].
  unfold Page.item. cbn. rewrite list_lookup_insert_eq by done. cbn.
  rewrite lookup_app_r by done. by rewrite Nat.sub_diag.
Qed.

(** X9.  An event other than the end of a wait keeps the active index on
    an item (or at 0 on an empty ledger).  The end of a wait does not: from
    any page of a session that shows the review screen, with a backend
    address and no regeneration under way, the Regenerate button followed,
    during the wait, by an import from the dashboard and a click on the
    thumbnail of the first imported item leaves, when the wait ends well,
    the active index past the end of the ledger; the screen is then the
    empty review screen although the ledger holds the items it held at the
    click. *)
Theorem index_on_item_until_a_wait_ends :
  (∀ ev p p',
     settles ev = false → onItem p → step JSON_parse ev p = Some p' → onItem p') ∧
  (∀ p files,
     Reachable JSON_parse p →
     Page.reviewShown p = true → Page.isRegenerating p = false →
     Page.backendUrl p ≠ EmptyString → files ≠ [] →
     ∃ p',
       run JSON_parse
         [ RegenerateClick; SetView dashboard; ImageUpload (Some files);
           SelectImage (length (Page.images p)); RegenerationSettles Resolved ] p
         = Some p' ∧
       length (Page.images p') = length (Page.images p) ∧
       Page.images p' ≠ [] ∧
       Page.qcIndex p' = length (Page.images p') ∧
       Page.current p' = None ∧
       Page.currentView p' = qc ∧
       Page.reviewShown p' = false ∧ Page.importShown p' = true ∧
       ¬ onItem p').
Proof.
  split; [apply step_onItem|].
  intros p files Hreach Hshown Hreg Hurl Hfiles.
  destruct (reachable_sound p Hreach) as [Hvalid _ _ _].
  destruct (reviewShown_item p Hshown) as (Hview & a & Ha).
  pose proof (lookup_lt_Some _ _ _ Ha) as Hq.
  assert (a < length (Page.objects p)) as Hlt
    by (apply Hvalid; by eapply list_elem_of_lookup_2).
  destruct (lookup_lt_is_Some_2 _ _ Hlt) as [cur Hcur].
  assert (isEmpty (Page.backendUrl p) = false) as Hempty
    by (by destruct (Page.backendUrl p)).
  assert (0 < length files) as Hsome by (destruct files; [done|cbn; lia]).
  eexists. split.
  { cbn [run step]. rewrite Hshown, Hreg. cbn [andb negb mbind option_bind].
    unfold Page.handleRegenerate. rewrite Ha, Hempty.
    cbn [Page.importShown Page.setCurrentView Page.currentView].
    unfold Page.importShown. cbn [Page.currentView Page.setCurrentView].
    rewrite (bool_decide_eq_true_2 (dashboard = dashboard)) by done.
    cbn [orb mbind option_bind].
    unfold Page.reviewShown at 1, Page.current, Page.selectImage.
    cbn [Page.handleImageUpload Page.currentView Page.setCurrentView Page.images
         Page.setImages Page.setObjects Page.qcIndex Page.setAwaiting
         Page.setIsRegenerating Page.objects Page.promptData].
    rewrite (bool_decide_eq_true_2 (qc = qc)) by done.
    rewrite lookup_app_l by done. rewrite Ha.
    rewrite (bool_decide_eq_true_2 (is_Some (Some a))) by done.
    rewrite bool_decide_eq_true_2 by (rewrite length_app, length_seq, length_imap; lia).
    cbn [andb mbind option_bind].
    unfold Page.resume.
    cbn [Page.awaiting Page.setCompareMode Page.setQcIndex Page.setCurrentView
         Page.setImages Page.setObjects Page.setAwaiting Page.setIsRegenerating
         Page.objects mbind option_bind Closure.current fmap option_fmap option_map].
    rewrite lookup_app_l by done. rewrite Hcur.
    cbn [mbind option_bind fmap option_fmap option_map fst]. reflexivity. }
  cbn. rewrite length_insert.
  assert (<[Page.qcIndex p := length (Page.objects p ++ imap (newImage (Page.promptData p)) files)]>
            (Page.images p) ≠ []) as Hne.
  { intros Hnil%(f_equal length). rewrite length_insert in Hnil. cbn in Hnil. lia. }
  assert (<[Page.qcIndex p := length (Page.objects p ++ imap (newImage (Page.promptData p)) files)]>
            (Page.images p) !! length (Page.images p) = None) as Hnone.
  { apply lookup_ge_None. by rewrite length_insert. }
  split; [done|]. split; [done|]. split; [done|].
  unfold Page.current, Page.reviewShown, Page.importShown, Page.current, onItem. cbn.
  rewrite Hnone. split; [done|]. split; [done|].
  rewrite (bool_decide_eq_false_2 (is_Some None)) by (by intros [? ?]).
  split; [by rewrite andb_false_r|]. split; [by rewrite orb_true_r|].
  rewrite length_insert. intros [[Hnil _] | Hlt']; [done|lia].
Qed.

End Sessions.

(* ================================================================== *)
(** * What is rendered of the page *)
(* ================================================================== *)

Section Rendering.

Variable JSON_parse : string → option (list PromptEntry).

Implicit Types (p : Page.t) (img cur : QCImage) (objs : list QCImage) (imgs : list nat).

Lemma shown_lookup objs imgs i :
  (∀ a, a ∈ imgs → a < length objs) →
  omap (λ a, objs !! a) imgs !! i = imgs !! i ≫= (λ a, objs !! a).
Proof.
  revert i. induction imgs as [|a imgs IH]; intros i Hvalid; [done|].
  destruct (lookup_lt_is_Some_2 objs a) as [img Himg]; [apply Hvalid; by left|].
  cbn [omap list_omap]. rewrite Himg. destruct i as [|i]; cbn; [done|].
  apply IH. intros b Hb. apply Hvalid. by right.
Qed.

Lemma shown_length objs imgs :
  (∀ a, a ∈ imgs → a < length objs) →
  length (omap (λ a, objs !! a) imgs) = length imgs.
Proof.
  induction imgs as [|a imgs IH]; intros Hvalid; [done|].
  destruct (lookup_lt_is_Some_2 objs a) as [img Himg]; [apply Hvalid; by left|].
  cbn [omap list_omap]. rewrite Himg. cbn. f_equal.
  apply IH. intros b Hb. apply Hvalid. by right.
Qed.

Lemma shown_more objs extra imgs :
  (∀ a, a ∈ imgs → a < length objs) →
  omap (λ a, (objs ++ extra) !! a) imgs = omap (λ a, objs !! a) imgs.
Proof.
  intros Hvalid. apply list_omap_ext, Forall2_same_length_lookup. split; [done|].
  intros i a b Ha Hb. assert (a = b) as <- by congruence.
  apply lookup_app_l, Hvalid. by eapply list_elem_of_lookup_2.
Qed.

Lemma shown_import objs new imgs :
  (∀ a, a ∈ imgs → a < length objs) →
  omap (λ a, (objs ++ new) !! a) (imgs ++ seq (length objs) (length new))
  = omap (λ a, objs !! a) imgs ++ new.
Proof.
  intros Hvalid. rewrite omap_app, shown_more by done. f_equal.
  apply list_eq. intros i. rewrite shown_lookup.
  - destruct (decide (i < length new)) as [Hi|Hi].
    + rewrite lookup_seq_lt by done. cbn. by rewrite lookup_app_r, Nat.add_comm, Nat.add_sub by lia.
    + rewrite lookup_seq_ge by lia. cbn. symmetry. apply lookup_ge_None. lia.
  - intros a Ha%elem_of_seq. rewrite length_app. lia.
Qed.

Lemma shown_alter objs imgs q a cur f :
  (∀ b, b ∈ imgs → b < length objs) → NoDup imgs →
  imgs !! q = Some a → objs !! a = Some cur →
  omap (λ b, alter f a objs !! b) imgs = <[q := f cur]> (omap (λ b, objs !! b) imgs).
Proof.
  intros Hvalid Hnodup Hq Ha. apply list_eq. intros i.
  rewrite shown_lookup by (by rewrite length_alter).
  destruct (decide (i = q)) as [->|Hne].
  - rewrite list_lookup_insert_eq by (rewrite shown_length by done; by eapply lookup_lt_Some).
    rewrite Hq. cbn. by rewrite list_lookup_alter_eq, Ha.
  - rewrite list_lookup_insert_ne by done. rewrite shown_lookup by done.
    destruct (imgs !! i) as [b|] eqn:Hb; [|done]. cbn.
    apply list_lookup_alter_ne. intros ->. apply Hne. by eapply NoDup_lookup.
Qed.

Lemma shown_insert objs imgs q new :
  (∀ b, b ∈ imgs → b < length objs) → q < length imgs →
  omap (λ b, (objs ++ [new]) !! b) (<[q := length objs]> imgs)
  = <[q := new]> (omap (λ b, objs !! b) imgs).
Proof.
  intros Hvalid Hq. apply list_eq. intros i. rewrite shown_lookup.
  - destruct (decide (i = q)) as [->|Hne].
    + rewrite !list_lookup_insert_eq by (by rewrite ?shown_length). cbn.
      by rewrite lookup_app_r, Nat.sub_diag.
    + rewrite !list_lookup_insert_ne by done. rewrite shown_lookup by done.
      destruct (imgs !! i) as [b|] eqn:Hb; [|done]. cbn.
      apply lookup_app_l, Hvalid. by eapply list_elem_of_lookup_2.
  - intros b [-> | Hb]%insert_elem; rewrite length_app; simpl length; [lia|].
    apply Hvalid in Hb. lia.
Qed.

Lemma shown_rematch data prev : ∀ objs objs' mapped,
  Page.rematchAll data objs prev = (objs', mapped) →
  (∀ a, a ∈ prev → a < length objs) →
  omap (λ a, objs' !! a) mapped = rematch data <$> omap (λ a, objs !! a) prev.
Proof.
  induction prev as [|a later IH]; intros objs objs' mapped Hrun Hvalid;
    cbn [Page.rematchAll] in Hrun.
  - by injection Hrun as <- <-.
  - assert (∀ b, b ∈ later → b < length objs) as Hvalid'
      by (intros b Hb; apply Hvalid; by right).
    destruct (lookup_lt_is_Some_2 objs a) as [img Himg]; [apply Hvalid; by left|].
    rewrite Himg in Hrun. cbn [omap list_omap]. rewrite Himg. rewrite fmap_cons.
    destruct (truthy (matchPromptToImage (QC.name img) data)) as [newPrompt|] eqn:Hm.
    + destruct (Page.rematchAll data (objs ++ [rematch data img]) later)
        as [objs1 mapped1] eqn:Hlater.
      injection Hrun as <- <-.
      destruct (rematchAll_spec _ _ _ _ _ Hlater) as ((extra & -> & _) & _ & _).
      rewrite <- (shown_more objs [rematch data img] later) by done.
      rewrite <- (IH _ _ _ Hlater)
        by (intros b Hb%Hvalid'; rewrite length_app; lia).
      cbn [omap list_omap].
      rewrite lookup_app_l by (rewrite length_app; simpl length; lia).
      by rewrite lookup_app_r, Nat.sub_diag.
    + destruct (Page.rematchAll data objs later) as [objs1 mapped1] eqn:Hlater.
      injection Hrun as <- <-.
      destruct (rematchAll_spec _ _ _ _ _ Hlater) as ((extra & -> & _) & _ & _).
      rewrite <- (IH _ _ _ Hlater) by done.
      cbn [omap list_omap].
      rewrite lookup_app_l by (by eapply lookup_lt_Some). rewrite Himg.
      unfold rematch. by rewrite Hm.
Qed.

Local Ltac fields :=
  cbn [Page.objects Page.currentView Page.backendUrl Page.images Page.promptData
       Page.qcIndex Page.compareMode Page.outfitOverride Page.isRegenerating
       Page.awaiting Page.setObjects Page.setCurrentView Page.setBackendUrl
       Page.setImages Page.setPromptData Page.setQcIndex Page.setCompareMode
       Page.setOutfitOverride Page.setIsRegenerating Page.setAwaiting
       currentView backendUrl images promptData qcIndex compareMode outfitOverride
       isRegenerating setCurrentView setImages setPromptData setQcIndex
       setCompareMode setIsRegenerating
       Closure.images Closure.qcIndex Closure.current].

Lemma rendered_current p :
  Sound p → current (rendered p) = Page.item p (Page.qcIndex p).
Proof.
  intros [Hvalid _ _ _]. unfold current, rendered, Page.item. fields.
  by apply shown_lookup.
Qed.

Lemma rendered_length p :
  Sound p → length (images (rendered p)) = length (Page.images p).
Proof. intros [Hvalid _ _ _]. unfold rendered. fields. by apply shown_length. Qed.

Lemma rendered_item p a :
  Sound p → Page.images p !! Page.qcIndex p = Some a →
  ∃ cur, Page.objects p !! a = Some cur ∧ images (rendered p) !! qcIndex (rendered p) = Some cur.
Proof.
  intros Hsound Ha. destruct Hsound as [Hvalid ? ? ?].
  destruct (lookup_lt_is_Some_2 (Page.objects p) a) as [cur Hcur];
    [apply Hvalid; by eapply list_elem_of_lookup_2|].
  exists cur. split; [done|]. unfold rendered. fields.
  rewrite shown_lookup by done. by rewrite Ha.
Qed.

Lemma rendered_no_item p :
  Sound p → Page.images p !! Page.qcIndex p = None →
  images (rendered p) !! qcIndex (rendered p) = None.
Proof.
  intros [Hvalid _ _ _] Hnone. unfold rendered. fields.
  rewrite shown_lookup by done. by rewrite Hnone.
Qed.

Lemma rendered_assign p a cur f :
  Sound p → Page.images p !! Page.qcIndex p = Some a →
  Page.objects p !! a = Some cur →
  rendered (Page.setObjects (alter f a (Page.objects p)) p)
  = setImages (<[qcIndex (rendered p) := f cur]> (images (rendered p))) (rendered p).
Proof.
  intros [Hvalid Hdistinct _ _] Ha Hcur. unfold rendered, setImages. fields.
  by rewrite (shown_alter _ _ (Page.qcIndex p) a cur).
Qed.

Lemma rendered_decide s p :
  Sound p →
  rendered <$> Page.decideItem s p =
    (current ← images (rendered p) !! qcIndex (rendered p);
     let updated := <[qcIndex (rendered p) := withStatus s current]> (images (rendered p)) in
     let st1 := setImages updated (rendered p) in
     Some (if qcIndex (rendered p) <? length (images (rendered p)) - 1
           then setQcIndex (qcIndex (rendered p) + 1) st1 else st1)).
Proof.
  intros Hsound. unfold Page.decideItem.
  destruct (Page.images p !! Page.qcIndex p) as [a|] eqn:Ha.
  - destruct (rendered_item p a Hsound Ha) as (cur & Hcur & ->).
    cbn [mbind option_bind fmap option_fmap option_map].
    rewrite rendered_length by done.
    pose proof (rendered_assign p a cur (withStatus s) Hsound Ha Hcur) as Hassign.
    change (qcIndex (rendered p)) with (Page.qcIndex p) in *.
    rewrite <- Hassign. f_equal. by destruct (_ <? _).
  - by rewrite rendered_no_item.
Qed.

(** X21.  On every page of a session, each handler that runs to its end
    changes what is rendered of the page as the handler on the state of
    [App] says: the assignments to the fields of an item object are seen at
    the place of that item and nowhere else.  The same holds of a
    regeneration whose wait no event falls into: the click followed at once
    by the end of the wait is the handler run without a break. *)
Theorem handlers_act_on_what_is_rendered p :
  Reachable JSON_parse p →
  length (images (rendered p)) = length (Page.images p) ∧
  current (rendered p) = Page.item p (Page.qcIndex p) ∧
  reviewShown (rendered p) = Page.reviewShown p ∧
  importShown (rendered p) = Page.importShown p ∧
  (∀ files,
     rendered (Page.handleImageUpload files p) = handleImageUpload files (rendered p)) ∧
  (∀ file,
     (rendered (Page.handleJSONUpload JSON_parse file p).1,
      (Page.handleJSONUpload JSON_parse file p).2)
     = handleJSONUpload JSON_parse file (rendered p)) ∧
  rendered <$> Page.approve p = approve (rendered p) ∧
  rendered <$> Page.reject p = reject (rendered p) ∧
  (∀ value, rendered <$> Page.editPrompt value p = editPrompt value (rendered p)) ∧
  rendered <$> Page.resetPrompt p = resetPrompt (rendered p) ∧
  rendered <$> Page.previousImage p = previousImage (rendered p) ∧
  rendered <$> Page.nextImage p = nextImage (rendered p) ∧
  (∀ idx, rendered (Page.selectImage idx p) = selectImage idx (rendered p)) ∧
  (∀ awaited,
     (Page.handleRegenerate p = p ∧
      handleRegenerate awaited (rendered p) = (rendered p, []))
     ∨ (∃ p' alerts,
          Page.resume awaited (Page.handleRegenerate p) = Some (p', alerts) ∧
          handleRegenerate awaited (rendered p) = (rendered p', alerts))).
Proof.
  intros Hsound%reachable_sound.
  pose proof (rendered_length p Hsound) as Hlen.
  pose proof (rendered_current p Hsound) as Hcur.
  assert (is_Some (current (rendered p)) ↔ is_Some (Page.current p)) as Hsome.
  { rewrite Hcur. unfold Page.item, Page.current.
    destruct (Page.images p !! Page.qcIndex p) as [a|] eqn:Ha;
      [|cbn; split; intros [? ?]; done].
    destruct (rendered_item p a Hsound Ha) as (cur & Hobj & _).
    cbn [mbind option_bind]. rewrite Hobj. by split. }
  split; [done|]. split; [done|].
  split.
  { unfold reviewShown, Page.reviewShown. fields. f_equal. by apply bool_decide_ext. }
  split.
  { unfold importShown, Page.importShown. fields. do 3 f_equal. by apply bool_decide_ext. }
  split.
  { intros [files|]; [|done]. destruct Hsound as [Hvalid _ _ _].
    unfold rendered, Page.handleImageUpload, handleImageUpload. fields.
    by rewrite shown_import. }
  split.
  { intros [text|]; [|done]. destruct Hsound as [Hvalid _ _ _].
    unfold Page.handleJSONUpload, handleJSONUpload.
    destruct (JSON_parse text) as [data|]; [|done].
    destruct (Page.rematchAll data (Page.objects p) (Page.images p))
      as [objs mapped] eqn:Hmap.
    cbn [fst snd]. unfold rendered, setImages, setPromptData. fields.
    by rewrite (shown_rematch data _ _ _ _ Hmap). }
  split; [apply (rendered_decide approved p Hsound)|].
  split; [apply (rendered_decide rejected p Hsound)|].
  split.
  { intros value. unfold Page.editPrompt, editPrompt.
    destruct (Page.images p !! Page.qcIndex p) as [a|] eqn:Ha.
    - destruct (rendered_item p a Hsound Ha) as (cur & Hobj & ->).
      cbn [mbind option_bind fmap option_fmap option_map].
      by rewrite (rendered_assign p a cur).
    - by rewrite rendered_no_item. }
  split.
  { unfold Page.resetPrompt, resetPrompt.
    destruct (Page.images p !! Page.qcIndex p) as [a|] eqn:Ha.
    - destruct (rendered_item p a Hsound Ha) as (cur & Hobj & ->).
      cbn [mbind option_bind fmap option_fmap option_map].
      by rewrite (rendered_assign p a cur).
    - by rewrite rendered_no_item. }
  split.
  { unfold Page.previousImage, previousImage. rewrite Hcur. unfold Page.item, Page.current.
    destruct (Page.images p !! Page.qcIndex p) as [a|] eqn:Ha; [|done].
    destruct (rendered_item p a Hsound Ha) as (cur & Hobj & _).
    cbn [mbind option_bind]. by rewrite Hobj. }
  split.
  { unfold Page.nextImage, nextImage. rewrite Hcur, Hlen. unfold Page.item, Page.current.
    destruct (Page.images p !! Page.qcIndex p) as [a|] eqn:Ha; [|done].
    destruct (rendered_item p a Hsound Ha) as (cur & Hobj & _).
    cbn [mbind option_bind]. by rewrite Hobj. }
  split; [done|].
  intros awaited. unfold Page.handleRegenerate, handleRegenerate.
  destruct (Page.images p !! Page.qcIndex p) as [a|] eqn:Ha;
    [|left; by rewrite rendered_no_item].
  destruct (rendered_item p a Hsound Ha) as (cur & Hobj & ->).
  change (backendUrl (rendered p)) with (Page.backendUrl p).
  destruct (isEmpty (Page.backendUrl p)); [by left|]. right.
  unfold Page.resume. fields. cbn [mbind option_bind]. destruct awaited.
  - fields. rewrite Hobj. cbn [mbind option_bind]. eexists _, _. split; [reflexivity|].
    destruct Hsound as [Hvalid _ _ _].
    unfold rendered. fields. f_equal. f_equal.
    rewrite shown_insert; [done|done|]. by eapply lookup_lt_Some.
  - eexists _, _. split; [reflexivity|]. done.
Qed.

End Rendering.

Lemma samplePage_reachable : Reachable sampleParse samplePage.
Proof.
  apply (reach_step sampleParse
           (ImageUpload (Some [samplePicked "scene_chap_1_2.png" 1000;
                               samplePicked "unrelated.png" 1000]))
           (Page.initial None)); [apply reach_init|reflexivity].
Qed.

Lemma sampleWait_settles : ∀ ev, ev ∈ sampleWait → settles ev = false.
Proof.
  intros ev Hin. unfold sampleWait in Hin.
  repeat (apply elem_of_cons in Hin as [-> | Hin]; [reflexivity|]).
  by apply elem_of_nil in Hin.
Qed.

Lemma session_items_kept_witness :
  ∃ img, Page.item samplePage 1 = Some img ∧ QC.originalPrompt img ≠ EmptyString.
Proof.
  destruct (proj2 (session_items_kept sampleParse samplePage samplePage_reachable) 1)
    as (img & Himg & _ & Horig & _); [vm_compute; lia|].
  exists img. split; [exact Himg|exact Horig].
Defined.

Lemma wait_ends_on_the_ledger_of_the_click_witness :
  ∃ p1 p2,
    run sampleParse sampleWait (Page.handleRegenerate samplePage) = Some p1 ∧
    length (Page.images p1) = 3 ∧
    step sampleParse (RegenerationSettles Resolved) p1 = Some p2 ∧
    length (Page.images p2) = 2.
Proof.
  destruct (run sampleParse sampleWait (Page.handleRegenerate samplePage))
    as [p1|] eqn:Hrun; [|vm_compute in Hrun; discriminate Hrun].
  destruct (wait_ends_on_the_ledger_of_the_click sampleParse sampleWait samplePage
              (Page.handleRegenerate samplePage) p1 samplePage_reachable)
    as (_ & p2 & a & cur0 & cur & Hsettle & _ & _ & _ & _ & _ & _ & Hlen & _);
    [discriminate|reflexivity|exact sampleWait_settles|exact Hrun|].
  exists p1, p2. split; [reflexivity|].
  split; [vm_compute in Hrun; injection Hrun as <-; reflexivity|].
  split; [exact Hsettle|exact Hlen].
Defined.

Lemma index_on_item_until_a_wait_ends_witness :
  ∃ p',
    run sampleParse
      [ RegenerateClick; SetView dashboard;
        ImageUpload (Some [samplePicked "late_chap_1_3.png" 2000]);
        SelectImage 2; RegenerationSettles Resolved ] samplePage = Some p' ∧
    Page.qcIndex p' = 2 ∧ length (Page.images p') = 2.
Proof.
  destruct (proj2 (index_on_item_until_a_wait_ends sampleParse) samplePage
              [samplePicked "late_chap_1_3.png" 2000] samplePage_reachable
              eq_refl eq_refl)
    as (p' & Hrun & Hlen & _ & Hq & _); [discriminate|discriminate|].
  exists p'. split; [exact Hrun|].
  split; [rewrite Hq, Hlen; reflexivity|rewrite Hlen; reflexivity].
Defined.

Lemma handlers_act_on_what_is_rendered_witness :
  rendered <$> Page.approve samplePage = approve (rendered samplePage) ∧
  QC.status <$> images (rendered samplePage) = [pending; pending].
Proof.
  split; [|reflexivity].
  pose proof (handlers_act_on_what_is_rendered sampleParse samplePage samplePage_reachable)
    as (_ & _ & _ & _ & _ & _ & Happrove & _).
  exact Happrove.
Defined.

(* ================================================================== *)
(** * Imports and loads together *)
(* ================================================================== *)

Section ImportAndLoad.

Variable JSON_parse : string → option (list PromptEntry).

Implicit Types (st : AppState) (img : QCImage) (data : list PromptEntry).

Lemma matchPromptToImage_nil imageName : matchPromptToImage imageName [] = None.
Proof. reflexivity. Qed.

(** An item imported without dataset and then re-matched is the item
    imported with the dataset. *)
Lemma rematch_newImage data k f : rematch data (newImage [] k f) = newImage data k f.
Proof.
  unfold rematch, newImage. cbn [QC.name]. rewrite matchPromptToImage_nil.
  unfold orElse. cbn [truthy default].
  by destruct (truthy (matchPromptToImage (fileName (pickedFile f)) data)).
Qed.

Lemma rematch_idemp data img : rematch data (rematch data img) = rematch data img.
Proof.
  unfold rematch.
  destruct (truthy (matchPromptToImage (QC.name img) data)) as [p|] eqn:Hp.
  - cbn [QC.name]. by rewrite Hp.
  - by rewrite Hp.
Qed.

(** X12.  As long as no dataset was loaded before, importing pictures
    and loading the dataset can be done in either order: the state after
    both is the same. *)
Theorem import_and_first_load_commute text data files st :
  JSON_parse text = Some data → promptData st = [] →
  handleImageUpload (Some files) (handleJSONUpload JSON_parse (Some text) st).1 =
  (handleJSONUpload JSON_parse (Some text) (handleImageUpload (Some files) st)).1.
Proof.
  intros Hparse Hempty. unfold handleJSONUpload, handleImageUpload. rewrite Hparse.
  cbn [fst images promptData setImages setPromptData setCurrentView
       currentView backendUrl qcIndex compareMode outfitOverride isRegenerating].
  rewrite Hempty, fmap_app, fmap_imap.
  rewrite (imap_ext (λ n, rematch data ∘ newImage [] n) (newImage data) files)
    by (intros k f _; apply rematch_newImage).
  reflexivity.
Qed.

(** X13.  A load of a text that parses announces the number of records,
    replaces the dataset, keeps the active index and the length of the
    ledger, and changes nothing when the same file is loaded once more.  It
    gives every item with a non-empty match the matched text as prompt and
    as original prompt, whatever was typed in the prompt area, and keeps its
    status, its locators and its place. *)
Theorem load_overwrites_matched text data st :
  JSON_parse text = Some data →
  ∃ st1,
    handleJSONUpload JSON_parse (Some text) st = (st1, [Loaded (length data)]) ∧
    promptData st1 = data ∧ qcIndex st1 = qcIndex st ∧
    length (images st1) = length (images st) ∧
    handleJSONUpload JSON_parse (Some text) st1 = (st1, [Loaded (length data)]) ∧
    ∀ i img p,
      images st !! i = Some img →
      matchPromptToImage (QC.name img) data = Some p → p ≠ EmptyString →
      ∃ img',
        images st1 !! i = Some img' ∧
        QC.prompt img' = p ∧ QC.originalPrompt img' = p ∧
        QC.status img' = QC.status img ∧ QC.oldUrl img' = QC.oldUrl img ∧
        sameAsset img' img.
Proof.
  intros Hparse. unfold handleJSONUpload. rewrite Hparse.
  eexists. split; [reflexivity|].
  cbn [images promptData qcIndex setImages setPromptData].
  split; [reflexivity|]. split; [reflexivity|]. split; [by rewrite length_fmap|].
  split.
  { rewrite <- list_fmap_compose.
    rewrite (list_fmap_ext (rematch data ∘ rematch data) (rematch data) (images st))
      by (intros j x _; apply rematch_idemp).
    reflexivity. }
  intros i img p Himg Hmatch Hp. exists (rematch data img).
  rewrite list_lookup_fmap, Himg. cbn [fmap option_fmap option_map].
  split; [reflexivity|].
  assert (truthy (matchPromptToImage (QC.name img) data) = Some p) as Htruthy.
  { rewrite Hmatch. cbn. by destruct p. }
  unfold rematch. rewrite Htruthy. cbn [QC.prompt QC.originalPrompt QC.status QC.oldUrl].
  by repeat (split; [done|]).
Qed.

End ImportAndLoad.

Lemma import_and_first_load_commute_witness :
  QC.prompt <$> images (handleImageUpload
                          (Some [samplePicked "scene_chap_1_3.png" 7])
                          (handleJSONUpload sampleParse (Some sampleText) (initialState None)).1)
  = ["B arrives"] ∧
  QC.prompt <$> images (handleJSONUpload sampleParse (Some sampleText)
                          (handleImageUpload (Some [samplePicked "scene_chap_1_3.png" 7])
                             (initialState None))).1
  = ["B arrives"].
Proof.
  rewrite <- (import_and_first_load_commute sampleParse sampleText sampleData
                [samplePicked "scene_chap_1_3.png" 7] (initialState None) eq_refl eq_refl).
  split; reflexivity.
Defined.

Lemma load_overwrites_matched_witness :
  ∃ st1, handleJSONUpload sampleParse (Some sampleText)
           (setImages [sampleItem 3 "Scene_Chap_1_3.PNG" "typed by hand" approved]
              (initialState None)) = (st1, [Loaded 2]) ∧
    QC.prompt <$> images st1 = ["B arrives"] ∧ QC.status <$> images st1 = [approved].
Proof.
  destruct (load_overwrites_matched sampleParse sampleText sampleData
              (setImages [sampleItem 3 "Scene_Chap_1_3.PNG" "typed by hand" approved]
                 (initialState None))
              eq_refl)
    as (st1 & Hload & _).
  exists st1. split; [exact Hload|].
  vm_compute in Hload. injection Hload as <-. split; reflexivity.
Defined.

(* ================================================================== *)
(** * More on the matcher and the analyser *)
(* ================================================================== *)

Section MatcherAndAnalyser.

Implicit Types (s p a b imageName : string) (r : PromptEntry) (ps : list PromptEntry).

Lemma trimEnd_idemp s : trimEnd (trimEnd s) = trimEnd s.
Proof.
  induction s as [|c s IH]; [done|]. cbn [trimEnd].
  destruct (isSpace c && isEmpty (trimEnd s)) eqn:Hc; [done|].
  cbn [trimEnd]. by rewrite IH, Hc.
Qed.

Lemma trimEnd_head s : headIs isSpace s = false → headIs isSpace (trimEnd s) = false.
Proof.
  destruct s as [|c s]; [done|]. cbn [headIs trimEnd]. intros Hc.
  by rewrite Hc.
Qed.

Lemma trim_idemp s : trim (trim s) = trim s.
Proof.
  unfold trim, trimStart.
  rewrite (dropWhile_headIs isSpace (trimEnd _))
    by apply trimEnd_head, headIs_dropWhile.
  apply trimEnd_idemp.
Qed.

Lemma scanPrompts_Some_inv a b ps p :
  digits a → digits b →
  scanPrompts (a +:+ "_" +:+ b) ps = Some p →
  ∃ r, r ∈ ps ∧ recordChapter r = Some (a, b) ∧ p = recordPrompt r.
Proof.
  intros Ha Hb. induction ps as [|r ps IH]; [done|].
  rewrite scanPrompts_cons by done. case_bool_decide as Hr.
  - intros [= <-]. exists r. split; [left|done].
  - intros (r' & Hin & Hr' & ->)%IH. exists r'. split; [by right|done].
Qed.

(** X14.  The matcher never makes up a text: a result is the text before
    the delimiter, trimmed, of a record of the list whose identifier is
    the identifier of the file name; it has no white space at either end
    (trimming it again gives it back). *)
Theorem match_comes_from_record imageName ps p :
  matchPromptToImage imageName ps = Some p →
  ∃ r a b,
    r ∈ ps ∧ imageChapter imageName = Some (a, b) ∧ recordChapter r = Some (a, b) ∧
    includes (outputAi r) "||" = true ∧
    p = recordPrompt r ∧ trim p = p.
Proof.
  rewrite matchPromptToImage_chapter.
  destruct (imageChapter imageName) as [[a b]|] eqn:Himg; [|done].
  destruct (chapterOf_digits _ _ _ Himg) as [Ha Hb].
  intros (r & Hin & Hr & ->)%scanPrompts_Some_inv; [|done..].
  exists r, a, b. repeat split; try done.
  - unfold recordChapter in Hr. by destruct (includes (outputAi r) "||").
  - apply trim_idemp.
Qed.

Lemma match_comes_from_record_witness :
  ∃ r, r ∈ sampleData ∧ "B arrives" = recordPrompt r.
Proof.
  destruct (match_comes_from_record "scene_chap_1_3.png" sampleData "B arrives" eq_refl)
    as (r & a & b & Hin & _ & _ & _ & Hp & _).
  exists r. split; [exact Hin|exact Hp].
Defined.

(** X15.  A record with the identifier of a file name and no text before
    the delimiter hides every later record with that identifier: the
    matcher returns the empty text, an import then gives the item the
    placeholder, and a load leaves the item as it is. *)
Theorem empty_text_hides_later_records imageName a b r later :
  imageChapter imageName = Some (a, b) →
  recordChapter r = Some (a, b) → recordPrompt r = EmptyString →
  matchPromptToImage imageName (r :: later) = Some EmptyString ∧
  (∀ idx f, fileName (pickedFile f) = imageName →
     QC.prompt (newImage (r :: later) idx f) = placeholder ∧
     QC.originalPrompt (newImage (r :: later) idx f) = placeholder) ∧
  (∀ img, QC.name img = imageName → rematch (r :: later) img = img).
Proof.
  intros Himg Hr Hempty.
  assert (matchPromptToImage imageName (r :: later) = Some EmptyString) as Hmatch.
  { rewrite matchPromptToImage_chapter, Himg.
    destruct (chapterOf_digits _ _ _ Himg) as [Ha Hb].
    assert (∀ r', r' ∈ [] → recordChapter r' ≠ Some (a, b)) as Hnone
      by (by intros r' ?%elem_of_nil).
    pose proof (scanPrompts_first a b [] r later Ha Hb Hnone Hr) as Hscan.
    cbn [app] in Hscan. by rewrite Hscan, Hempty. }
  split; [done|]. split.
  - intros idx f Hname. unfold newImage. cbn [QC.prompt QC.originalPrompt].
    by rewrite Hname, Hmatch.
  - intros img Hname. unfold rematch. by rewrite Hname, Hmatch.
Qed.

Lemma empty_text_hides_later_records_witness :
  matchPromptToImage "scene_chap_1_2.png"
    [ {| outputAi := "   || chap 1_2" |}; {| outputAi := "A hides || Chap 1_2" |} ]
  = Some EmptyString.
Proof.
  apply (empty_text_hides_later_records "scene_chap_1_2.png" "1" "2"
           {| outputAi := "   || chap 1_2" |} [ {| outputAi := "A hides || Chap 1_2" |} ]);
    reflexivity.
Defined.

Lemma lowerChar_idemp x : lowerChar (lowerChar x) = lowerChar x.
Proof.
  assert (forallb (λ x, bool_decide (lowerChar (lowerChar x) = lowerChar x)) allAscii = true)
    as Hall by (vm_compute; reflexivity).
  pose proof (all_ascii _ Hall x) as Hx.
  by apply bool_decide_eq_true in Hx.
Qed.

Lemma toLowerCase_idemp s : toLowerCase (toLowerCase s) = toLowerCase s.
Proof.
  induction s as [|c s IH]; [done|]. cbn. by rewrite lowerChar_idemp, IH.
Qed.

Lemma matchAt_compressedRe s :
  matchAt true compressedRe s =
    (λ rest, ([consumed s rest], rest)) <$> matchStr true "_compressed" s.
Proof. apply matchAt_Str. Qed.

Lemma removeAllFrom_lower k s :
  removeAllFrom true compressedRe k (toLowerCase s) =
    toLowerCase (removeAllFrom true compressedRe k s).
Proof.
  revert k. induction s as [|c s IH]; intros k; [done|].
  cbn [toLowerCase removeAllFrom]. destruct k as [|k]; [|apply IH].
  change (String (lowerChar c) (toLowerCase s)) with (toLowerCase (String c s)).
  rewrite !matchAt_compressedRe, matchStr_toLower.
  destruct (matchStr true "_compressed" (String c s)) as [rest|];
    cbn [fmap option_fmap option_map].
  - rewrite !length_toLowerCase. apply IH.
  - cbn [toLowerCase]. by rewrite IH.
Qed.

Lemma removeFirst_lower s :
  removeFirst true extensionRe (toLowerCase s) =
    toLowerCase (removeFirst true extensionRe s).
Proof.
  induction s as [|c s IH]; [done|].
  cbn [toLowerCase removeFirst]. rewrite !matchAt_extensionRe.
  rewrite lowerChar_idemp, toLowerCase_idemp.
  destruct (bool_decide (lowerChar c = "."%char)
            && bool_decide (toLowerCase s ∈ ["png"; "jpg"; "jpeg"; "webp"])); [done|].
  cbn [toLowerCase]. by rewrite IH.
Qed.

Lemma cleanImageName_lower imageName :
  cleanImageName (toLowerCase imageName) = cleanImageName imageName.
Proof.
  unfold cleanImageName, removeAll.
  by rewrite removeAllFrom_lower, removeFirst_lower, toLowerCase_idemp.
Qed.

(** X16.  The matcher does not look at the case of the letters of a file
    name: two names that differ by case only get the same result, for any
    list of records. *)
Theorem matching_ignores_case_of_file_name imageName imageName' ps :
  toLowerCase imageName = toLowerCase imageName' →
  matchPromptToImage imageName ps = matchPromptToImage imageName' ps.
Proof.
  intros Hsame.
  assert (cleanImageName imageName = cleanImageName imageName') as Hclean
    by (by rewrite <- (cleanImageName_lower imageName), Hsame, cleanImageName_lower).
  unfold matchPromptToImage. by rewrite Hclean.
Qed.

Lemma matching_ignores_case_of_file_name_witness :
  matchPromptToImage "SCENE_Chap_1_2_Compressed.JPEG" sampleData =
  matchPromptToImage "scene_chap_1_2_compressed.jpeg" sampleData.
Proof.
  apply (matching_ignores_case_of_file_name "SCENE_Chap_1_2_Compressed.JPEG"
           "scene_chap_1_2_compressed.jpeg" sampleData).
  reflexivity.
Defined.

(** X17.  The analyser does not look at the case of the letters of a
    prompt either: two prompts that differ by case only get the same
    setting and the same characters with the same outfits; the setting is
    always one of the five tags. *)
Theorem analysis_ignores_case p p' :
  (toLowerCase p = toLowerCase p' →
     detectSettingFromPrompt p = detectSettingFromPrompt p' ∧
     detectCharactersFromPrompt p = detectCharactersFromPrompt p') ∧
  detectSettingFromPrompt p ∈
    ["hospital_vip"; "hospital_regular"; "apartment_living_room";
     "apartment_bedroom"; "generic"].
Proof.
  split.
  - intros Hsame. unfold detectSettingFromPrompt, detectCharactersFromPrompt.
    rewrite <- (isEmpty_lower p), <- (isEmpty_lower p'). by rewrite Hsame.
  - unfold detectSettingFromPrompt.
    repeat match goal with |- context [if ?b then _ else _] => destruct b end;
      compute_done.
Qed.

Lemma analysis_ignores_case_witness :
  detectSettingFromPrompt "RUANG TAMU, malam" = detectSettingFromPrompt "ruang tamu, MALAM".
Proof.
  apply (proj1 (analysis_ignores_case "RUANG TAMU, malam" "ruang tamu, MALAM")).
  reflexivity.
Defined.

Lemma detectOutfit_option p : detectOutfit p ∈ outfitOptions.
Proof.
  unfold detectOutfit.
  repeat match goal with |- context [if ?b then _ else _] => destruct b end;
    compute_done.
Qed.

(** X18.  Every character found in a prompt is one of the four of the
    roster and its outfit is one of the options of the outfit select; when
    the prompt mentions a patient (or "baju pasien") every character but
    Aruna wears the patient outfit, whatever other outfit word the prompt
    has. *)
Theorem detected_outfits_are_options prompt (c : Character) :
  c ∈ detectCharactersFromPrompt prompt →
  Char.name c ∈ roster ∧
  Char.outfit c ∈ outfitOptions ∧
  (includes (toLowerCase prompt) "baju pasien" || includes (toLowerCase prompt) "patient" = true →
   Char.name c ≠ "Aruna" → Char.outfit c = "patient").
Proof.
  intros Hin. split; [|split].
  - eapply elem_of_sublist; [|apply detectCharacters_sublist].
    unfold namesOf. by apply list_elem_of_fmap_2.
  - destruct (detectCharacters_outfits _ _ Hin) as [[_ ->] | [_ ->]];
      [compute_done|apply detectOutfit_option].
  - intros Hpatient Hname.
    destruct (detectCharacters_outfits _ _ Hin) as [[? _] | [_ ->]]; [done|].
    unfold detectOutfit. by rewrite Hpatient.
Qed.

Lemma detected_outfits_are_options_witness :
  Char.outfit {| Char.name := "Raka"; Char.outfit := "patient" |} ∈ outfitOptions.
Proof.
  apply (detected_outfits_are_options "Raka, formal suit over a PATIENT gown").
  left.
Defined.

End MatcherAndAnalyser.

(* ================================================================== *)
(** * Outfit overrides and review in one sweep *)
(* ================================================================== *)

Section OverridesAndSweep.

Implicit Types (st : AppState) (img cur : QCImage) (c : Character).

Lemma orElse_Some v fallback : v ≠ EmptyString → orElse (Some v) fallback = v.
Proof. by destruct v. Qed.

Lemma charsWithOverride_elem overrides chars c :
  c ∈ charsWithOverride overrides chars →
  ∃ c0, c0 ∈ chars ∧ Char.name c = Char.name c0 ∧
        Char.outfit c = orElse (overrides !! Char.name c0) (Char.outfit c0).
Proof.
  unfold charsWithOverride. intros (c0 & -> & Hin)%list_elem_of_fmap. by exists c0.
Qed.

Lemma charsWithOverride_names overrides chars :
  namesOf (charsWithOverride overrides chars) = namesOf chars.
Proof.
  unfold namesOf, charsWithOverride. rewrite <- list_fmap_compose.
  by apply list_fmap_ext.
Qed.

Lemma charsWithOverride_empty chars : charsWithOverride ∅ chars = chars.
Proof.
  unfold charsWithOverride. rewrite <- (list_fmap_id chars) at 2.
  apply list_fmap_ext. intros i [n o] _. cbn. by rewrite lookup_empty.
Qed.

(** X19.  An outfit chosen for a character is kept for the session under
    the name of the character: from then on the select of that character
    shows it and the roster built for a regeneration gives it to that
    character, for whatever item, in place of the outfit read from the
    prompt; the other characters keep what they had, and the names and
    their order are those read from the prompt.  Before any choice the
    roster is the one read from the prompt and every select shows
    "default". *)
Theorem chosen_outfit_applies name value st cur :
  value ≠ EmptyString →
  shownOutfit name (chooseOutfit name value st) = value ∧
  images (chooseOutfit name value st) = images st ∧
  namesOf (regenerationRoster (chooseOutfit name value st) cur)
    = namesOf (detectCharactersFromPrompt (QC.prompt cur)) ∧
  (∀ c, c ∈ regenerationRoster (chooseOutfit name value st) cur →
     (Char.name c = name → Char.outfit c = value) ∧
     (Char.name c ≠ name → c ∈ regenerationRoster st cur)) ∧
  (outfitOverride st = ∅ →
     regenerationRoster st cur = detectCharactersFromPrompt (QC.prompt cur) ∧
     ∀ n, shownOutfit n st = "default").
Proof.
  intros Hvalue. unfold shownOutfit, regenerationRoster, chooseOutfit.
  cbn [outfitOverride images setOutfitOverride].
  split; [by rewrite lookup_insert_eq, orElse_Some|]. split; [done|].
  split; [apply charsWithOverride_names|]. split.
  - intros c Hc. unfold charsWithOverride in Hc.
    apply list_elem_of_fmap in Hc as (c0 & -> & Hin). cbn [Char.name Char.outfit].
    split.
    + intros ->. by rewrite lookup_insert_eq, orElse_Some.
    + intros Hne. rewrite lookup_insert_ne by done.
      unfold charsWithOverride.
      apply (list_elem_of_fmap_2
               (λ c, {| Char.name := Char.name c;
                        Char.outfit := orElse (outfitOverride st !! Char.name c)
                                         (Char.outfit c) |})).
      exact Hin.
  - intros ->. split; [apply charsWithOverride_empty|].
    intros n. by rewrite lookup_empty.
Qed.

Lemma chosen_outfit_applies_witness :
  regenerationRoster (chooseOutfit "Raka" "default" sampleState)
    (sampleItem 1 "chap_1_2.png" "MC and Raka in formal" pending)
  = [ {| Char.name := "MC"; Char.outfit := "formal" |};
      {| Char.name := "Raka"; Char.outfit := "default" |} ] ∧
  shownOutfit "Raka" (chooseOutfit "Raka" "default" sampleState) = "default".
Proof.
  split; [by vm_compute|].
  apply (chosen_outfit_applies "Raka" "default" sampleState
           (sampleItem 1 "chap_1_2.png" "MC and Raka in formal" pending)).
  discriminate.
Defined.

Lemma countStatus_all_approved (imgs : list QCImage) :
  countStatus approved (withStatus approved <$> imgs) = length imgs.
Proof.
  induction imgs as [|x imgs IH]; [done|].
  rewrite fmap_cons, countStatus_cons, IH. cbn [withStatus QC.status length].
  by rewrite bool_decide_eq_true_2.
Qed.

(** From the active index on, [k] approvals in a row approve the [k] items
    that follow, when these are the last ones of the ledger. *)
Lemma approveTimes_tail k st :
  0 < k → qcIndex st + k = length (images st) →
  ∃ st', approveTimes k st = Some st' ∧
    qcIndex st' = length (images st) - 1 ∧
    ∀ j, images st' !! j =
           if decide (j < qcIndex st) then images st !! j
           else withStatus approved <$> images st !! j.
Proof.
  revert st. induction k as [|k IH]; intros st Hk Hlen; [lia|].
  destruct (lookup_lt_is_Some_2 (images st) (qcIndex st)) as [cur Hcur]; [lia|].
  destruct (approve_images st cur Hcur) as (st1 & Hst1 & Himg1 & Hq1).
  cbn [approveTimes]. rewrite Hst1. cbn [mbind option_bind].
  destruct (decide (k = 0)) as [->|Hpos].
  - exists st1. split; [done|].
    assert ((qcIndex st <? length (images st) - 1) = false) as Hlast
      by (apply Nat.ltb_ge; lia).
    rewrite Hlast in Hq1. split; [lia|].
    intros j. rewrite Himg1. case_decide as Hj.
    + apply list_lookup_insert_ne. lia.
    + destruct (decide (j = qcIndex st)) as [->|Hne].
      * rewrite list_lookup_insert_eq by lia. by rewrite Hcur.
      * rewrite list_lookup_insert_ne by done.
        rewrite (lookup_ge_None_2 (images st) j) by lia. done.
  - assert ((qcIndex st <? length (images st) - 1) = true) as Hmore
      by (apply Nat.ltb_lt; lia).
    rewrite Hmore in Hq1.
    destruct (IH st1) as (st' & Hrun & Hq' & Himg'); [lia| |].
    { rewrite Hq1, Himg1, length_insert. lia. }
    exists st'. split; [done|].
    rewrite Himg1, length_insert in Hq'. split; [done|].
    intros j. rewrite Himg', Hq1, Himg1.
    destruct (decide (j = qcIndex st)) as [->|Hne].
    + rewrite list_lookup_insert_eq by lia.
      rewrite decide_True by lia. rewrite decide_False by lia. by rewrite Hcur.
    + rewrite list_lookup_insert_ne by done.
      repeat case_decide; try done; lia.
Qed.

(** X20.  Starting on the first item, as many approvals in a row as the
    ledger has items approve every item, each once, thanks to the move to
    the next item after each approval; the active index ends on the last
    item and the approved count equals the total. *)
Theorem approve_sweep st :
  qcIndex st = 0 → images st ≠ [] →
  ∃ st', approveTimes (length (images st)) st = Some st' ∧
    images st' = withStatus approved <$> images st ∧
    qcIndex st' = length (images st) - 1 ∧
    Stats.approved (stats st') = Stats.total (stats st') ∧
    Stats.pending (stats st') = 0 ∧ Stats.rejected (stats st') = 0.
Proof.
  intros Hfirst Hne.
  assert (0 < length (images st)) as Hpos by (destruct (images st); [done|cbn; lia]).
  destruct (approveTimes_tail (length (images st)) st) as (st' & Hrun & Hq & Himg);
    [done|lia|].
  assert (images st' = withStatus approved <$> images st) as Hall.
  { apply list_eq. intros j. rewrite Himg, Hfirst, list_lookup_fmap.
    rewrite decide_False by lia. done. }
  exists st'. split; [done|]. split; [done|]. split; [done|].
  pose proof (countStatus_partition (images st')) as Hpart.
  unfold stats. cbn [Stats.approved Stats.total Stats.pending Stats.rejected].
  rewrite Hall in Hpart |- *. rewrite countStatus_all_approved in Hpart |- *.
  rewrite length_fmap in Hpart |- *. lia.
Qed.

Lemma approve_sweep_witness :
  ∃ st', approveTimes 2 sampleState = Some st' ∧
    QC.status <$> images st' = [approved; approved] ∧ qcIndex st' = 1.
Proof.
  destruct (approve_sweep sampleState eq_refl) as (st' & Hrun & Himg & Hq & _);
    [discriminate|].
  exists st'. split; [exact Hrun|]. rewrite Himg. split; [reflexivity|exact Hq].
Defined.

End OverridesAndSweep.
